(** * The PID tuning loop of [src/opcontrol.c]

    A shallow embedding of [operatorControl]: the variables declared before
    the [while (true)] loop form the state, one pass through the loop body
    is the function [cycle], and the values returned by the platform calls
    of one pass (button edges, joystick axis, analog sensor) are its inputs.

    The C type [float] is IEEE 754 binary32.  Its arithmetic is taken from
    the Standard Library's [SpecFloat], instantiated at a 24 bit mantissa.
    A pass whose behaviour C leaves undefined (a read outside [increments],
    a float that does not fit the [int] it is converted to, [abs(INT_MIN)])
    is [None].

    The file has five parts: the model; what [SpecFloat]'s rounding
    computes, proved against a reference written with a division; the
    program, up to [loop_defined]: no pass the loop can reach is undefined;
    the claims, C1 to C10; and further properties of the loop, X1 to X14,
    among them that the setpoint, the error and the integral are computed
    without rounding. *)

From Stdlib Require Import ZArith Bool List Lia SpecFloat.
Import ListNotations.
Local Open Scope Z_scope.

(** ** Floating-point formats *)

Definition is_nan (x : spec_float) : bool :=
  match x with S754_nan => true | _ => false end.

Definition is_finite (x : spec_float) : bool :=
  match x with S754_zero _ | S754_finite _ _ _ => true | _ => false end.

(** The integer part of a finite float, rounded toward zero. *)
Definition trunc (x : spec_float) : Z :=
  match x with
  | S754_finite s m e => cond_Zopp s (Z.shiftl (Zpos m) e)
  | _ => 0
  end.

(** *** Reference rounding

    [SpecFloat] rounds by shifting the mantissa right one bit at a time
    while it keeps a round bit and a sticky bit.  The same result written
    with a division: [rne_div v n] is [v / 2^n] rounded to nearest, ties to
    even. *)

Definition loc_of_rem (r n : Z) : location :=
  if r =? 0 then loc_Exact else loc_Inexact (2 * r ?= 2 ^ n).

Definition rne_div (v n : Z) : Z :=
  round_nearest_even (v / 2 ^ n) (loc_of_rem (v mod 2 ^ n) n).

Section Format.
Variables prec emax : Z.

Definition finite_or_inf (s : bool) (q e : Z) : spec_float :=
  if e <=? emax - prec then S754_finite s (Z.to_pos q) e else S754_infinity s.

(** Rounding of [m * 2^e] to the format. *)
Definition round_exact (s : bool) (m : positive) (e : Z) : spec_float :=
  let e1 := Z.max e (fexp prec emax (Zpos (digits2_pos m) + e)) in
  let q := rne_div (Zpos m) (e1 - e) in
  if q =? 0 then S754_zero s
  else if q =? 2 ^ prec then finite_or_inf s (2 ^ (prec - 1)) (e1 + 1)
  else finite_or_inf s q e1.

(** The mantissa and exponent are in step for the format, or finer. *)
Definition aligned (m : positive) (e : Z) : Prop :=
  e <= fexp prec emax (Zpos (digits2_pos m) + e).

(** The value of a float in units of [2^emin], the spacing of the
    subnormal numbers: an integer for every valid float. *)
Definition scaled_value (x : spec_float) : Z :=
  match x with
  | S754_finite s m e => cond_Zopp s (Zpos m * 2 ^ (e - emin prec emax))
  | _ => 0
  end.

(** The least magnitude, in the same units, that rounds to an infinity. *)
Definition overflow_threshold : Z :=
  2 ^ (emax - emin prec emax) - 2 ^ (emax - prec - 1 - emin prec emax).

(** [r] is a correctly formed result for the exact value [V]: valid, a
    number, within [2^-prec] of [V] when finite, and finite unless [V]
    is beyond the largest float. *)
Definition rounds_to (r : spec_float) (V : Z) : Prop :=
  valid_binary prec emax r = true /\
  is_nan r = false /\
  (is_finite r = true -> 2 ^ prec * Z.abs (scaled_value r - V) <= Z.abs V) /\
  (Z.abs V < overflow_threshold -> is_finite r = true).

(** A mantissa that fits the format. *)
Definition mantissa_fits (x : spec_float) : Prop :=
  match x with
  | S754_finite _ m _ => Zpos m < 2 ^ prec
  | _ => True
  end.

End Format.

(** ** Machine numbers *)

(** [double], used only for the decimal literals of the source. *)
Module F64.
Definition prec : Z := 53.
Definition emax : Z := 1024.

Definition of_int (z : Z) : spec_float := binary_normalize prec emax z 0 false.

(** The literal [n/q] written in decimal (0.01 is [literal 1 100]): the
    double nearest to the quotient. *)
Definition literal (n q : Z) : spec_float :=
  SFdiv prec emax (of_int n) (of_int q).
End F64.

(** [float]. *)
Module F32.
Definition prec : Z := 24.
Definition emax : Z := 128.

Definition float : Type := spec_float.

Definition add : float -> float -> float := SFadd prec emax.
Definition sub : float -> float -> float := SFsub prec emax.
Definition mul : float -> float -> float := SFmul prec emax.

(** [x < y], [x > y] and [x <= y]; all false when an operand is NaN. *)
Definition ltb (x y : float) : bool := SFltb x y.
Definition gtb (x y : float) : bool := SFltb y x.
Definition leb (x y : float) : bool := SFleb x y.

Definition abs : float -> float := SFabs.

(** Conversion of an integer, to nearest. *)
Definition of_int (z : Z) : float := binary_normalize prec emax z 0 false.

(** Conversion of a [double], to nearest. *)
Definition of_double (d : spec_float) : float :=
  match d with
  | S754_finite s m e => binary_round prec emax s m e
  | _ => d
  end.

Definition zero : float := S754_zero false.

Definition valid : float -> bool := valid_binary prec emax.

(** The value in units of [2^-149]. *)
Definition scaled : float -> Z := scaled_value prec emax.
End F32.

(** [int] is 32 bits wide on the target; so is [size_t]. *)
Definition INT_MIN : Z := - 2 ^ 31.
Definition INT_MAX : Z := 2 ^ 31 - 1.
Definition SIZE_MODULUS : Z := 2 ^ 32.

Definition int_range (z : Z) : Prop := INT_MIN <= z <= INT_MAX.

Definition in_int (z : Z) : bool := (INT_MIN <=? z) && (z <=? INT_MAX).

(** Conversion of a [float] to [int] discards the fraction; it is undefined
    for NaN, the infinities and values outside the range of [int]. *)
Definition int_of_float (x : F32.float) : option Z :=
  match x with
  | S754_zero _ => Some 0
  | S754_finite _ _ _ =>
      let z := trunc x in if in_int z then Some z else None
  | _ => None
  end.

(** [abs] of <stdlib.h>: on [int], undefined at [INT_MIN]. *)
Definition abs (z : Z) : option Z :=
  if z =? INT_MIN then None else Some (Z.abs z).

(** Undefined behaviour is [None]. *)
Definition bind {A B : Type} (a : option A) (f : A -> option B) : option B :=
  match a with
  | Some x => f x
  | None => None
  end.

Notation "x <- a ;; b" := (bind a (fun x => b))
  (at level 61, a at next level, right associativity).

(** ** Inputs of one pass *)

Inductive Direction := JOY_UP | JOY_DOWN | JOY_LEFT | JOY_RIGHT.

(** Modelled from the spec: togglebtn.h and the platform header are not
    part of the sources.  [pressed g d] is the truth value of
    [toggleBtnGet(1, g, d) == BUTTON_PRESSED] during the pass, a pressed
    edge of button group [g], direction [d]; [joystick] is the value of
    [joystickGetAnalog(1, 3)] and [sensor] that of [analogRead(1)], both of
    type [int]. *)
Record Inputs := mkInputs {
  pressed : Z -> Direction -> bool;
  joystick : Z;
  sensor : Z
}.

Definition wf_inputs (inp : Inputs) : Prop :=
  int_range (joystick inp) /\ int_range (sensor inp).

(** ** State: the variables declared before the loop *)

Record State := mkState {
  isEnabled : bool;
  i : Z;
  kp : F32.float;
  ki : F32.float;
  kd : F32.float;
  setpoint : F32.float;
  error : F32.float;
  lastError : F32.float;
  input : F32.float;
  output : F32.float;
  proportional : F32.float;
  integral : F32.float;
  derivative : F32.float
}.

(** What one pass shows to the outside: the arguments of [printf] and the
    speed handed to [motorSet(6, _)]. *)
Record Diag := mkDiag {
  d_enabled : bool;
  d_input : F32.float;
  d_setpoint : F32.float;
  d_increment : F32.float;
  d_kp : F32.float;
  d_ki : F32.float;
  d_kd : F32.float
}.

Record Effects := mkEffects {
  diag : Diag;
  motor : Z
}.

(** ** Constants *)

Definition increments : list F32.float :=
  [ F32.of_double (F64.literal 1 1000);
    F32.of_double (F64.literal 1 100);
    F32.of_double (F64.literal 1 10) ].

Definition integralLimit : F32.float := F32.of_int 100.
Definition inputMin : Z := 7.
Definition inputMax : Z := 4095.
Definition outputMin : Z := -60.
Definition outputMax : Z := 60.

(** [increments[k]]; reading outside the array is undefined. *)
Definition increment_at (k : Z) : option F32.float :=
  if k <? 0 then None else nth_error increments (Z.to_nat k).

(** The state at line 102, before the first pass. *)
Definition init : State :=
  {| isEnabled := false;
     i := 0;
     kp := F32.of_double (F64.literal 1 100);
     ki := F32.of_double (F64.literal 1 100);
     kd := F32.of_double (F64.literal 1 100);
     setpoint := F32.of_int 2000;
     error := F32.of_int 0;
     lastError := F32.of_int 0;
     input := F32.of_int 0;
     output := F32.of_int 0;
     proportional := F32.of_int 0;
     integral := F32.of_int 0;
     derivative := F32.of_int 0 |}.

(** ** One pass through the loop body *)

(** Lines 105-109: [if (++i >= 3) i = 0;] on a pressed edge of 7 right. *)
Definition cycleIncrement (press : bool) (k : Z) : Z :=
  if press then
    let k' := (k + 1) mod SIZE_MODULUS in
    if 3 <=? k' then 0 else k'
  else k.

(** Lines 112-118 (and 120-126, 128-134): the if / else if / else if chain
    of one gain. *)
Definition adjustGain (up down zero : bool) (inc g : F32.float) : F32.float :=
  if up then F32.add g inc
  else if down then F32.sub g inc
  else if zero then F32.of_int 0
  else g.

(** Lines 139-143. *)
Definition clampSetpoint (sp : F32.float) : F32.float :=
  if F32.gtb sp (F32.of_int inputMax) then F32.of_int inputMax
  else if F32.ltb sp (F32.of_int inputMin) then F32.of_int inputMin
  else sp.

(** Lines 175-179. *)
Definition clampOutput (out : F32.float) : F32.float :=
  if F32.ltb out (F32.of_int outputMin) then F32.of_int outputMin
  else if F32.gtb out (F32.of_int outputMax) then F32.of_int outputMax
  else out.

(** Line 162, [abs(error) < integralLimit]: the float is converted to
    [int], [abs] is taken there, and the result is converted back for the
    comparison. *)
Definition withinIntegralLimit (err : F32.float) : option bool :=
  e <- int_of_float err ;;
  a <- abs e ;;
  Some (F32.ltb (F32.of_int a) integralLimit).

(** Lines 150-152: the flag that line 155 tests. *)
Definition enabledNow (st : State) (inp : Inputs) : bool :=
  if pressed inp 8 JOY_DOWN then negb (isEnabled st) else isEnabled st.

(** The raw sum of line 173. *)
Definition pidSum (p_gain i_gain d_gain prop integ deriv : F32.float) : F32.float :=
  F32.add (F32.add (F32.mul p_gain prop) (F32.mul i_gain integ))
          (F32.mul d_gain deriv).

Definition cycle (st : State) (inp : Inputs) : option (State * Effects) :=
  (* 105-109 *)
  let i1 := cycleIncrement (pressed inp 7 JOY_RIGHT) (i st) in
  (* increments[i]: read at line 147 on every path, and by the gain
     adjustments that fire *)
  inc <- increment_at i1 ;;
  (* 112-134 *)
  let kp1 := adjustGain (pressed inp 7 JOY_UP) (pressed inp 7 JOY_DOWN)
                        (pressed inp 8 JOY_LEFT) inc (kp st) in
  let ki1 := adjustGain (pressed inp 5 JOY_UP) (pressed inp 5 JOY_DOWN)
                        (pressed inp 8 JOY_UP) inc (ki st) in
  let kd1 := adjustGain (pressed inp 6 JOY_UP) (pressed inp 6 JOY_DOWN)
                        (pressed inp 8 JOY_RIGHT) inc (kd st) in
  (* 137-143 *)
  let sp1 := clampSetpoint (F32.add (setpoint st) (F32.of_int (joystick inp))) in
  (* 145-147 *)
  let input1 := F32.of_int (sensor inp) in
  let dg := mkDiag (isEnabled st) input1 sp1 inc kp1 ki1 kd1 in
  (* 150-152 *)
  let en1 := enabledNow st inp in
  (* 155-186 *)
  if en1 then
    let error1 := F32.sub input1 sp1 in
    let proportional1 := error1 in
    small <- withinIntegralLimit error1 ;;
    let integral1 :=
      if small then F32.add (integral st) error1 else F32.of_int 0 in
    let derivative1 := F32.sub error1 (lastError st) in
    let output1 :=
      clampOutput (pidSum kp1 ki1 kd1 proportional1 integral1 derivative1) in
    (* 188 *)
    speed <- int_of_float output1 ;;
    Some ({| isEnabled := en1; i := i1; kp := kp1; ki := ki1; kd := kd1;
             setpoint := sp1; error := error1; lastError := error1;
             input := input1; output := output1;
             proportional := proportional1; integral := integral1;
             derivative := derivative1 |},
          mkEffects dg speed)
  else
    let integral1 := F32.of_int 0 in
    let output1 := F32.of_int 0 in
    (* 188 *)
    speed <- int_of_float output1 ;;
    Some ({| isEnabled := en1; i := i1; kp := kp1; ki := ki1; kd := kd1;
             setpoint := sp1; error := error st; lastError := lastError st;
             input := input1; output := output1;
             proportional := proportional st; integral := integral1;
             derivative := derivative st |},
          mkEffects dg speed).

(** The loop: the passes driven by a list of inputs, oldest first. *)
Fixpoint run (st : State) (inps : list Inputs) : option (State * list Effects) :=
  match inps with
  | [] => Some (st, [])
  | inp :: rest =>
      r <- cycle st inp ;;
      q <- run (fst r) rest ;;
      Some (fst q, snd r :: snd q)
  end.

(** States the loop can be in at the top of a pass. *)
Inductive reachable : State -> Prop :=
| reach_init : reachable init
| reach_cycle st inp st' fx :
    reachable st -> wf_inputs inp -> cycle st inp = Some (st', fx) ->
    reachable st'.

(** ** Vocabulary of the properties *)

(** What the branch taken at line 155 leaves behind: the enabled branch,
    lines 156-181, and the other one, lines 184-185. *)
Definition controlled (st st' : State) (fx : Effects) : Prop :=
  error st' = F32.sub (input st') (setpoint st') /\
  proportional st' = error st' /\
  (exists small, withinIntegralLimit (error st') = Some small /\
     integral st' =
       if small then F32.add (integral st) (error st') else F32.of_int 0) /\
  derivative st' = F32.sub (error st') (lastError st) /\
  output st' =
    clampOutput (pidSum (kp st') (ki st') (kd st')
                        (proportional st') (integral st') (derivative st')) /\
  lastError st' = error st' /\
  int_of_float (output st') = Some (motor fx).

Definition idle (st st' : State) (fx : Effects) : Prop :=
  error st' = error st /\
  proportional st' = proportional st /\
  integral st' = F32.of_int 0 /\
  derivative st' = derivative st /\
  output st' = F32.of_int 0 /\
  lastError st' = lastError st /\
  motor fx = 0.

(** The three gains and the buttons wired to each (lines 112-134). *)
Inductive Gain := KP | KI | KD.

Definition gain (g : Gain) (st : State) : F32.float :=
  match g with KP => kp st | KI => ki st | KD => kd st end.

Definition upPressed (g : Gain) (inp : Inputs) : bool :=
  match g with
  | KP => pressed inp 7 JOY_UP
  | KI => pressed inp 5 JOY_UP
  | KD => pressed inp 6 JOY_UP
  end.

Definition downPressed (g : Gain) (inp : Inputs) : bool :=
  match g with
  | KP => pressed inp 7 JOY_DOWN
  | KI => pressed inp 5 JOY_DOWN
  | KD => pressed inp 6 JOY_DOWN
  end.

Definition zeroPressed (g : Gain) (inp : Inputs) : bool :=
  match g with
  | KP => pressed inp 8 JOY_LEFT
  | KI => pressed inp 8 JOY_UP
  | KD => pressed inp 8 JOY_RIGHT
  end.

(** The flag line 155 tests in each pass of a run that starts with
    [isEnabled = en]. *)
Fixpoint flags (en : bool) (inps : list Inputs) : list bool :=
  match inps with
  | [] => []
  | inp :: rest =>
      let en' := if pressed inp 8 JOY_DOWN then negb en else en in
      en' :: flags en' rest
  end.

(** Button states for examples: nothing pressed, or exactly the listed
    buttons. *)
Definition Direction_eqb (a b : Direction) : bool :=
  match a, b with
  | JOY_UP, JOY_UP | JOY_DOWN, JOY_DOWN
  | JOY_LEFT, JOY_LEFT | JOY_RIGHT, JOY_RIGHT => true
  | _, _ => false
  end.

Definition buttons (l : list (Z * Direction)) (g : Z) (d : Direction) : bool :=
  existsb (fun b => (fst b =? g) && Direction_eqb (snd b) d) l.

Definition quiet (joy sens : Z) : Inputs := mkInputs (buttons []) joy sens.

(** States and inputs for examples.  [scenario] is the enabled controller
    of the worked example: gains 0.01, 0, 0, setpoint 2000, nothing
    accumulated. *)
Definition scenario : State :=
  {| isEnabled := true;
     i := 0;
     kp := F32.of_double (F64.literal 1 100);
     ki := F32.of_int 0;
     kd := F32.of_int 0;
     setpoint := F32.of_int 2000;
     error := F32.of_int 0;
     lastError := F32.of_int 0;
     input := F32.of_int 0;
     output := F32.of_int 0;
     proportional := F32.of_int 0;
     integral := F32.of_int 0;
     derivative := F32.of_int 0 |}.

Definition press (l : list (Z * Direction)) : Inputs :=
  mkInputs (buttons l) 0 2000.

(** A pressed edge of the enable button, 8 down, with the sensor at
    [sens]. *)
Definition toggle (sens : Z) : Inputs :=
  mkInputs (buttons [(8, JOY_DOWN)]) 0 sens.

(** ** Magnitudes the loop stays within *)

(** A well-formed finite float of magnitude at most [2^K] units, that is
    [2^(K-149)]. *)
Definition bounded_by (K : Z) (x : F32.float) : Prop :=
  F32.valid x = true /\ is_finite x = true /\ Z.abs (F32.scaled x) <= 2 ^ K.

(** Gains up to [2^21], setpoint up to [2^12], integral up to [2^31],
    last error up to [2^32]: beyond the first and the third, adding a
    step no longer changes the float. *)
Definition tame (st : State) : Prop :=
  0 <= i st < 3 /\
  (forall g, bounded_by 170 (gain g st)) /\
  bounded_by 161 (setpoint st) /\
  bounded_by 180 (integral st) /\
  bounded_by 181 (lastError st).

(** ** The loop in whole numbers

    The float variables that only ever meet integers, computed in [Z]:
    the reference the floats are compared with. *)

Definition clampZ (lo hi z : Z) : Z :=
  if hi <? z then hi else if z <? lo then lo else z.

(** Lines 137-143. *)
Definition setpointZ (s joy : Z) : Z := clampZ inputMin inputMax (s + joy).

Fixpoint setpointsZ (s : Z) (inps : list Inputs) : Z :=
  match inps with
  | [] => s
  | inp :: rest => setpointsZ (setpointZ s (joystick inp)) rest
  end.

(** Lines 162-166. *)
Definition integralZ (a e : Z) : Z := if Z.abs e <? 100 then a + e else 0.

(** The number of pressed edges of the enable button in a run. *)
Definition toggles (inps : list Inputs) : nat :=
  length (filter (fun inp => pressed inp 8 JOY_DOWN) inps).

(** Every [float] variable of the state. *)
Definition floats (st : State) : list F32.float :=
  [ kp st; ki st; kd st; setpoint st; error st; lastError st; input st;
    output st; proportional st; integral st; derivative st ].

(** The part of the state the operator tunes. *)
Definition tuning (st : State) : Z * F32.float * F32.float * F32.float * F32.float :=
  (i st, kp st, ki st, kd st, setpoint st).

(** The flag each pass of a run prints. *)
Definition printedFlags (fxs : list Effects) : list bool :=
  map (fun fx => d_enabled (diag fx)) fxs.

(** * Floating-point facts *)

(** ** Powers of two and binary digits *)

Lemma pow2_pos k : 0 <= k -> 0 < 2 ^ k.
Proof. intros. apply Z.pow_pos_nonneg; lia. Qed.

Lemma pow2_split a b : 0 <= a -> 0 <= b -> 2 ^ (a + b) = 2 ^ a * 2 ^ b.
Proof. intros. apply Z.pow_add_r; lia. Qed.

Lemma pow2_le a b : 0 <= a <= b -> 2 ^ a <= 2 ^ b.
Proof. intros. apply Z.pow_le_mono_r; lia. Qed.

Lemma pow2_double k : 0 < k -> 2 ^ k = 2 * 2 ^ (k - 1).
Proof. intros. rewrite <- Z.pow_succ_r by lia. f_equal. lia. Qed.

Lemma digits2_pos_bounds (p : positive) :
  2 ^ (Zpos (digits2_pos p) - 1) <= Zpos p < 2 ^ Zpos (digits2_pos p).
Proof.
  induction p as [p IH | p IH |]; simpl digits2_pos.
  - rewrite Pos2Z.inj_succ.
    replace (Z.succ (Zpos (digits2_pos p)) - 1) with (Z.succ (Zpos (digits2_pos p) - 1)) by lia.
    rewrite !Z.pow_succ_r by lia. lia.
  - rewrite Pos2Z.inj_succ.
    replace (Z.succ (Zpos (digits2_pos p)) - 1) with (Z.succ (Zpos (digits2_pos p) - 1)) by lia.
    rewrite !Z.pow_succ_r by lia. lia.
  - simpl. lia.
Qed.

Lemma digits2_pos_unique (p : positive) (d : Z) :
  2 ^ (d - 1) <= Zpos p < 2 ^ d -> Zpos (digits2_pos p) = d.
Proof.
  intros [Hlo Hhi]. pose proof (digits2_pos_bounds p) as [Blo Bhi].
  assert (0 < d).
  { destruct (Z.le_gt_cases d 0) as [Hd|]; [| assumption].
    exfalso. assert (2 ^ d <= 2 ^ 0) by (apply Z.pow_le_mono_r; lia).
    simpl in *. lia. }
  destruct (Z.lt_trichotomy (Zpos (digits2_pos p)) d) as [Hlt | [Heq | Hgt]]; [| assumption |].
  - assert (2 ^ Zpos (digits2_pos p) <= 2 ^ (d - 1)) by (apply Z.pow_le_mono_r; lia). lia.
  - assert (2 ^ d <= 2 ^ (Zpos (digits2_pos p) - 1)) by (apply Z.pow_le_mono_r; lia). lia.
Qed.

Lemma Zdigits2_le (q k : Z) :
  0 <= q < 2 ^ k -> 0 <= k -> 0 <= Zdigits2 q <= k.
Proof.
  intros [Hq Hlt] Hk. destruct q as [| p | p]; simpl; [lia | | lia].
  pose proof (digits2_pos_bounds p) as [Blo _].
  assert (2 ^ (Zpos (digits2_pos p) - 1) < 2 ^ k) as H by lia.
  apply Z.pow_lt_mono_r_iff in H; lia.
Qed.

Lemma Zdigits2_pow2 (k : Z) : 0 <= k -> Zdigits2 (2 ^ k) = k + 1.
Proof.
  intros Hk. assert (0 < 2 ^ k) as Hp by (apply Z.pow_pos_nonneg; lia).
  destruct (2 ^ k) as [| p | p] eqn:E; try lia. simpl.
  apply digits2_pos_unique. rewrite <- E.
  replace (k + 1 - 1) with k by lia. rewrite Z.pow_add_r by lia. lia.
Qed.

Lemma digits2_shift (m m' : positive) (k : Z) :
  0 <= k -> Zpos m' = Zpos m * 2 ^ k ->
  Zpos (digits2_pos m') = Zpos (digits2_pos m) + k.
Proof.
  intros Hk E. apply digits2_pos_unique. rewrite E.
  pose proof (digits2_pos_bounds m) as [Blo Bhi].
  assert (0 < 2 ^ k) by (apply Z.pow_pos_nonneg; lia).
  replace (Zpos (digits2_pos m) + k - 1) with (Zpos (digits2_pos m) - 1 + k) by lia.
  rewrite !Z.pow_add_r by lia. nia.
Qed.

(** ** Shifting a mantissa

    Right shifts keep track of what falls off: after [p] steps the record
    holds the quotient by [2^p] and the position of the remainder with
    respect to one half.  Left shifts multiply. *)

Lemma iter_pos_iter {A} (f : A -> A) (p : positive) (x : A) :
  iter_pos f p x = Pos.iter f x p.
Proof.
  revert x. induction p as [p IH | p IH |]; intros x; simpl.
  - rewrite !IH. rewrite <- Pos.iter_swap. rewrite <- Pos.iter_swap. reflexivity.
  - rewrite !IH. reflexivity.
  - reflexivity.
Qed.

Lemma shr_1_nonneg m r s :
  0 <= m ->
  shr_1 (Build_shr_record m r s) = Build_shr_record (m / 2) (Z.odd m) (r || s).
Proof.
  intros Hm. rewrite <- Z.div2_div.
  destruct m as [| [p | p |] |]; try reflexivity. lia.
Qed.

Lemma loc_of_shr_record_exact m r s :
  loc_of_shr_record (Build_shr_record m r s) = loc_Exact -> r || s = false.
Proof. destruct r, s; simpl; intros H; try discriminate H; reflexivity. Qed.

Lemma loc_of_shr_record_inexact m r s c :
  loc_of_shr_record (Build_shr_record m r s) = loc_Inexact c -> r || s = true.
Proof. destruct r, s; simpl; intros H; try discriminate H; reflexivity. Qed.

Lemma shr_iter_exact (v : Z) (p : positive) :
  0 <= v ->
  let mrs := Pos.iter shr_1 (Build_shr_record v false false) p in
  shr_m mrs = v / 2 ^ Zpos p /\
  loc_of_shr_record mrs = loc_of_rem (v mod 2 ^ Zpos p) (Zpos p).
Proof.
  intros Hv. cbv zeta. induction p as [| p IH] using Pos.peano_ind.
  - cbn [Pos.iter]. rewrite shr_1_nonneg by assumption. cbn [shr_m].
    change (2 ^ 1) with 2. split; [reflexivity |].
    unfold loc_of_rem. rewrite Zodd_mod.
    pose proof (Z.mod_pos_bound v 2 ltac:(lia)) as Hb.
    assert (v mod 2 = 0 \/ v mod 2 = 1) as [-> | ->] by lia; reflexivity.
  - rewrite Pos.iter_succ.
    destruct (Pos.iter shr_1 (Build_shr_record v false false) p) as [m r s].
    cbn [shr_m] in IH. destruct IH as [Hm Hl].
    assert (0 < 2 ^ Zpos p) as Hpow by (apply Z.pow_pos_nonneg; lia).
    assert (0 <= m) as Hm0 by (rewrite Hm; apply Z.div_pos; lia).
    rewrite shr_1_nonneg by assumption. cbn [shr_m].
    rewrite Pos2Z.inj_succ, Z.pow_succ_r by lia.
    split.
    + rewrite Hm, Z.div_div by lia. f_equal. lia.
    + pose proof (Z.mod_pos_bound v (2 ^ Zpos p) Hpow) as Hr.
      assert (v mod (2 * 2 ^ Zpos p) = v mod 2 ^ Zpos p + 2 ^ Zpos p * (m mod 2)) as ->.
      { rewrite Hm. rewrite (Z.mul_comm 2). rewrite Z.rem_mul_r by lia. reflexivity. }
      pose proof (Z.mod_pos_bound m 2 ltac:(lia)) as Hb.
      rewrite Zodd_mod.
      unfold loc_of_rem in Hl |- *.
      rewrite Z.pow_succ_r by lia.
      destruct (v mod 2 ^ Zpos p =? 0) eqn:E0.
      * apply Z.eqb_eq in E0. rewrite E0 in *.
        apply loc_of_shr_record_exact in Hl. rewrite Hl.
        assert (m mod 2 = 0 \/ m mod 2 = 1) as [-> | ->] by lia;
          cbn [Z.eqb loc_of_shr_record].
        -- rewrite Z.mul_0_r. reflexivity.
        -- rewrite Z.mul_1_r, Z.add_0_l.
           destruct (2 ^ Zpos p =? 0) eqn:E1; [apply Z.eqb_eq in E1; lia |].
           rewrite Z.compare_refl. reflexivity.
      * apply Z.eqb_neq in E0.
        apply loc_of_shr_record_inexact in Hl. rewrite Hl.
        assert (m mod 2 = 0 \/ m mod 2 = 1) as [-> | ->] by lia;
          cbn [Z.eqb loc_of_shr_record].
        -- rewrite Z.mul_0_r, Z.add_0_r.
           destruct (v mod 2 ^ Zpos p =? 0) eqn:E1; [apply Z.eqb_eq in E1; lia |].
           assert (2 * (v mod 2 ^ Zpos p) < 2 * 2 ^ Zpos p) as Hc by lia.
           apply Z.compare_lt_iff in Hc. rewrite Hc. reflexivity.
        -- rewrite Z.mul_1_r.
           destruct (v mod 2 ^ Zpos p + 2 ^ Zpos p =? 0) eqn:E1;
             [apply Z.eqb_eq in E1; lia |].
           assert ((2 * (v mod 2 ^ Zpos p + 2 ^ Zpos p) ?= 2 * 2 ^ Zpos p) = Gt) as Hc
             by (apply Z.compare_gt_iff; lia).
           rewrite Hc. reflexivity.
Qed.

Lemma rne_div_0 v : rne_div v 0 = v.
Proof.
  unfold rne_div, loc_of_rem. change (2 ^ 0) with 1.
  rewrite Z.mod_1_r, Z.div_1_r. reflexivity.
Qed.

Lemma shr_exact_round (v e n : Z) :
  0 <= v ->
  let r := shr (Build_shr_record v false false) e n in
  round_nearest_even (shr_m (fst r)) (loc_of_shr_record (fst r)) = rne_div v (Z.max 0 n) /\
  shr_m (fst r) = v / 2 ^ (Z.max 0 n) /\
  snd r = e + Z.max 0 n.
Proof.
  intros Hv. destruct n as [| p | p]; simpl shr.
  - simpl. rewrite rne_div_0, Z.div_1_r. repeat split; lia.
  - rewrite iter_pos_iter.
    destruct (shr_iter_exact v p Hv) as [Hm Hl]. cbv zeta. simpl fst. simpl snd.
    replace (Z.max 0 (Zpos p)) with (Zpos p) by lia.
    unfold rne_div. rewrite Hm, Hl. repeat split; reflexivity.
  - simpl. rewrite rne_div_0, Z.div_1_r. repeat split; lia.
Qed.

Lemma iter_xO_spec (m d : positive) :
  Zpos (Pos.iter xO m d) = Zpos m * 2 ^ Zpos d.
Proof.
  induction d as [| d IH] using Pos.peano_ind.
  - cbn [Pos.iter]. change (2 ^ 1) with 2. lia.
  - rewrite Pos.iter_succ, Pos2Z.inj_xO, IH, Pos2Z.inj_succ, Z.pow_succ_r by lia. lia.
Qed.

Lemma shl_align_spec (m : positive) (e e' : Z) :
  snd (shl_align m e e') = Z.min e e' /\
  Zpos (fst (shl_align m e e')) = Zpos m * 2 ^ (e - Z.min e e').
Proof.
  unfold shl_align. destruct (e' - e) as [| p | p] eqn:E; cbn [fst snd].
  - replace (Z.min e e') with e by lia. rewrite Z.sub_diag. simpl. lia.
  - replace (Z.min e e') with e by lia. rewrite Z.sub_diag. simpl. lia.
  - replace (Z.min e e') with e' by lia. rewrite iter_xO_spec.
    replace (e - e') with (Zpos p) by lia. split; reflexivity.
Qed.

(** ** Rounding a quotient to nearest *)

Lemma rne_div_bounds v n :
  0 <= v -> 0 <= n -> v / 2 ^ n <= rne_div v n <= v / 2 ^ n + 1.
Proof.
  intros Hv Hn. unfold rne_div, loc_of_rem, round_nearest_even.
  destruct (v mod 2 ^ n =? 0); [lia |].
  destruct (2 * (v mod 2 ^ n) ?= 2 ^ n); try lia.
  destruct (Z.even (v / 2 ^ n)); lia.
Qed.

Lemma rne_div_error v n :
  0 <= v -> 1 <= n -> 2 * Z.abs (rne_div v n * 2 ^ n - v) <= 2 ^ n.
Proof.
  intros Hv Hn.
  assert (0 < 2 ^ n) as Hp by (apply Z.pow_pos_nonneg; lia).
  pose proof (Z.div_mod v (2 ^ n) ltac:(lia)) as Hdm.
  pose proof (Z.mod_pos_bound v (2 ^ n) Hp) as Hr.
  unfold rne_div, loc_of_rem, round_nearest_even.
  set (q := v / 2 ^ n) in *. set (r := v mod 2 ^ n) in *. set (P := 2 ^ n) in *.
  clearbody q r. clearbody P.
  destruct (r =? 0) eqn:E0; cbv iota.
  - apply Z.eqb_eq in E0. lia.
  - destruct (Z.compare_spec (2 * r) P); cbv iota.
    + destruct (Z.even q); lia.
    + lia.
    + lia.
Qed.

(** ** Comparison *)

Lemma cond_Zopp_mul s a b : cond_Zopp s a * b = cond_Zopp s (a * b).
Proof. destruct s; simpl; ring. Qed.

Lemma compare_cont_swap p q :
  Pos.compare_cont Eq q p = CompOpp (Pos.compare_cont Eq p q).
Proof. rewrite Pos.compare_cont_antisym. reflexivity. Qed.

Lemma SFcompare_antisym x y c :
  SFcompare x y = Some c -> SFcompare y x = Some (CompOpp c).
Proof.
  destruct x as [sx | sx | | sx mx ex], y as [sy | sy | | sy my ey];
    cbn [SFcompare]; try discriminate;
    intros H; injection H as <-;
    try (destruct sx; reflexivity); try (destruct sy; reflexivity);
    try (destruct sx, sy; reflexivity).
  rewrite (Z.compare_antisym ex ey), (compare_cont_swap mx my).
  destruct sx, sy; try reflexivity;
    destruct (ex ?= ey); cbn [CompOpp]; try reflexivity;
    destruct (Pos.compare_cont Eq mx my); reflexivity.
Qed.

Lemma SFcompare_not_nan x y :
  is_nan x = false -> is_nan y = false -> exists c, SFcompare x y = Some c.
Proof.
  destruct x, y; cbn [is_nan SFcompare]; try discriminate; eauto.
Qed.

(** Not less and not greater, for numbers: between. *)
Lemma SFleb_of_not_ltb x y :
  is_nan x = false -> is_nan y = false -> SFltb y x = false -> SFleb x y = true.
Proof.
  intros Hx Hy. unfold SFltb, SFleb.
  destruct (SFcompare_not_nan x y Hx Hy) as [c Hc].
  rewrite Hc, (SFcompare_antisym _ _ _ Hc). destruct c; simpl; congruence.
Qed.

(** ** One format

    What [SpecFloat] computes for a format with [prec] bits of mantissa
    and infinities at [2^emax]: rounding written with a division, the
    shape and the value of a rounded result, and the operations built on
    it. *)

Section Rounding.
Variables prec emax : Z.
Hypothesis Hprec : 0 < prec.
Hypothesis Hemax : prec < emax.

Lemma fexp_ge_emin k : emin prec emax <= fexp prec emax k.
Proof. unfold fexp. lia. Qed.

Lemma rne_div_le_pow (m : positive) (e : Z) :
  let e1 := Z.max e (fexp prec emax (Zpos (digits2_pos m) + e)) in
  0 <= rne_div (Zpos m) (e1 - e) <= 2 ^ prec.
Proof.
  intros e1.
  pose proof (digits2_pos_bounds m) as [_ Bhi].
  set (d := Zpos (digits2_pos m)) in *.
  assert (0 <= e1 - e) as Hn by (unfold e1; lia).
  assert (d - prec <= e1 - e) as Hn' by (unfold e1, fexp; lia).
  pose proof (rne_div_bounds (Zpos m) (e1 - e) ltac:(lia) Hn) as [Rlo Rhi].
  assert (0 < 2 ^ (e1 - e)) as Hp by (apply Z.pow_pos_nonneg; lia).
  assert (0 <= Zpos m / 2 ^ (e1 - e)) by (apply Z.div_pos; lia).
  split; [lia |].
  destruct (Z.eq_dec (e1 - e) 0) as [E0 | E0].
  - rewrite E0, rne_div_0.
    assert (2 ^ d <= 2 ^ prec) by (apply Z.pow_le_mono_r; lia). lia.
  - assert (Zpos m / 2 ^ (e1 - e) < 2 ^ prec); [| lia].
    apply Z.div_lt_upper_bound; [lia |].
    rewrite <- Z.pow_add_r by lia.
    assert (2 ^ d <= 2 ^ (e1 - e + prec)) by (apply Z.pow_le_mono_r; lia). lia.
Qed.

Lemma binary_round_aux_exact s m e :
  binary_round_aux prec emax s (Zpos m) e loc_Exact = round_exact prec emax s m e.
Proof.
  unfold binary_round_aux, round_exact, shr_fexp.
  cbn [shr_record_of_loc Zdigits2].
  set (d := Zpos (digits2_pos m)).
  set (n := fexp prec emax (d + e) - e).
  pose proof (shr_exact_round (Zpos m) e n ltac:(lia)) as H1. cbv zeta in H1.
  destruct (shr (Build_shr_record (Zpos m) false false) e n) as [mrs1 e1'].
  cbn [fst snd] in H1. destruct H1 as [Hq [_ He1]].
  rewrite Hq. clear Hq.
  replace (Z.max e (fexp prec emax (d + e)) - e) with (Z.max 0 n) by (unfold n; lia).
  replace (Z.max e (fexp prec emax (d + e))) with e1' by (unfold n in He1; lia).
  pose proof (rne_div_le_pow m e) as Hb. cbv zeta in Hb. fold d in Hb.
  replace (Z.max e (fexp prec emax (d + e)) - e) with (Z.max 0 n) in Hb by (unfold n; lia).
  set (q := rne_div (Zpos m) (Z.max 0 n)) in *.
  assert (emin prec emax <= e1') as Hemin.
  { pose proof (fexp_ge_emin (d + e)). unfold n in He1. lia. }
  set (n2 := fexp prec emax (Zdigits2 q + e1') - e1').
  pose proof (shr_exact_round q e1' n2 ltac:(lia)) as H2. cbv zeta in H2.
  destruct (shr (Build_shr_record q false false) e1' n2) as [mrs2 e2].
  cbn [fst snd] in H2. destruct H2 as [_ [Hm2 He2]].
  rewrite Hm2. clear Hm2.
  destruct (q =? 0) eqn:Eq0.
  - apply Z.eqb_eq in Eq0. rewrite Eq0. rewrite Z.div_0_l; [reflexivity |].
    apply Z.pow_nonzero; lia.
  - apply Z.eqb_neq in Eq0.
    destruct (q =? 2 ^ prec) eqn:Eqp.
    + apply Z.eqb_eq in Eqp.
      assert (n2 = 1) as Hn2.
      { unfold n2. rewrite Eqp, Zdigits2_pow2 by lia. unfold fexp. lia. }
      rewrite Hn2 in *. change (Z.max 0 1) with 1 in *. change (2 ^ 1) with 2.
      rewrite Eqp. replace prec with (Z.succ (prec - 1)) at 1 by lia.
      rewrite Z.pow_succ_r by lia. rewrite Z.mul_comm, Z.div_mul by lia.
      assert (0 < 2 ^ (prec - 1)) as Hp by (apply Z.pow_pos_nonneg; lia).
      unfold finite_or_inf. rewrite He2.
      destruct (2 ^ (prec - 1)) as [| p | p] eqn:E; try lia. reflexivity.
    + apply Z.eqb_neq in Eqp.
      assert (Z.max 0 n2 = 0) as Hn2.
      { pose proof (Zdigits2_le q prec ltac:(lia) ltac:(lia)).
        unfold n2, fexp. lia. }
      rewrite Hn2 in *. change (2 ^ 0) with 1. rewrite Z.div_1_r.
      unfold finite_or_inf. rewrite He2, Z.add_0_r.
      destruct q as [| p | p]; try lia. reflexivity.
Qed.

Lemma canonical_iff m e :
  canonical_mantissa prec emax m e = true <->
  fexp prec emax (Zpos (digits2_pos m) + e) = e.
Proof. unfold canonical_mantissa. apply Z.eqb_eq. Qed.

(** The outcome of rounding an aligned number [m * 2^e]: zero, or
    [q * 2^e1] for the quotient [q] rounded at the format's exponent
    [e1], written canonically, or an infinity when that overflows. *)
Lemma round_exact_cases s m e :
  aligned prec emax m e ->
  let e1 := fexp prec emax (Zpos (digits2_pos m) + e) in
  let q := rne_div (Zpos m) (e1 - e) in
  (q = 0 /\ round_exact prec emax s m e = S754_zero s) \/
  (exists m' e',
     Zpos m' * 2 ^ (e' - e1) = q /\ e1 <= e' <= e1 + 1 /\
     canonical_mantissa prec emax m' e' = true /\
     round_exact prec emax s m e =
       if e' <=? emax - prec then S754_finite s m' e' else S754_infinity s).
Proof.
  intros Hal e1 q. unfold aligned in Hal. fold e1 in Hal.
  unfold round_exact.
  replace (Z.max e (fexp prec emax (Zpos (digits2_pos m) + e))) with e1 by (unfold e1; lia).
  fold q.
  pose proof (rne_div_le_pow m e) as Hb. cbv zeta in Hb.
  replace (Z.max e (fexp prec emax (Zpos (digits2_pos m) + e))) with e1 in Hb by (unfold e1; lia).
  fold q in Hb.
  pose proof (digits2_pos_bounds m) as [Blo Bhi].
  set (d := Zpos (digits2_pos m)) in *.
  assert (0 < 2 ^ (e1 - e)) as Hp by (apply Z.pow_pos_nonneg; lia).
  pose proof (rne_div_bounds (Zpos m) (e1 - e) ltac:(lia) ltac:(lia)) as [Rlo _].
  fold q in Rlo.
  destruct (q =? 0) eqn:Eq0; [left; apply Z.eqb_eq in Eq0; auto |].
  apply Z.eqb_neq in Eq0. right.
  assert (emin prec emax <= e1) as Hemin by apply fexp_ge_emin.
  destruct (q =? 2 ^ prec) eqn:Eqp.
  - apply Z.eqb_eq in Eqp.
    assert (0 < 2 ^ (prec - 1)) as Hp1 by (apply Z.pow_pos_nonneg; lia).
    pose proof (pow2_double prec Hprec) as Hpp.
    exists (Z.to_pos (2 ^ (prec - 1))), (e1 + 1).
    rewrite Z2Pos.id by lia.
    replace (e1 + 1 - e1) with 1 by lia. change (2 ^ 1) with 2.
    split; [lia | split; [lia | split; [| reflexivity]]].
    apply canonical_iff.
    assert (Zpos (digits2_pos (Z.to_pos (2 ^ (prec - 1)))) = prec) as ->.
    { apply digits2_pos_unique. rewrite Z2Pos.id by lia. lia. }
    unfold fexp. lia.
  - apply Z.eqb_neq in Eqp.
    exists (Z.to_pos q), e1.
    rewrite Z2Pos.id by lia. rewrite Z.sub_diag. change (2 ^ 0) with 1.
    split; [lia | split; [lia | split; [| reflexivity]]].
    apply canonical_iff.
    pose proof (Zdigits2_le q prec ltac:(lia) ltac:(lia)) as Hd.
    destruct q as [| pq | pq] eqn:Eq; try lia. cbn [Zdigits2] in Hd.
    rewrite Pos2Z.id.
    destruct (Z.eq_dec e1 (emin prec emax)) as [Ee | Ee].
    + unfold fexp. lia.
    + (* normal range: the quotient keeps all [prec] digits *)
      assert (e1 = d + e - prec) as He1 by (unfold e1, fexp in *; lia).
      assert (Zpos (digits2_pos pq) = prec) as Hdq.
      { apply digits2_pos_unique. split; [| lia].
        apply Z.le_trans with (Zpos m / 2 ^ (e1 - e)); [| lia].
        apply Z.div_le_lower_bound; [lia |].
        rewrite <- Z.pow_add_r by lia.
        replace (e1 - e + (prec - 1)) with (d - 1) by lia. lia. }
      rewrite Hdq. unfold fexp. lia.
Qed.

Lemma canonical_emin m e :
  canonical_mantissa prec emax m e = true -> emin prec emax <= e.
Proof.
  intros H. apply canonical_iff in H. rewrite <- H. apply fexp_ge_emin.
Qed.

Lemma canonical_digits m e :
  canonical_mantissa prec emax m e = true ->
  Zpos (digits2_pos m) <= prec /\ (emin prec emax < e -> Zpos (digits2_pos m) = prec).
Proof.
  intros H. apply canonical_iff in H. unfold SpecFloat.fexp in H. lia.
Qed.

Lemma canonical_bounds m e :
  canonical_mantissa prec emax m e = true ->
  Zpos m < 2 ^ prec /\ (emin prec emax < e -> 2 ^ (prec - 1) <= Zpos m).
Proof.
  intros H. apply canonical_digits in H. destruct H as [Hd Hn].
  pose proof (digits2_pos_bounds m) as [Blo Bhi].
  split.
  - assert (2 ^ Zpos (digits2_pos m) <= 2 ^ prec) by (apply pow2_le; lia). lia.
  - intros He. rewrite (Hn He) in Blo. exact Blo.
Qed.

Lemma binary_round_spec s m e :
  emin prec emax <= e ->
  let V := Zpos m * 2 ^ (e - emin prec emax) in
  let r := binary_round prec emax s m e in
  valid_binary prec emax r = true /\
  ((exists m' e', r = S754_finite s m' e' /\
      2 ^ prec * Z.abs (Zpos m' * 2 ^ (e' - emin prec emax) - V) <= V /\
      (fexp prec emax (Zpos (digits2_pos m) + e) <= e ->
       Zpos m' * 2 ^ (e' - emin prec emax) = V)) \/
   (r = S754_infinity s /\ overflow_threshold prec emax <= V)).
Proof.
  intros He V r. unfold r, binary_round.
  pose proof (shl_align_spec m e (fexp prec emax (Zpos (digits2_pos m) + e))) as [Hez Hmz].
  destruct (shl_align m e (fexp prec emax (Zpos (digits2_pos m) + e))) as [mz ez].
  cbn [fst snd] in Hez, Hmz.
  rewrite binary_round_aux_exact by assumption.
  set (f := fexp prec emax (Zpos (digits2_pos m) + e)) in *.
  assert (emin prec emax <= f) as Hf by apply fexp_ge_emin.
  assert (emin prec emax <= ez <= e) as Hez' by lia.
  rewrite <- Hez in Hmz.
  assert (Zpos (digits2_pos mz) = Zpos (digits2_pos m) + (e - ez)) as Hdz
    by (apply digits2_shift; [lia | assumption]).
  assert (fexp prec emax (Zpos (digits2_pos mz) + ez) = f) as Hfz.
  { unfold f. f_equal. lia. }
  assert (aligned prec emax mz ez) as Hal by (unfold aligned; lia).
  pose proof (digits2_pos_bounds mz) as [Blo Bhi].
  set (dz := Zpos (digits2_pos mz)) in *.
  assert (V = Zpos mz * 2 ^ (ez - emin prec emax)) as HV.
  { unfold V. rewrite Hmz.
    replace (e - emin prec emax) with ((e - ez) + (ez - emin prec emax)) by lia.
    rewrite pow2_split by lia. ring. }
  assert (0 < 2 ^ (ez - emin prec emax)) as HA by (apply pow2_pos; lia).
  set (A := 2 ^ (ez - emin prec emax)) in *.
  pose proof (round_exact_cases s mz ez Hal) as Hc.
  cbv zeta in Hc. fold dz in Hc. rewrite Hfz in Hc.
  set (n := f - ez) in *. assert (0 <= n) as Hn by (unfold n; lia).
  assert (0 < 2 ^ n) as HN by (apply pow2_pos; lia).
  set (q := rne_div (Zpos mz) n) in *.
  (* the error of the quotient, relative to the mantissa *)
  assert (2 ^ prec * Z.abs (q * 2 ^ n - Zpos mz) <= Zpos mz /\ (n = 0 -> q = Zpos mz) /\
          (1 <= n -> 2 * Z.abs (q * 2 ^ n - Zpos mz) <= 2 ^ n) /\ 0 < q) as [Herr [Hn0 [Hn1 Hq]]].
  { destruct (Z.eq_dec n 0) as [E0 | E0].
    - assert (q = Zpos mz) as -> by (unfold q; rewrite E0; apply rne_div_0).
      rewrite E0. change (2 ^ 0) with 1. rewrite Z.mul_1_r, Z.sub_diag. simpl Z.abs.
      repeat split; lia.
    - pose proof (rne_div_error (Zpos mz) n ltac:(lia) ltac:(lia)) as Her. fold q in Her.
      assert (f = dz + ez - prec) as Hf' by (unfold n in *; unfold f, SpecFloat.fexp in *; lia).
      assert (2 ^ (dz - 1) = 2 ^ (prec - 1) * 2 ^ n) as Hpw.
      { rewrite <- pow2_split by lia. f_equal. unfold n. lia. }
      pose proof (pow2_double prec Hprec) as Hpp.
      assert (0 < 2 ^ (prec - 1)) by (apply pow2_pos; lia).
      split; [| split; [lia | split; [lia |]]].
      + rewrite Hpp. nia.
      + pose proof (rne_div_bounds (Zpos mz) n ltac:(lia) Hn) as [Rlo _]. fold q in Rlo.
        assert (2 ^ (prec - 1) <= Zpos mz / 2 ^ n); [| lia].
        apply Z.div_le_lower_bound; lia. }
  destruct Hc as [[Hq0 _] | [m' [e' [Hm' [He' [Hcan Hr]]]]]]; [lia |].
  rewrite Hr.
  assert (Zpos m' * 2 ^ (e' - emin prec emax) = q * 2 ^ n * A) as HS.
  { replace (e' - emin prec emax) with ((e' - f) + (n + (ez - emin prec emax))) by (unfold n; lia).
    rewrite pow2_split by lia. rewrite pow2_split by lia. fold A. rewrite <- Hm'. ring. }
  destruct (e' <=? emax - prec) eqn:Ele.
  - apply Z.leb_le in Ele. split.
    + cbn [valid_binary]. unfold bounded. rewrite Hcan.
      apply Z.leb_le in Ele. rewrite Ele. reflexivity.
    + left. exists m', e'. split; [reflexivity |].
      rewrite HS, HV. split.
      * replace (q * 2 ^ n * A - Zpos mz * A) with ((q * 2 ^ n - Zpos mz) * A) by ring.
        rewrite Z.abs_mul, (Z.abs_eq A) by lia. nia.
      * intros Hfe. assert (n = 0) as E0 by (unfold n; lia).
        rewrite (Hn0 E0), E0. change (2 ^ 0) with 1. ring.
  - apply Z.leb_gt in Ele. split; [reflexivity |]. right. split; [reflexivity |].
    unfold overflow_threshold. rewrite HV.
    destruct (Z_le_gt_dec (emax - prec + 1) f) as [Hbig | Hsmall].
    + assert (f = dz + ez - prec) as Hf' by (unfold f, SpecFloat.fexp, SpecFloat.emin in *; lia).
      assert (2 ^ (emax - emin prec emax) <= 2 ^ (dz - 1) * A).
      { unfold A. rewrite <- pow2_split by lia. apply pow2_le. unfold SpecFloat.emin in *. lia. }
      assert (0 < 2 ^ (emax - prec - 1 - emin prec emax))
        by (apply pow2_pos; unfold SpecFloat.emin; lia).
      nia.
    + assert (e' = f + 1 /\ f = emax - prec) as [He'f Hfe] by lia.
      rewrite He'f in Hm'. replace (f + 1 - f) with 1 in Hm' by lia. change (2 ^ 1) with 2 in Hm'.
      pose proof (canonical_bounds m' e' Hcan) as [_ Hlo].
      assert (emin prec emax < e') as Hgt by (unfold SpecFloat.emin in *; lia).
      specialize (Hlo Hgt).
      pose proof (pow2_double prec Hprec) as Hpp.
      assert (2 ^ (emax - emin prec emax) = 2 ^ prec * (2 ^ n * A)) as Hmax.
      { unfold A. rewrite <- !pow2_split by lia. f_equal. unfold n. lia. }
      assert (2 * 2 ^ (emax - prec - 1 - emin prec emax) = 2 ^ n * A) as Hhalf.
      { unfold A. rewrite <- Z.pow_succ_r by (unfold SpecFloat.emin; lia).
        rewrite <- pow2_split by lia. f_equal. unfold n. lia. }
      assert (2 ^ prec <= q) as Hqp by lia.
      destruct (Z.eq_dec n 0) as [E0 | E0].
      * specialize (Hn0 E0). rewrite E0 in *. change (2 ^ 0) with 1 in *.
        assert (0 < 2 ^ (emax - prec - 1 - emin prec emax))
          by (apply pow2_pos; unfold SpecFloat.emin; lia).
        nia.
      * specialize (Hn1 ltac:(lia)).
        assert (2 * (2 ^ prec * (2 ^ n * A)) - 2 ^ n * A <= 2 * (Zpos mz * A)); [| lia].
        assert ((2 * 2 ^ prec - 1) * 2 ^ n <= 2 * Zpos mz) by nia.
        nia.
Qed.

Lemma binary_normalize_spec z e :
  emin prec emax <= e ->
  let V := z * 2 ^ (e - emin prec emax) in
  let r := binary_normalize prec emax z e false in
  valid_binary prec emax r = true /\
  is_nan r = false /\
  (is_finite r = true -> 2 ^ prec * Z.abs (scaled_value prec emax r - V) <= Z.abs V) /\
  (is_finite r = true -> fexp prec emax (Zdigits2 z + e) <= e -> scaled_value prec emax r = V) /\
  (Z.abs V < overflow_threshold prec emax -> is_finite r = true).
Proof.
  intros He V r. unfold r, V. clear r V.
  assert (0 < 2 ^ (e - emin prec emax)) as HA by (apply pow2_pos; lia).
  destruct z as [| m | m]; cbn [binary_normalize Zdigits2].
  - simpl. repeat split; auto; lia.
  - destruct (binary_round_spec false m e He)
      as [Hv [[m' [e' [Hr [Herr Hex]]]] | [Hr Hthr]]]; rewrite Hr in *.
    + cbn [is_nan is_finite scaled_value cond_Zopp].
      rewrite Z.abs_eq with (n := Zpos m * _) by lia.
      split; [exact Hv | split; [reflexivity | split; [| split]]]; auto.
    + cbn [is_nan is_finite].
      split; [exact Hv | split; [reflexivity | split; [| split]]]; try discriminate.
      intros Hlt. rewrite Z.abs_eq in Hlt by lia. lia.
  - destruct (binary_round_spec true m e He)
      as [Hv [[m' [e' [Hr [Herr Hex]]]] | [Hr Hthr]]]; rewrite Hr in *.
    + cbn [is_nan is_finite scaled_value cond_Zopp].
      change (Zneg m) with (- Zpos m).
      replace (- Zpos m * 2 ^ (e - emin prec emax))
        with (- (Zpos m * 2 ^ (e - emin prec emax))) by ring.
      split; [exact Hv | split; [reflexivity | split; [| split]]]; auto.
      * intros _.
        replace (- (Zpos m' * 2 ^ (e' - emin prec emax)) - - (Zpos m * 2 ^ (e - emin prec emax)))
          with (- (Zpos m' * 2 ^ (e' - emin prec emax)
                   - Zpos m * 2 ^ (e - emin prec emax))) by ring.
        rewrite !Z.abs_opp. rewrite Z.abs_eq with (n := Zpos m * _) by lia. exact Herr.
      * intros _ Hfe. rewrite (Hex Hfe). ring.
    + cbn [is_nan is_finite].
      split; [exact Hv | split; [reflexivity | split; [| split]]]; try discriminate.
      intros Hlt. change (Zneg m) with (- Zpos m) in Hlt.
      replace (- Zpos m * 2 ^ (e - emin prec emax))
        with (- (Zpos m * 2 ^ (e - emin prec emax))) in Hlt by ring.
      rewrite Z.abs_opp, Z.abs_eq in Hlt by lia. lia.
Qed.

Lemma valid_finite_emin s m e :
  valid_binary prec emax (S754_finite s m e) = true -> emin prec emax <= e.
Proof.
  cbn [valid_binary]. unfold bounded. intros H. apply andb_prop in H.
  destruct H as [H _]. eapply canonical_emin; eassumption.
Qed.

Lemma shl_align_scaled m e ez :
  emin prec emax <= ez <= e ->
  Zpos (fst (shl_align m e ez)) * 2 ^ (ez - emin prec emax) = Zpos m * 2 ^ (e - emin prec emax).
Proof.
  intros H. destruct (shl_align_spec m e ez) as [_ ->].
  replace (Z.min e ez) with ez by lia.
  replace (e - emin prec emax) with ((e - ez) + (ez - emin prec emax)) by lia.
  rewrite pow2_split by lia. ring.
Qed.

Lemma rounds_to_exact r :
  valid_binary prec emax r = true -> is_finite r = true ->
  rounds_to prec emax r (scaled_value prec emax r).
Proof.
  intros Hv Hf. unfold rounds_to. repeat split; auto.
  - destruct r; simpl in *; auto; discriminate.
  - intros _. rewrite Z.sub_diag. simpl. rewrite Z.mul_0_r. apply Z.abs_nonneg.
Qed.

Lemma SFadd_spec x y :
  valid_binary prec emax x = true -> valid_binary prec emax y = true ->
  is_finite x = true -> is_finite y = true ->
  rounds_to prec emax (SFadd prec emax x y) (scaled_value prec emax x + scaled_value prec emax y).
Proof.
  intros Vx Vy Fx Fy.
  destruct x as [sx | sx | | sx mx ex]; try discriminate Fx;
  destruct y as [sy | sy | | sy my ey]; try discriminate Fy.
  - replace (SFadd prec emax (S754_zero sx) (S754_zero sy))
      with (S754_zero (if Bool.eqb sx sy then sx else false))
      by (destruct sx, sy; reflexivity).
    apply (rounds_to_exact (S754_zero _)); reflexivity.
  - cbn [SFadd]. change (scaled_value prec emax (S754_zero sx)) with 0.
    rewrite Z.add_0_l. apply rounds_to_exact; assumption.
  - cbn [SFadd]. change (scaled_value prec emax (S754_zero sy)) with 0.
    rewrite Z.add_0_r. apply rounds_to_exact; assumption.
  - cbn [SFadd]. pose proof (valid_finite_emin _ _ _ Vx). pose proof (valid_finite_emin _ _ _ Vy).
    set (ez := Z.min ex ey).
    pose proof (binary_normalize_spec
      (cond_Zopp sx (Zpos (fst (shl_align mx ex ez))) +
       cond_Zopp sy (Zpos (fst (shl_align my ey ez)))) ez ltac:(lia)) as Hn.
    cbv zeta in Hn.
    rewrite Z.mul_add_distr_r, !cond_Zopp_mul in Hn.
    rewrite !shl_align_scaled in Hn by lia.
    destruct Hn as [H1 [H2 [H3 [_ H5]]]]. unfold rounds_to. cbn [scaled_value]. auto.
Qed.

Lemma SFsub_spec x y :
  valid_binary prec emax x = true -> valid_binary prec emax y = true ->
  is_finite x = true -> is_finite y = true ->
  rounds_to prec emax (SFsub prec emax x y) (scaled_value prec emax x - scaled_value prec emax y).
Proof.
  intros Vx Vy Fx Fy.
  destruct x as [sx | sx | | sx mx ex]; try discriminate Fx;
  destruct y as [sy | sy | | sy my ey]; try discriminate Fy.
  - replace (SFsub prec emax (S754_zero sx) (S754_zero sy))
      with (S754_zero (if Bool.eqb sx (negb sy) then sx else false))
      by (destruct sx, sy; reflexivity).
    apply (rounds_to_exact (S754_zero _)); reflexivity.
  - cbn [SFsub]. change (scaled_value prec emax (S754_zero sx)) with 0.
    replace (0 - scaled_value prec emax (S754_finite sy my ey))
      with (scaled_value prec emax (S754_finite (negb sy) my ey))
      by (destruct sy; cbn [scaled_value cond_Zopp negb]; ring).
    apply rounds_to_exact; [exact Vy | reflexivity].
  - cbn [SFsub]. change (scaled_value prec emax (S754_zero sy)) with 0.
    rewrite Z.sub_0_r. apply rounds_to_exact; assumption.
  - cbn [SFsub]. pose proof (valid_finite_emin _ _ _ Vx). pose proof (valid_finite_emin _ _ _ Vy).
    set (ez := Z.min ex ey).
    pose proof (binary_normalize_spec
      (cond_Zopp sx (Zpos (fst (shl_align mx ex ez))) -
       cond_Zopp sy (Zpos (fst (shl_align my ey ez)))) ez ltac:(lia)) as Hn.
    cbv zeta in Hn.
    rewrite Z.mul_sub_distr_r, !cond_Zopp_mul in Hn.
    rewrite !shl_align_scaled in Hn by lia.
    destruct Hn as [H1 [H2 [H3 [_ H5]]]]. unfold rounds_to. cbn [scaled_value]. auto.
Qed.

Lemma magnitude_compare m1 e1 m2 e2 :
  canonical_mantissa prec emax m1 e1 = true ->
  canonical_mantissa prec emax m2 e2 = true ->
  match e1 ?= e2 with
  | Lt => Lt
  | Gt => Gt
  | Eq => Pos.compare_cont Eq m1 m2
  end = (Zpos m1 * 2 ^ (e1 - emin prec emax) ?= Zpos m2 * 2 ^ (e2 - emin prec emax)).
Proof.
  intros C1 C2.
  pose proof (canonical_emin _ _ C1) as E1.
  pose proof (canonical_emin _ _ C2) as E2.
  pose proof (canonical_bounds _ _ C1) as [U1 L1].
  pose proof (canonical_bounds _ _ C2) as [U2 L2].
  pose proof (pow2_double prec Hprec) as Hpp.
  assert (0 < 2 ^ (prec - 1)) by (apply pow2_pos; lia).
  symmetry. destruct (Z.compare_spec e1 e2) as [E | E | E].
  - subst e2. assert (0 < 2 ^ (e1 - emin prec emax)) by (apply pow2_pos; lia).
    rewrite <- Zmult_compare_compat_r by lia. reflexivity.
  - apply Z.compare_lt_iff. specialize (L2 ltac:(lia)).
    replace (e2 - emin prec emax) with ((e2 - e1 - 1) + 1 + (e1 - emin prec emax)) by lia.
    rewrite !pow2_split by lia. change (2 ^ 1) with 2.
    assert (0 < 2 ^ (e2 - e1 - 1)) by (apply pow2_pos; lia).
    assert (0 < 2 ^ (e1 - emin prec emax)) by (apply pow2_pos; lia).
    set (B := 2 ^ (e1 - emin prec emax)) in *. set (X := 2 ^ (e2 - e1 - 1)) in *.
    set (Q := 2 ^ (prec - 1)) in *. clearbody B X Q.
    assert (Zpos m1 * B < 2 * Q * B) by nia.
    assert (2 * Q * B <= 2 * Zpos m2 * B) by nia.
    assert (2 * Zpos m2 * B <= Zpos m2 * (X * 2 * B)) by nia.
    lia.
  - apply Z.compare_gt_iff. specialize (L1 ltac:(lia)).
    replace (e1 - emin prec emax) with ((e1 - e2 - 1) + 1 + (e2 - emin prec emax)) by lia.
    rewrite !pow2_split by lia. change (2 ^ 1) with 2.
    assert (0 < 2 ^ (e1 - e2 - 1)) by (apply pow2_pos; lia).
    assert (0 < 2 ^ (e2 - emin prec emax)) by (apply pow2_pos; lia).
    set (B := 2 ^ (e2 - emin prec emax)) in *. set (X := 2 ^ (e1 - e2 - 1)) in *.
    set (Q := 2 ^ (prec - 1)) in *. clearbody B X Q.
    assert (Zpos m2 * B < 2 * Q * B) by nia.
    assert (2 * Q * B <= 2 * Zpos m1 * B) by nia.
    assert (2 * Zpos m1 * B <= Zpos m1 * (X * 2 * B)) by nia.
    lia.
Qed.

Lemma valid_canonical s m e :
  valid_binary prec emax (S754_finite s m e) = true ->
  canonical_mantissa prec emax m e = true.
Proof.
  cbn [valid_binary]. unfold bounded. intros H. apply andb_prop in H. tauto.
Qed.

(** Comparison of valid finite floats is comparison of their values. *)
Lemma SFcompare_scaled x y :
  valid_binary prec emax x = true -> valid_binary prec emax y = true ->
  is_finite x = true -> is_finite y = true ->
  SFcompare x y = Some (scaled_value prec emax x ?= scaled_value prec emax y).
Proof.
  intros Vx Vy Fx Fy.
  destruct x as [sx | sx | | sx mx ex]; try discriminate Fx;
  destruct y as [sy | sy | | sy my ey]; try discriminate Fy;
  cbn [SFcompare scaled_value].
  - reflexivity.
  - pose proof (valid_finite_emin _ _ _ Vy).
    assert (0 < Zpos my * 2 ^ (ey - emin prec emax))
      by (apply Z.mul_pos_pos; [lia | apply pow2_pos; lia]).
    f_equal. symmetry. destruct sy; cbn [cond_Zopp].
    + apply Z.compare_gt_iff. lia.
    + apply Z.compare_lt_iff. lia.
  - pose proof (valid_finite_emin _ _ _ Vx).
    assert (0 < Zpos mx * 2 ^ (ex - emin prec emax))
      by (apply Z.mul_pos_pos; [lia | apply pow2_pos; lia]).
    f_equal. symmetry. destruct sx; cbn [cond_Zopp].
    + apply Z.compare_lt_iff. lia.
    + apply Z.compare_gt_iff. lia.
  - pose proof (valid_finite_emin _ _ _ Vx).
    pose proof (valid_finite_emin _ _ _ Vy).
    assert (0 < Zpos mx * 2 ^ (ex - emin prec emax))
      by (apply Z.mul_pos_pos; [lia | apply pow2_pos; lia]).
    assert (0 < Zpos my * 2 ^ (ey - emin prec emax))
      by (apply Z.mul_pos_pos; [lia | apply pow2_pos; lia]).
    pose proof (magnitude_compare mx ex my ey (valid_canonical _ _ _ Vx)
                  (valid_canonical _ _ _ Vy)) as Hm.
    f_equal. destruct sx, sy; cbn [cond_Zopp].
    + rewrite Z.compare_opp.
      rewrite (Z.compare_antisym (Zpos mx * 2 ^ (ex - emin prec emax))), <- Hm.
      destruct (ex ?= ey); reflexivity.
    + symmetry. apply Z.compare_lt_iff. lia.
    + symmetry. apply Z.compare_gt_iff. lia.
    + exact Hm.
Qed.

(** Truncation is division of the value, toward zero. *)
Lemma trunc_scaled x :
  valid_binary prec emax x = true ->
  trunc x = Z.quot (scaled_value prec emax x) (2 ^ (- emin prec emax)).
Proof.
  intros Vx. destruct x as [sx | sx | | s m e]; try reflexivity.
  pose proof (valid_finite_emin _ _ _ Vx) as He.
  assert (emin prec emax <= 0) as Hneg by (unfold emin; lia).
  assert (0 < 2 ^ (- emin prec emax)) as HU by (apply pow2_pos; lia).
  cbn [trunc scaled_value].
  assert (Z.shiftl (Zpos m) e =
          Z.quot (Zpos m * 2 ^ (e - emin prec emax)) (2 ^ (- emin prec emax))) as Hmag.
  { assert (0 <= Zpos m * 2 ^ (e - emin prec emax))
      by (apply Z.mul_nonneg_nonneg; [lia | apply Z.lt_le_incl, pow2_pos; lia]).
    rewrite Z.quot_div_nonneg by lia.
    destruct (Z_le_gt_dec 0 e) as [Hpos | Hlt].
    - rewrite Z.shiftl_mul_pow2 by lia.
      replace (e - emin prec emax) with (e + - emin prec emax) by lia.
      rewrite pow2_split by lia. rewrite Z.mul_assoc, Z.div_mul by lia. reflexivity.
    - rewrite Z.shiftl_div_pow2 by lia.
      replace (- emin prec emax) with (- e + (e - emin prec emax)) by lia.
      rewrite pow2_split by lia.
      rewrite Z.div_mul_cancel_r; [reflexivity | |];
        apply Z.neq_sym, Z.lt_neq, pow2_pos; lia. }
  destruct s; cbn [cond_Zopp].
  - rewrite Z.quot_opp_l by lia. f_equal. exact Hmag.
  - exact Hmag.
Qed.

(** Whatever is rounded, the mantissa of the result fits the format. *)
Lemma round_exact_fits s m e : mantissa_fits prec (round_exact prec emax s m e).
Proof.
  unfold round_exact.
  pose proof (rne_div_le_pow m e) as Hb. cbv zeta in Hb.
  set (q := rne_div _ _) in *.
  assert (0 < 2 ^ (prec - 1)) as Hp1 by (apply pow2_pos; lia).
  pose proof (pow2_double prec Hprec) as Hpp.
  destruct (q =? 0) eqn:E0; [exact I |]. apply Z.eqb_neq in E0.
  destruct (q =? 2 ^ prec) eqn:Ep; unfold finite_or_inf.
  - destruct (_ <=? _); [| exact I]. cbn [mantissa_fits]. rewrite Z2Pos.id; lia.
  - apply Z.eqb_neq in Ep.
    destruct (_ <=? _); [| exact I]. cbn [mantissa_fits]. rewrite Z2Pos.id; lia.
Qed.

Lemma binary_round_fits s m e : mantissa_fits prec (binary_round prec emax s m e).
Proof.
  unfold binary_round. destruct (shl_align _ _ _) as [mz ez].
  rewrite binary_round_aux_exact. apply round_exact_fits.
Qed.

Lemma binary_normalize_fits z e sz :
  mantissa_fits prec (binary_normalize prec emax z e sz).
Proof.
  destruct z; cbn [binary_normalize]; [exact I | |]; apply binary_round_fits.
Qed.

Lemma SFmul_fits x y : mantissa_fits prec (SFmul prec emax x y).
Proof.
  destruct x, y; cbn [SFmul]; try exact I.
  rewrite binary_round_aux_exact. apply round_exact_fits.
Qed.

Lemma SFadd_fits x y :
  mantissa_fits prec x -> mantissa_fits prec y ->
  mantissa_fits prec (SFadd prec emax x y).
Proof.
  intros Hx Hy.
  destruct x as [sx | sx | | sx mx ex], y as [sy | sy | | sy my ey];
    cbn [SFadd]; try exact I; try assumption;
    try (destruct sx, sy; exact I).
  apply binary_normalize_fits.
Qed.

(** Rounding never makes a NaN. *)
Lemma round_exact_not_nan s m e : is_nan (round_exact prec emax s m e) = false.
Proof.
  unfold round_exact, finite_or_inf.
  repeat match goal with |- context [if ?b then _ else _] => destruct b end;
    reflexivity.
Qed.

Lemma binary_normalize_not_nan z e sz :
  is_nan (binary_normalize prec emax z e sz) = false.
Proof.
  destruct z; cbn [binary_normalize]; [reflexivity | |];
    unfold binary_round; destruct (shl_align _ _ _) as [mz ez];
    rewrite binary_round_aux_exact; apply round_exact_not_nan.
Qed.

(** A sum is NaN only if a term is, or if the terms are opposite
    infinities. *)
Lemma SFadd_not_nan x y :
  is_nan x = false -> is_finite y = true ->
  is_nan (SFadd prec emax x y) = false.
Proof.
  intros Hx Hy.
  destruct x as [sx | sx | | sx mx ex]; try discriminate Hx;
  destruct y as [sy | sy | | sy my ey]; try discriminate Hy;
    cbn [SFadd]; try reflexivity;
    try (destruct sx, sy; reflexivity).
  apply binary_normalize_not_nan.
Qed.

(** Multiplication of valid finite floats: the result is valid, stays
    within a factor two (and one unit) of the exact product, and is finite
    when the product is below [2^(emax-1)].  [P] is in units of
    [2^(2*emin)]. *)
Lemma digits2_mul_ge mx my :
  Zpos (digits2_pos mx) + Zpos (digits2_pos my) - 1
    <= Zpos (digits2_pos (mx * my)).
Proof.
  pose proof (digits2_pos_bounds mx) as [Lx _].
  pose proof (digits2_pos_bounds my) as [Ly _].
  pose proof (digits2_pos_bounds (mx * my)) as [_ U].
  set (dx := Zpos (digits2_pos mx)) in *. set (dy := Zpos (digits2_pos my)) in *.
  set (d := Zpos (digits2_pos (mx * my))) in *.
  assert (0 < dx) by (unfold dx; lia). assert (0 < dy) by (unfold dy; lia).
  assert (2 ^ (dx - 1 + (dy - 1)) < 2 ^ d) as Hlt.
  { rewrite pow2_split by lia. rewrite Pos2Z.inj_mul in U.
    assert (0 < 2 ^ (dx - 1)) by (apply pow2_pos; lia).
    assert (0 < 2 ^ (dy - 1)) by (apply pow2_pos; lia). nia. }
  apply Z.pow_lt_mono_r_iff in Hlt; unfold d; lia.
Qed.

Lemma SFmul_aligned sx mx ex sy my ey :
  valid_binary prec emax (S754_finite sx mx ex) = true ->
  valid_binary prec emax (S754_finite sy my ey) = true ->
  aligned prec emax (mx * my) (ex + ey).
Proof.
  intros Vx Vy.
  pose proof (canonical_digits _ _ (valid_canonical _ _ _ Vx)) as [Dx Nx].
  pose proof (canonical_digits _ _ (valid_canonical _ _ _ Vy)) as [Dy Ny].
  pose proof (valid_finite_emin _ _ _ Vx) as Ex.
  pose proof (valid_finite_emin _ _ _ Vy) as Ey.
  pose proof (digits2_mul_ge mx my) as Hd.
  assert (emin prec emax <= 0) as Hneg by (unfold emin; lia).
  unfold aligned, fexp.
  destruct (Z.eq_dec ex (emin prec emax)) as [Hx | Hx];
  destruct (Z.eq_dec ey (emin prec emax)) as [Hy | Hy].
  - lia.
  - specialize (Ny ltac:(lia)). lia.
  - specialize (Nx ltac:(lia)). lia.
  - specialize (Nx ltac:(lia)). specialize (Ny ltac:(lia)). lia.
Qed.

Lemma SFmul_spec x y :
  valid_binary prec emax x = true -> valid_binary prec emax y = true ->
  is_finite x = true -> is_finite y = true ->
  let P := scaled_value prec emax x * scaled_value prec emax y in
  let r := SFmul prec emax x y in
  valid_binary prec emax r = true /\
  is_nan r = false /\
  (is_finite r = true ->
   Z.abs (scaled_value prec emax r) * 2 ^ (- emin prec emax)
     <= 2 * Z.abs P + 2 ^ (- emin prec emax)) /\
  (Z.abs P < 2 ^ (emax - 1 - 2 * emin prec emax) -> is_finite r = true).
Proof.
  intros Vx Vy Fx Fy.
  assert (emin prec emax <= 0) as Hneg by (unfold emin; lia).
  assert (0 < 2 ^ (- emin prec emax)) as HU by (apply pow2_pos; lia).
  destruct x as [sx | sx | | sx mx ex]; try discriminate Fx;
  destruct y as [sy | sy | | sy my ey]; try discriminate Fy;
    cbn [SFmul]; cbv zeta;
    try (cbn [scaled_value is_finite is_nan valid_binary];
         rewrite ?Z.mul_0_l, ?Z.mul_0_r; simpl Z.abs;
         repeat split; auto; lia).
  pose proof (valid_finite_emin _ _ _ Vx) as Ex.
  pose proof (valid_finite_emin _ _ _ Vy) as Ey.
  pose proof (SFmul_aligned sx mx ex sy my ey Vx Vy) as Hal.
  rewrite binary_round_aux_exact.
  set (m := (mx * my)%positive) in *. set (e := ex + ey) in *.
  set (s := xorb sx sy).
  (* the exact product *)
  set (W := 2 ^ (e - 2 * emin prec emax)).
  assert (0 < W) as HW by (apply pow2_pos; unfold e; lia).
  assert (Z.abs (scaled_value prec emax (S754_finite sx mx ex) *
                 scaled_value prec emax (S754_finite sy my ey)) = Zpos m * W) as HP.
  { cbn [scaled_value]. rewrite Z.abs_mul.
    assert (forall b v, 0 <= v -> Z.abs (cond_Zopp b v) = v) as Hc
      by (intros [|] v Hv; cbn [cond_Zopp]; lia).
    rewrite !Hc by (apply Z.mul_nonneg_nonneg; [lia | apply Z.pow_nonneg; lia]).
    unfold W, m, e. rewrite Pos2Z.inj_mul.
    replace (ex + ey - 2 * emin prec emax)
      with ((ex - emin prec emax) + (ey - emin prec emax)) by lia.
    rewrite pow2_split by lia. ring. }
  rewrite HP. clear HP.
  pose proof (round_exact_cases s m e Hal) as Hc. cbv zeta in Hc.
  pose proof (digits2_pos_bounds m) as [Blo Bhi].
  set (d := Zpos (digits2_pos m)) in *.
  set (e1 := fexp prec emax (d + e)) in *.
  assert (e <= e1) as He1 by exact Hal.
  set (n := e1 - e) in *.
  assert (0 < 2 ^ n) as HN by (apply pow2_pos; unfold n; lia).
  pose proof (rne_div_bounds (Zpos m) n ltac:(lia) ltac:(unfold n; lia)) as [_ Rhi].
  set (q := rne_div (Zpos m) n) in *.
  assert (q * 2 ^ n <= Zpos m + 2 ^ n) as Hq.
  { pose proof (Z.div_mod (Zpos m) (2 ^ n) ltac:(lia)).
    pose proof (Z.mod_pos_bound (Zpos m) (2 ^ n) HN). nia. }
  (* one unit in the last place is no more than the product, or the
     smallest subnormal *)
  assert (2 ^ n * W <= Zpos m * W + 2 ^ (- emin prec emax)) as Hulp.
  { unfold W, n. rewrite <- pow2_split by (unfold e in *; lia).
    replace (e1 - e + (e - 2 * emin prec emax)) with (e1 - 2 * emin prec emax) by lia.
    destruct (Z.eq_dec e1 (emin prec emax)) as [E | E].
    - rewrite E. replace (emin prec emax - 2 * emin prec emax) with (- emin prec emax) by lia.
      assert (0 < Zpos m * 2 ^ (e - 2 * emin prec emax)) by (apply Z.mul_pos_pos; lia).
      lia.
    - assert (e1 = d + e - prec) as E1 by (unfold e1, fexp in *; lia).
      assert (2 ^ (e1 - 2 * emin prec emax)
                <= 2 ^ (d - 1 + (e - 2 * emin prec emax))) as Hle
        by (apply pow2_le; unfold e in *; lia).
      assert (2 ^ (d - 1 + (e - 2 * emin prec emax))
                = 2 ^ (d - 1) * 2 ^ (e - 2 * emin prec emax)) as Hsp
        by (apply pow2_split; unfold e in *; lia).
      assert (2 ^ (d - 1) * 2 ^ (e - 2 * emin prec emax)
                <= Zpos m * 2 ^ (e - 2 * emin prec emax))
        by (apply Z.mul_le_mono_nonneg_r; lia).
      lia. }
  destruct Hc as [[Hq0 ->] | [m' [e' [Hm' [He' [Hcan ->]]]]]].
  - cbn [valid_binary is_nan is_finite scaled_value]. simpl Z.abs.
    repeat split; auto. intros _. nia.
  - fold q in Hm'.
    assert (Zpos m' * 2 ^ (e' - emin prec emax) * 2 ^ (- emin prec emax)
              = q * 2 ^ n * W) as HS.
    { rewrite <- Hm'. unfold W, n.
      rewrite <- !Z.mul_assoc. f_equal.
      rewrite <- !pow2_split by (unfold e, e1, fexp in *; lia).
      f_equal. lia. }
    destruct (e' <=? emax - prec) eqn:Ele.
    + cbn [valid_binary is_nan is_finite scaled_value]. unfold bounded.
      rewrite Hcan, Ele.
      assert (Z.abs (cond_Zopp s (Zpos m' * 2 ^ (e' - emin prec emax)))
                = Zpos m' * 2 ^ (e' - emin prec emax)) as ->.
      { assert (0 <= Zpos m' * 2 ^ (e' - emin prec emax))
          by (apply Z.mul_nonneg_nonneg; [lia | apply Z.pow_nonneg; lia]).
        destruct s; cbn [cond_Zopp]; lia. }
      rewrite HS. repeat split; auto. intros _. nia.
    + cbn [valid_binary is_nan is_finite]. repeat split; auto; try discriminate.
      intros Hsmall. exfalso. apply Z.leb_gt in Ele.
      (* the rounded value is at least [2^emax] *)
      pose proof (canonical_bounds _ _ Hcan) as [_ Hlo].
      specialize (Hlo ltac:(unfold emin in *; lia)).
      assert (2 ^ (emax - 2 * emin prec emax) <= q * 2 ^ n * W) as Hbig.
      { rewrite <- HS.
        assert (2 ^ (prec - 1) * 2 ^ (e' - emin prec emax) * 2 ^ (- emin prec emax)
                  <= Zpos m' * 2 ^ (e' - emin prec emax) * 2 ^ (- emin prec emax))
          as Hle.
        { apply Z.mul_le_mono_nonneg_r; [lia |].
          apply Z.mul_le_mono_nonneg_r; [apply Z.pow_nonneg; lia | lia]. }
        rewrite <- !pow2_split in Hle by (unfold emin in *; lia).
        assert (2 ^ (emax - 2 * emin prec emax)
                  <= 2 ^ (prec - 1 + (e' - emin prec emax) + - emin prec emax))
          by (apply pow2_le; unfold emin in *; lia).
        lia. }
      (* while a unit in the last place is at most the product *)
      assert (emin prec emax < e1) as Hn by (unfold emin in *; lia).
      assert (2 ^ n * W <= Zpos m * W) as Hulp'.
      { unfold W, n. rewrite <- pow2_split by (unfold e in *; lia).
        assert (e1 = d + e - prec) as E1 by (unfold e1, fexp in *; lia).
        assert (2 ^ (e1 - e + (e - 2 * emin prec emax))
                  <= 2 ^ (d - 1 + (e - 2 * emin prec emax))) as Hle
          by (apply pow2_le; unfold e in *; lia).
        assert (2 ^ (d - 1 + (e - 2 * emin prec emax))
                  = 2 ^ (d - 1) * 2 ^ (e - 2 * emin prec emax)) as Hsp
          by (apply pow2_split; unfold e in *; lia).
        assert (2 ^ (d - 1) * 2 ^ (e - 2 * emin prec emax)
                  <= Zpos m * 2 ^ (e - 2 * emin prec emax))
          by (apply Z.mul_le_mono_nonneg_r; lia).
        lia. }
      assert (2 ^ (emax - 2 * emin prec emax)
                = 2 * 2 ^ (emax - 1 - 2 * emin prec emax)) as Hsplit.
      { rewrite <- Z.pow_succ_r by (unfold emin; lia). f_equal. lia. }
      nia.
Qed.

End Rounding.

(** ** Results that need no rounding *)

Lemma rne_div_multiple m n : 0 <= n -> rne_div (m * 2 ^ n) n = m.
Proof.
  intros Hn. unfold rne_div, loc_of_rem.
  assert (0 < 2 ^ n) by (apply pow2_pos; lia).
  rewrite Z.div_mul, Z.mod_mul by lia. reflexivity.
Qed.

Section Exact.
Variables prec emax : Z.
Hypothesis Hprec : 0 < prec.
Hypothesis Hemax : prec < emax.

(** A value has one canonical mantissa and exponent. *)
Lemma canonical_unique m1 e1 m2 e2 :
  canonical_mantissa prec emax m1 e1 = true ->
  canonical_mantissa prec emax m2 e2 = true ->
  Zpos m1 * 2 ^ (e1 - emin prec emax) = Zpos m2 * 2 ^ (e2 - emin prec emax) ->
  m1 = m2 /\ e1 = e2.
Proof.
  intros C1 C2 HV.
  pose proof (magnitude_compare prec emax Hprec m1 e1 m2 e2 C1 C2) as Hc.
  rewrite HV, Z.compare_refl in Hc.
  destruct (Z.compare_spec e1 e2) as [Ee | Ee | Ee]; try discriminate Hc.
  split; [| exact Ee].
  change (Pos.compare_cont Eq m1 m2) with (Pos.compare m1 m2) in Hc.
  apply Pos.compare_eq in Hc. exact Hc.
Qed.

Lemma valid_unique x y :
  valid_binary prec emax x = true -> valid_binary prec emax y = true ->
  is_finite x = true -> is_finite y = true ->
  scaled_value prec emax x = scaled_value prec emax y ->
  scaled_value prec emax x <> 0 ->
  x = y.
Proof.
  intros Vx Vy Fx Fy HV Hnz.
  destruct x as [sx | sx | | sx mx ex]; try discriminate Fx;
    [cbn [scaled_value] in Hnz; lia |].
  pose proof (valid_finite_emin _ _ _ _ _ Vx) as Ex.
  assert (0 < 2 ^ (ex - emin prec emax)) by (apply pow2_pos; lia).
  destruct y as [sy | sy | | sy my ey]; try discriminate Fy;
    [rewrite HV in Hnz; exfalso; apply Hnz; reflexivity |].
  pose proof (valid_finite_emin _ _ _ _ _ Vy) as Ey.
  assert (0 < 2 ^ (ey - emin prec emax)) by (apply pow2_pos; lia).
  cbn [scaled_value] in HV.
  assert (sx = sy /\
          Zpos mx * 2 ^ (ex - emin prec emax) = Zpos my * 2 ^ (ey - emin prec emax))
    as [Hs Hm] by (destruct sx, sy; cbn [cond_Zopp] in HV; split; auto; nia).
  destruct (canonical_unique mx ex my ey
              (valid_canonical _ _ _ _ _ Vx) (valid_canonical _ _ _ _ _ Vy) Hm).
  congruence.
Qed.

(** Rounding a number the format holds returns that number. *)
Lemma binary_round_representable s m e m0 e0 :
  emin prec emax <= e ->
  valid_binary prec emax (S754_finite s m0 e0) = true ->
  Zpos m0 * 2 ^ (e0 - emin prec emax) = Zpos m * 2 ^ (e - emin prec emax) ->
  binary_round prec emax s m e = S754_finite s m0 e0.
Proof.
  intros He Hv HV. unfold binary_round.
  set (f := fexp prec emax (Zpos (digits2_pos m) + e)).
  pose proof (shl_align_spec m e f) as [Hez Hmz].
  destruct (shl_align m e f) as [mz ez]. cbn [fst snd] in Hez, Hmz.
  rewrite binary_round_aux_exact by assumption.
  assert (emin prec emax <= f) as Hf by apply fexp_ge_emin.
  rewrite <- Hez in Hmz.
  assert (emin prec emax <= ez <= e) as Hez' by lia.
  pose proof (valid_canonical _ _ _ _ _ Hv) as Hcan.
  pose proof (canonical_emin _ _ _ _ Hcan) as He0.
  (* both mantissas describe one value, so they end at the same digit *)
  assert (Zpos (digits2_pos mz) = Zpos (digits2_pos m) + (e - ez)) as Hdz
    by (apply digits2_shift; [lia | assumption]).
  assert (Zpos m0 * 2 ^ (e0 - emin prec emax) = Zpos mz * 2 ^ (ez - emin prec emax)) as HV'.
  { rewrite HV, Hmz.
    replace (e - emin prec emax) with ((e - ez) + (ez - emin prec emax)) by lia.
    rewrite pow2_split by lia. ring. }
  assert (0 < Zpos m0 * 2 ^ (e0 - emin prec emax)) as Hpos.
  { assert (0 < 2 ^ (e0 - emin prec emax)) by (apply pow2_pos; lia). nia. }
  destruct (Zpos m0 * 2 ^ (e0 - emin prec emax)) as [| w | w] eqn:Ew; try lia.
  pose proof (digits2_shift m0 w (e0 - emin prec emax) ltac:(lia) (eq_sym Ew)) as D0.
  pose proof (digits2_shift mz w (ez - emin prec emax) ltac:(lia) HV') as Dz.
  assert (f = e0) as Hfe.
  { apply canonical_iff in Hcan. rewrite <- Hcan. unfold f. f_equal. lia. }
  assert (Zpos mz = Zpos m0 * 2 ^ (f - ez)) as Hmul.
  { assert (0 < 2 ^ (ez - emin prec emax)) by (apply pow2_pos; lia).
    apply Z.mul_reg_r with (2 ^ (ez - emin prec emax)); [lia |].
    rewrite <- HV', <- Z.mul_assoc, <- pow2_split by lia.
    rewrite <- Ew. do 2 f_equal. lia. }
  unfold round_exact.
  replace (fexp prec emax (Zpos (digits2_pos mz) + ez)) with f by (unfold f; f_equal; lia).
  replace (Z.max ez f) with f by lia.
  rewrite Hmul, rne_div_multiple by lia.
  pose proof (canonical_bounds prec emax Hprec _ _ Hcan) as [Hlt _].
  destruct (Zpos m0 =? 0) eqn:E0; [apply Z.eqb_eq in E0; lia |].
  destruct (Zpos m0 =? 2 ^ prec) eqn:Ep; [apply Z.eqb_eq in Ep; lia |].
  unfold finite_or_inf. rewrite Hfe.
  cbn [valid_binary] in Hv. unfold bounded in Hv.
  apply andb_prop in Hv. destruct Hv as [_ Hle]. rewrite Hle.
  rewrite Pos2Z.id. reflexivity.
Qed.

Lemma binary_normalize_representable z e r :
  emin prec emax <= e ->
  valid_binary prec emax r = true -> is_finite r = true ->
  scaled_value prec emax r = z * 2 ^ (e - emin prec emax) ->
  z <> 0 ->
  binary_normalize prec emax z e false = r.
Proof.
  intros He Hv Hf HV Hz.
  assert (0 < 2 ^ (e - emin prec emax)) as HA by (apply pow2_pos; lia).
  destruct r as [sr | sr | | sr m0 e0]; try discriminate Hf.
  { cbn [scaled_value] in HV. nia. }
  pose proof (valid_finite_emin _ _ _ _ _ Hv) as He0.
  assert (0 < 2 ^ (e0 - emin prec emax)) as HB by (apply pow2_pos; lia).
  cbn [scaled_value] in HV.
  destruct z as [| m | m]; [lia | |]; cbn [binary_normalize].
  - destruct sr; cbn [cond_Zopp] in HV; [nia |].
    apply binary_round_representable; assumption.
  - destruct sr; cbn [cond_Zopp] in HV; [| nia].
    apply binary_round_representable; try assumption.
    change (Zneg m) with (- Zpos m) in HV. lia.
Qed.

(** A sum the format holds is computed exactly. *)
Lemma SFadd_representable x y r :
  valid_binary prec emax x = true -> valid_binary prec emax y = true ->
  is_finite x = true -> is_finite y = true ->
  valid_binary prec emax r = true -> is_finite r = true ->
  scaled_value prec emax r = scaled_value prec emax x + scaled_value prec emax y ->
  scaled_value prec emax r <> 0 ->
  SFadd prec emax x y = r.
Proof.
  intros Vx Vy Fx Fy Vr Fr HV Hnz.
  destruct x as [sx | sx | | sx mx ex]; try discriminate Fx;
  destruct y as [sy | sy | | sy my ey]; try discriminate Fy.
  - cbn [scaled_value] in HV. lia.
  - cbn [SFadd]. apply valid_unique; auto; cbn [scaled_value] in HV |- *; lia.
  - cbn [SFadd]. apply valid_unique; auto; cbn [scaled_value] in HV |- *; lia.
  - cbn [SFadd].
    pose proof (valid_finite_emin _ _ _ _ _ Vx). pose proof (valid_finite_emin _ _ _ _ _ Vy).
    set (ez := Z.min ex ey).
    assert (scaled_value prec emax r =
            (cond_Zopp sx (Zpos (fst (shl_align mx ex ez))) +
             cond_Zopp sy (Zpos (fst (shl_align my ey ez)))) * 2 ^ (ez - emin prec emax)) as HZ.
    { rewrite Z.mul_add_distr_r, !cond_Zopp_mul.
      rewrite !(shl_align_scaled prec emax) by lia. exact HV. }
    apply binary_normalize_representable; auto; [lia |].
    intros E0. rewrite E0 in HZ. lia.
Qed.

Lemma SFsub_representable x y r :
  valid_binary prec emax x = true -> valid_binary prec emax y = true ->
  is_finite x = true -> is_finite y = true ->
  valid_binary prec emax r = true -> is_finite r = true ->
  scaled_value prec emax r = scaled_value prec emax x - scaled_value prec emax y ->
  scaled_value prec emax r <> 0 ->
  SFsub prec emax x y = r.
Proof.
  intros Vx Vy Fx Fy Vr Fr HV Hnz.
  destruct x as [sx | sx | | sx mx ex]; try discriminate Fx;
  destruct y as [sy | sy | | sy my ey]; try discriminate Fy.
  - cbn [scaled_value] in HV. lia.
  - cbn [SFsub]. apply valid_unique; auto;
      destruct sy; cbn [scaled_value cond_Zopp negb] in HV |- *; lia.
  - cbn [SFsub]. apply valid_unique; auto; cbn [scaled_value] in HV |- *; lia.
  - cbn [SFsub].
    pose proof (valid_finite_emin _ _ _ _ _ Vx). pose proof (valid_finite_emin _ _ _ _ _ Vy).
    set (ez := Z.min ex ey).
    assert (scaled_value prec emax r =
            (cond_Zopp sx (Zpos (fst (shl_align mx ex ez))) -
             cond_Zopp sy (Zpos (fst (shl_align my ey ez)))) * 2 ^ (ez - emin prec emax)) as HZ.
    { rewrite Z.mul_sub_distr_r, !cond_Zopp_mul.
      rewrite !(shl_align_scaled prec emax) by lia. exact HV. }
    apply binary_normalize_representable; auto; [lia |].
    intros E0. rewrite E0 in HZ. lia.
Qed.

(** Numbers that cancel leave [+0]. *)
Lemma SFadd_cancel sx mx ex sy my ey :
  valid_binary prec emax (S754_finite sx mx ex) = true ->
  valid_binary prec emax (S754_finite sy my ey) = true ->
  scaled_value prec emax (S754_finite sx mx ex)
    + scaled_value prec emax (S754_finite sy my ey) = 0 ->
  SFadd prec emax (S754_finite sx mx ex) (S754_finite sy my ey) = S754_zero false.
Proof.
  intros Vx Vy HV. cbn [SFadd].
  pose proof (valid_finite_emin _ _ _ _ _ Vx). pose proof (valid_finite_emin _ _ _ _ _ Vy).
  set (ez := Z.min ex ey).
  assert (0 < 2 ^ (ez - emin prec emax)) by (apply pow2_pos; lia).
  assert (cond_Zopp sx (Zpos (fst (shl_align mx ex ez))) +
          cond_Zopp sy (Zpos (fst (shl_align my ey ez))) = 0) as ->; [| reflexivity].
  apply Z.mul_reg_r with (2 ^ (ez - emin prec emax)); [lia |].
  rewrite Z.mul_add_distr_r, !cond_Zopp_mul.
  rewrite !(shl_align_scaled prec emax) by lia. cbn [scaled_value] in HV. lia.
Qed.

Lemma SFsub_cancel sx mx ex sy my ey :
  valid_binary prec emax (S754_finite sx mx ex) = true ->
  valid_binary prec emax (S754_finite sy my ey) = true ->
  scaled_value prec emax (S754_finite sx mx ex)
    - scaled_value prec emax (S754_finite sy my ey) = 0 ->
  SFsub prec emax (S754_finite sx mx ex) (S754_finite sy my ey) = S754_zero false.
Proof.
  intros Vx Vy HV. cbn [SFsub].
  pose proof (valid_finite_emin _ _ _ _ _ Vx). pose proof (valid_finite_emin _ _ _ _ _ Vy).
  set (ez := Z.min ex ey).
  assert (0 < 2 ^ (ez - emin prec emax)) by (apply pow2_pos; lia).
  assert (cond_Zopp sx (Zpos (fst (shl_align mx ex ez))) -
          cond_Zopp sy (Zpos (fst (shl_align my ey ez))) = 0) as ->; [| reflexivity].
  apply Z.mul_reg_r with (2 ^ (ez - emin prec emax)); [lia |].
  rewrite Z.mul_sub_distr_r, !cond_Zopp_mul.
  rewrite !(shl_align_scaled prec emax) by lia. cbn [scaled_value] in HV. lia.
Qed.

End Exact.

(** ** binary32 *)

Lemma F32_prec_pos : 0 < F32.prec.
Proof. reflexivity. Qed.

Lemma F32_prec_emax : F32.prec < F32.emax.
Proof. reflexivity. Qed.

Lemma of_int_rounds z :
  rounds_to F32.prec F32.emax (F32.of_int z) (z * 2 ^ 149).
Proof.
  pose proof (binary_normalize_spec F32.prec F32.emax F32_prec_pos F32_prec_emax
                z 0 ltac:(vm_compute; discriminate)) as H.
  cbv zeta in H. destruct H as [H1 [H2 [H3 [_ H5]]]].
  unfold rounds_to. auto.
Qed.

Lemma of_int_valid z : F32.valid (F32.of_int z) = true.
Proof. apply of_int_rounds. Qed.

Lemma of_int_finite z : int_range z -> is_finite (F32.of_int z) = true.
Proof.
  intros [Hlo Hhi]. apply of_int_rounds.
  unfold INT_MIN, INT_MAX in *.
  assert (overflow_threshold F32.prec F32.emax = 2 ^ 277 - 2 ^ 252) as -> by reflexivity.
  lia.
Qed.

Lemma Zdigits2_abs_le z k :
  Z.abs z < 2 ^ k -> 0 <= k -> Zdigits2 z <= k.
Proof.
  intros Hz Hk. destruct z as [| p | p].
  - simpl. lia.
  - apply (Zdigits2_le (Zpos p) k); lia.
  - change (Zdigits2 (Zneg p)) with (Zdigits2 (Zpos p)).
    apply (Zdigits2_le (Zpos p) k); lia.
Qed.

(** Integers below [2^24] convert without rounding. *)
Lemma of_int_exact z :
  Z.abs z < 2 ^ 24 ->
  is_finite (F32.of_int z) = true /\ F32.scaled (F32.of_int z) = z * 2 ^ 149.
Proof.
  intros Hz.
  assert (is_finite (F32.of_int z) = true) as Hf
    by (apply of_int_finite; unfold int_range, INT_MIN, INT_MAX; lia).
  split; [exact Hf |].
  pose proof (binary_normalize_spec F32.prec F32.emax F32_prec_pos F32_prec_emax
                z 0 ltac:(vm_compute; discriminate)) as H.
  cbv zeta in H. destruct H as [_ [_ [_ [H4 _]]]].
  apply H4; [exact Hf |].
  pose proof (Zdigits2_abs_le z 24 Hz ltac:(lia)).
  unfold fexp, emin, F32.prec, F32.emax. lia.
Qed.

Lemma SFadd_valid x y :
  F32.valid x = true -> F32.valid y = true -> F32.valid (F32.add x y) = true.
Proof.
  intros Vx Vy.
  destruct (is_finite x) eqn:Fx, (is_finite y) eqn:Fy.
  - apply (SFadd_spec F32.prec F32.emax F32_prec_pos F32_prec_emax x y); assumption.
  - destruct x, y; try discriminate; try reflexivity; exact Vx.
  - destruct x, y; try discriminate; try reflexivity; try exact Vy;
      destruct s, s0; reflexivity.
  - destruct x, y; try discriminate; try reflexivity; destruct s, s0; reflexivity.
Qed.

Lemma SFsub_valid x y :
  F32.valid x = true -> F32.valid y = true -> F32.valid (F32.sub x y) = true.
Proof.
  intros Vx Vy.
  destruct (is_finite x) eqn:Fx, (is_finite y) eqn:Fy.
  - apply (SFsub_spec F32.prec F32.emax F32_prec_pos F32_prec_emax x y); assumption.
  - destruct x, y; try discriminate; try reflexivity; exact Vx.
  - destruct x, y; try discriminate; try reflexivity; try exact Vy;
      destruct s, s0; reflexivity.
  - destruct x, y; try discriminate; try reflexivity; destruct s, s0; reflexivity.
Qed.

Lemma SFabs_valid x : F32.valid x = true -> F32.valid (F32.abs x) = true.
Proof. destruct x; auto. Qed.

Lemma SFabs_scaled x : F32.scaled (F32.abs x) = Z.abs (F32.scaled x).
Proof.
  destruct x as [| | | s m e]; try reflexivity.
  cbn [F32.abs SFabs F32.scaled scaled_value].
  assert (0 <= Zpos m * 2 ^ (e - emin F32.prec F32.emax))
    by (apply Z.mul_nonneg_nonneg; [lia | apply Z.pow_nonneg; lia]).
  destruct s; cbn [cond_Zopp]; lia.
Qed.

(** [x < y] on valid finite floats is [<] on their values. *)
Lemma ltb_scaled x y :
  F32.valid x = true -> F32.valid y = true ->
  is_finite x = true -> is_finite y = true ->
  F32.ltb x y = (F32.scaled x <? F32.scaled y).
Proof.
  intros Vx Vy Fx Fy. unfold F32.ltb, SFltb.
  rewrite (SFcompare_scaled F32.prec F32.emax F32_prec_pos x y Vx Vy Fx Fy).
  unfold Z.ltb, F32.scaled. destruct (_ ?= _); reflexivity.
Qed.

Lemma leb_scaled x y :
  F32.valid x = true -> F32.valid y = true ->
  is_finite x = true -> is_finite y = true ->
  F32.leb x y = (F32.scaled x <=? F32.scaled y).
Proof.
  intros Vx Vy Fx Fy. unfold F32.leb, SFleb.
  rewrite (SFcompare_scaled F32.prec F32.emax F32_prec_pos x y Vx Vy Fx Fy).
  unfold Z.leb, F32.scaled. destruct (_ ?= _); reflexivity.
Qed.

Lemma valid_fits x : F32.valid x = true -> mantissa_fits F32.prec x.
Proof.
  destruct x as [s | s | | s m e]; try (intros _; exact I).
  intros V. cbn [mantissa_fits].
  apply (canonical_bounds F32.prec F32.emax F32_prec_pos m e).
  apply (valid_canonical F32.prec F32.emax s). exact V.
Qed.

Lemma finite_not_nan x : is_finite x = true -> is_nan x = false.
Proof. destruct x; simpl; congruence. Qed.

(** A float between two finite floats is finite. *)
Lemma between_finite lo hi x :
  is_finite lo = true -> is_finite hi = true ->
  F32.leb lo x = true -> F32.leb x hi = true -> is_finite x = true.
Proof.
  unfold F32.leb, SFleb.
  destruct lo as [sl | sl | | sl ml el]; try discriminate;
  destruct hi as [sh | sh | | sh mh eh]; try discriminate;
  destruct x as [s | [|] | | s m e]; cbn [SFcompare is_finite];
    try reflexivity; try discriminate;
    try (destruct sl; discriminate); try (destruct sh; discriminate).
Qed.

Lemma compare_cont_Z p q : Pos.compare_cont Eq p q = (Zpos p ?= Zpos q).
Proof. reflexivity. Qed.

Lemma shiftl_small m k :
  Zpos m < 2 ^ 24 -> 19 <= k -> 0 <= Z.shiftl (Zpos m) (- k) < 32.
Proof.
  intros Hm Hk. rewrite Z.shiftl_div_pow2 by lia.
  replace (- - k) with k by lia.
  assert (2 ^ 19 <= 2 ^ k) by (apply pow2_le; lia).
  assert (0 < 2 ^ k) by (apply pow2_pos; lia).
  split; [apply Z.div_pos; lia |].
  apply Z.div_lt_upper_bound; [lia |].
  change (2 ^ 24) with (32 * 2 ^ 19) in Hm. nia.
Qed.

Lemma valid_scaled_bound x :
  F32.valid x = true -> Z.abs (F32.scaled x) <= 2 ^ 277 - 2 ^ 253.
Proof.
  destruct x as [s | s | | s m e];
    [intros _; vm_compute; discriminate .. |].
  cbn [F32.valid valid_binary]. unfold bounded. intros H.
  apply andb_prop in H. destruct H as [Hc He]. apply Z.leb_le in He.
  pose proof (canonical_bounds F32.prec F32.emax F32_prec_pos _ _ Hc) as [Hm _].
  pose proof (canonical_emin F32.prec F32.emax _ _ Hc) as Hmin.
  cbn [F32.scaled scaled_value].
  change (emin F32.prec F32.emax) with (-149) in *.
  change (F32.emax - F32.prec) with 104 in He. change (2 ^ F32.prec) with (2 ^ 24) in Hm.
  assert (0 < 2 ^ (e - -149)) by (apply pow2_pos; lia).
  assert (2 ^ (e - -149) <= 2 ^ 253) by (apply pow2_le; lia).
  assert (Z.abs (cond_Zopp s (Zpos m * 2 ^ (e - -149))) = Zpos m * 2 ^ (e - -149)) as ->
    by (destruct s; cbn [cond_Zopp]; lia).
  change (2 ^ 277 - 2 ^ 253) with ((2 ^ 24 - 1) * 2 ^ 253).
  apply Z.mul_le_mono_nonneg; lia.
Qed.

(** *** Magnitudes

    Bounds that survive rounding.  The spacing of the floats doubles at
    each power of two, so a small enough term is absorbed there. *)

Lemma bounded_not_nan K x : bounded_by K x -> is_nan x = false.
Proof. intros [_ [F _]]. apply finite_not_nan. exact F. Qed.

Lemma bounded_by_zero K : 0 <= K -> bounded_by K (F32.of_int 0).
Proof.
  intros HK. repeat split. cbn. apply Z.lt_le_incl, pow2_pos. exact HK.
Qed.

Lemma bounded_by_weaken K K' x : K <= K' -> 0 <= K -> bounded_by K x -> bounded_by K' x.
Proof.
  intros HK H0 [V [F B]]. repeat split; auto.
  assert (2 ^ K <= 2 ^ K') by (apply pow2_le; lia). lia.
Qed.

(** Above a power of two the floats are two old units apart. *)
Lemma gap_above_pow2 x K :
  mantissa_fits F32.prec x -> 24 <= K ->
  Z.abs (F32.scaled x) < 2 ^ K + 2 ^ (K - 23) ->
  Z.abs (F32.scaled x) <= 2 ^ K.
Proof.
  intros Hfit HK Hlt.
  assert (0 < 2 ^ K) as HpK by (apply pow2_pos; lia).
  destruct x as [s | s | | s m e]; try (cbn; lia).
  cbn [mantissa_fits] in Hfit. change (2 ^ F32.prec) with (2 ^ 24) in Hfit.
  cbn [F32.scaled scaled_value] in *.
  change (emin F32.prec F32.emax) with (-149) in *.
  set (t := e - -149) in *.
  assert (Z.abs (cond_Zopp s (Zpos m * 2 ^ t)) = Zpos m * 2 ^ t) as Ha.
  { assert (0 <= Zpos m * 2 ^ t)
      by (apply Z.mul_nonneg_nonneg; [lia | apply Z.pow_nonneg; lia]).
    destruct s; cbn [cond_Zopp]; lia. }
  rewrite Ha in *. clear Ha.
  destruct (Z_lt_ge_dec t 0) as [Hneg | Hpos].
  { rewrite Z.pow_neg_r by lia. lia. }
  destruct (Z_le_gt_dec (Zpos m * 2 ^ t) (2 ^ K)) as [Hle | Hgt]; [exact Hle |].
  exfalso.
  assert (0 < 2 ^ t) as Hpt by (apply pow2_pos; lia).
  assert (K - 23 <= t) as Ht.
  { assert (2 ^ K < 2 ^ (24 + t)) as Hp.
    { rewrite pow2_split by lia. nia. }
    apply Z.pow_lt_mono_r_iff in Hp; lia. }
  assert (2 ^ t = 2 ^ (t - (K - 23)) * 2 ^ (K - 23)) as Hsplit.
  { rewrite <- pow2_split by lia. f_equal. lia. }
  assert (2 ^ K = 2 ^ 23 * 2 ^ (K - 23)) as HsplitK.
  { rewrite <- pow2_split by lia. f_equal. lia. }
  assert (0 < 2 ^ (K - 23)) as HG by (apply pow2_pos; lia).
  assert (0 < 2 ^ (t - (K - 23))) as HC by (apply pow2_pos; lia).
  set (G := 2 ^ (K - 23)) in *. set (c := Zpos m * 2 ^ (t - (K - 23))).
  assert (Zpos m * 2 ^ t = c * G) as Hc by (unfold c; rewrite Hsplit; ring).
  rewrite Hc, HsplitK in *.
  assert (2 ^ 23 < c) by nia.
  assert ((2 ^ 23 + 1) * G <= c * G) by (apply Z.mul_le_mono_nonneg_r; lia).
  lia.
Qed.

(** Absorption: below [2^K], a term smaller than half the spacing at
    [2^K] cannot carry the sum past [2^K]. *)
Lemma absorb (op : F32.float -> F32.float -> F32.float) x y K V :
  rounds_to F32.prec F32.emax (op x y) V ->
  Z.abs V <= Z.abs (F32.scaled x) + Z.abs (F32.scaled y) ->
  24 <= K <= 275 ->
  Z.abs (F32.scaled x) <= 2 ^ K ->
  (2 ^ 24 + 1) * Z.abs (F32.scaled y) < 2 ^ K ->
  bounded_by K (op x y).
Proof.
  intros [Vr [_ [Er Fr]]] HV HK HX HY.
  fold (F32.scaled (op x y)) in Er.
  change (overflow_threshold F32.prec F32.emax) with (2 ^ 277 - 2 ^ 252) in Fr.
  change (2 ^ F32.prec) with (2 ^ 24) in Er.
  assert (0 < 2 ^ K) as HpK by (apply pow2_pos; lia).
  assert (2 ^ K <= 2 ^ 275) as HK' by (apply pow2_le; lia).
  assert (2 ^ K = 2 ^ 23 * 2 ^ (K - 23)) as HsplitK.
  { rewrite <- pow2_split by lia. f_equal. lia. }
  assert (0 < 2 ^ (K - 23)) as HG by (apply pow2_pos; lia).
  assert (is_finite (op x y) = true) as Fin.
  { apply Fr. change (2 ^ 277 - 2 ^ 252) with (2 ^ 275 * 4 - 2 ^ 252).
    assert (0 < 2 ^ 275) by reflexivity. assert (2 ^ 252 < 2 ^ 275) by reflexivity.
    change (2 ^ 24 + 1) with 16777217 in HY. lia. }
  specialize (Er Fin).
  split; [exact Vr | split; [exact Fin |]].
  apply gap_above_pow2; [apply valid_fits; exact Vr | lia |].
  change (2 ^ 24) with 16777216 in *. change (2 ^ 23) with 8388608 in *.
  lia.
Qed.

Lemma add_absorbs x y K :
  bounded_by K x -> F32.valid y = true -> is_finite y = true ->
  24 <= K <= 275 ->
  (2 ^ 24 + 1) * Z.abs (F32.scaled y) < 2 ^ K ->
  bounded_by K (F32.add x y).
Proof.
  intros [Vx [Fx Bx]] Vy Fy HK HY.
  apply (absorb F32.add x y K (F32.scaled x + F32.scaled y)); auto; [| lia].
  apply (SFadd_spec F32.prec F32.emax F32_prec_pos F32_prec_emax); assumption.
Qed.

Lemma sub_absorbs x y K :
  bounded_by K x -> F32.valid y = true -> is_finite y = true ->
  24 <= K <= 275 ->
  (2 ^ 24 + 1) * Z.abs (F32.scaled y) < 2 ^ K ->
  bounded_by K (F32.sub x y).
Proof.
  intros [Vx [Fx Bx]] Vy Fy HK HY.
  apply (absorb F32.sub x y K (F32.scaled x - F32.scaled y)); auto; [| lia].
  apply (SFsub_spec F32.prec F32.emax F32_prec_pos F32_prec_emax); assumption.
Qed.

(** Sums and differences without absorption: one more bit. *)
Lemma sub_bounded x y K :
  bounded_by K x -> bounded_by K y -> 24 <= K <= 270 ->
  bounded_by (K + 2) (F32.sub x y).
Proof.
  intros [Vx [Fx Bx]] [Vy [Fy By]] HK.
  destruct (SFsub_spec F32.prec F32.emax F32_prec_pos F32_prec_emax x y Vx Vy Fx Fy)
    as [Vr [_ [Er Fr]]].
  fold (F32.sub x y) in *. fold (F32.scaled (F32.sub x y)) in Er.
  fold (F32.scaled x) in *. fold (F32.scaled y) in *.
  change (overflow_threshold F32.prec F32.emax) with (2 ^ 277 - 2 ^ 252) in Fr.
  change (2 ^ F32.prec) with (2 ^ 24) in Er.
  assert (0 < 2 ^ K) as HpK by (apply pow2_pos; lia).
  assert (2 ^ K <= 2 ^ 270) as HK' by (apply pow2_le; lia).
  assert (2 ^ (K + 2) = 4 * 2 ^ K) as Hs by (rewrite pow2_split by lia; lia).
  assert (is_finite (F32.sub x y) = true) as Fin.
  { apply Fr. change (2 ^ 277 - 2 ^ 252) with (2 ^ 270 * 128 - 2 ^ 252).
    assert (2 ^ 252 < 2 ^ 270) by reflexivity. lia. }
  specialize (Er Fin). repeat split; auto.
  change (2 ^ 24) with 16777216 in *. lia.
Qed.

Lemma add_bounded x y K :
  bounded_by K x -> bounded_by K y -> 24 <= K <= 270 ->
  bounded_by (K + 2) (F32.add x y).
Proof.
  intros [Vx [Fx Bx]] [Vy [Fy By]] HK.
  destruct (SFadd_spec F32.prec F32.emax F32_prec_pos F32_prec_emax x y Vx Vy Fx Fy)
    as [Vr [_ [Er Fr]]].
  fold (F32.add x y) in *. fold (F32.scaled (F32.add x y)) in Er.
  fold (F32.scaled x) in *. fold (F32.scaled y) in *.
  change (overflow_threshold F32.prec F32.emax) with (2 ^ 277 - 2 ^ 252) in Fr.
  change (2 ^ F32.prec) with (2 ^ 24) in Er.
  assert (0 < 2 ^ K) as HpK by (apply pow2_pos; lia).
  assert (2 ^ K <= 2 ^ 270) as HK' by (apply pow2_le; lia).
  assert (2 ^ (K + 2) = 4 * 2 ^ K) as Hs by (rewrite pow2_split by lia; lia).
  assert (is_finite (F32.add x y) = true) as Fin.
  { apply Fr. change (2 ^ 277 - 2 ^ 252) with (2 ^ 270 * 128 - 2 ^ 252).
    assert (2 ^ 252 < 2 ^ 270) by reflexivity. lia. }
  specialize (Er Fin). repeat split; auto.
  change (2 ^ 24) with 16777216 in *. lia.
Qed.

(** A product of bounded floats is bounded; the exponents add, less the
    149 of the unit, plus two bits for rounding. *)
Lemma mul_bounded x y Kx Ky :
  bounded_by Kx x -> bounded_by Ky y ->
  0 <= Kx -> 0 <= Ky -> 149 <= Kx + Ky <= 420 ->
  bounded_by (Kx + Ky - 149 + 2) (F32.mul x y).
Proof.
  intros [Vx [Fx Bx]] [Vy [Fy By]] HKx HKy HK.
  destruct (SFmul_spec F32.prec F32.emax F32_prec_pos F32_prec_emax x y Vx Vy Fx Fy)
    as [Vr [_ [Er Fr]]].
  fold (F32.mul x y) in *. fold (F32.scaled (F32.mul x y)) in Er.
  fold (F32.scaled x) in *. fold (F32.scaled y) in *.
  change (emin F32.prec F32.emax) with (-149) in *.
  change (F32.emax - 1 - 2 * -149) with 425 in Fr. change (- -149) with 149 in Er.
  assert (0 < 2 ^ Kx) as HpX by (apply pow2_pos; lia).
  assert (0 < 2 ^ Ky) as HpY by (apply pow2_pos; lia).
  assert (Z.abs (F32.scaled x * F32.scaled y) <= 2 ^ (Kx + Ky)) as HP.
  { rewrite Z.abs_mul, pow2_split by lia.
    apply Z.mul_le_mono_nonneg; try apply Z.abs_nonneg; assumption. }
  assert (2 ^ (Kx + Ky) <= 2 ^ 420) as Hle by (apply pow2_le; lia).
  assert (is_finite (F32.mul x y) = true) as Fin.
  { apply Fr. assert (2 ^ 420 < 2 ^ 425) by reflexivity. lia. }
  specialize (Er Fin). repeat split; auto.
  assert (2 ^ (Kx + Ky) = 2 ^ (Kx + Ky - 149) * 2 ^ 149) as Hs.
  { rewrite <- pow2_split by lia. f_equal. lia. }
  assert (2 ^ (Kx + Ky - 149 + 2) = 4 * 2 ^ (Kx + Ky - 149)) as Hs2
    by (rewrite pow2_split by lia; lia).
  assert (0 < 2 ^ (Kx + Ky - 149)) as Hp by (apply pow2_pos; lia).
  assert (0 < 2 ^ 149) as HU by reflexivity.
  set (U := 2 ^ 149) in *. set (R := Z.abs (F32.scaled (F32.mul x y))) in *.
  set (Q := 2 ^ (Kx + Ky - 149)) in *.
  rewrite Hs2. clearbody U R Q. nia.
Qed.

(** Adding a step of at most 1 and taking it away again returns to the
    start up to [2^-22] of the magnitudes involved. *)
Lemma round_trip_error g inc :
  F32.valid g = true -> is_finite g = true ->
  F32.valid inc = true -> is_finite inc = true ->
  0 <= F32.scaled inc <= 2 ^ 149 ->
  let r := F32.sub (F32.add g inc) inc in
  is_finite r = true /\ F32.valid r = true /\
  2 ^ 22 * Z.abs (F32.scaled r - F32.scaled g) <= Z.abs (F32.scaled g) + F32.scaled inc.
Proof.
  intros Vg Fg Vi Fi Hi r.
  pose proof (valid_scaled_bound g Vg) as HG.
  destruct (SFadd_spec F32.prec F32.emax F32_prec_pos F32_prec_emax g inc Vg Vi Fg Fi)
    as [Vs [_ [Es Fs]]].
  fold (F32.add g inc) in Vs, Es, Fs. fold (F32.scaled (F32.add g inc)) in Es.
  fold (F32.scaled g) in Es, Fs. fold (F32.scaled inc) in Es, Fs.
  change (overflow_threshold F32.prec F32.emax) with (2 ^ 277 - 2 ^ 252) in Fs.
  change (2 ^ F32.prec) with (2 ^ 24) in Es.
  assert (is_finite (F32.add g inc) = true) as Fsum by (apply Fs; lia).
  specialize (Es Fsum).
  pose proof (valid_scaled_bound _ Vs) as HS.
  destruct (SFsub_spec F32.prec F32.emax F32_prec_pos F32_prec_emax
              (F32.add g inc) inc Vs Vi Fsum Fi) as [Vr [_ [Er Fr]]].
  fold (F32.sub (F32.add g inc) inc) in Vr, Er, Fr. fold r in Vr, Er, Fr.
  fold (F32.scaled r) in Er. fold (F32.scaled (F32.add g inc)) in Er, Fr.
  fold (F32.scaled inc) in Er, Fr.
  change (overflow_threshold F32.prec F32.emax) with (2 ^ 277 - 2 ^ 252) in Fr.
  change (2 ^ F32.prec) with (2 ^ 24) in Er.
  assert (is_finite r = true) as Frr by (apply Fr; lia).
  specialize (Er Frr).
  split; [exact Frr | split; [exact Vr |]].
  change (2 ^ 24) with 16777216 in *. change (2 ^ 22) with 4194304.
  lia.
Qed.

(** *** Whole numbers held in a float *)

Lemma of_int_nonzero z :
  z <> 0 -> Z.abs z < 2 ^ 24 -> exists s m e, F32.of_int z = S754_finite s m e.
Proof.
  intros Hz Hb. destruct (of_int_exact z Hb) as [Hf Hs].
  destruct (F32.of_int z) as [s | s | | s m e]; try discriminate Hf.
  - unfold F32.scaled in Hs. cbn [scaled_value] in Hs. lia.
  - eauto.
Qed.

Lemma add_of_int a b :
  Z.abs a < 2 ^ 24 -> Z.abs b < 2 ^ 24 -> Z.abs (a + b) < 2 ^ 24 ->
  F32.add (F32.of_int a) (F32.of_int b) = F32.of_int (a + b).
Proof.
  intros Ha Hb Hab.
  destruct (of_int_exact a Ha) as [Fa Sa]. destruct (of_int_exact b Hb) as [Fb Sb].
  destruct (of_int_exact (a + b) Hab) as [Fab Sab].
  pose proof (of_int_valid a) as Va. pose proof (of_int_valid b) as Vb.
  destruct (Z.eq_dec (a + b) 0) as [E0 | E0].
  - rewrite E0. destruct (Z.eq_dec a 0) as [A0 | A0].
    + assert (b = 0) as -> by lia. rewrite A0. reflexivity.
    + destruct (of_int_nonzero a A0 Ha) as [sa [ma [ea Ea]]].
      destruct (of_int_nonzero b ltac:(lia) Hb) as [sb [mb [eb Eb]]].
      rewrite Ea, Eb in *.
      apply (SFadd_cancel F32.prec F32.emax); auto.
      unfold F32.scaled in Sa, Sb. rewrite Sa, Sb. lia.
  - apply (SFadd_representable F32.prec F32.emax F32_prec_pos); auto.
    + apply of_int_valid.
    + unfold F32.scaled in *. rewrite Sa, Sb, Sab. ring.
    + unfold F32.scaled in *. rewrite Sab. lia.
Qed.

Lemma sub_of_int a b :
  Z.abs a < 2 ^ 24 -> Z.abs b < 2 ^ 24 -> Z.abs (a - b) < 2 ^ 24 ->
  F32.sub (F32.of_int a) (F32.of_int b) = F32.of_int (a - b).
Proof.
  intros Ha Hb Hab.
  destruct (of_int_exact a Ha) as [Fa Sa]. destruct (of_int_exact b Hb) as [Fb Sb].
  destruct (of_int_exact (a - b) Hab) as [Fab Sab].
  pose proof (of_int_valid a) as Va. pose proof (of_int_valid b) as Vb.
  destruct (Z.eq_dec (a - b) 0) as [E0 | E0].
  - rewrite E0. destruct (Z.eq_dec a 0) as [A0 | A0].
    + assert (b = 0) as -> by lia. rewrite A0. reflexivity.
    + destruct (of_int_nonzero a A0 Ha) as [sa [ma [ea Ea]]].
      destruct (of_int_nonzero b ltac:(lia) Hb) as [sb [mb [eb Eb]]].
      rewrite Ea, Eb in *.
      apply (SFsub_cancel F32.prec F32.emax); auto.
      unfold F32.scaled in Sa, Sb. rewrite Sa, Sb. lia.
  - apply (SFsub_representable F32.prec F32.emax F32_prec_pos); auto.
    + apply of_int_valid.
    + unfold F32.scaled in *. rewrite Sa, Sb, Sab. ring.
    + unfold F32.scaled in *. rewrite Sab. lia.
Qed.

Lemma ltb_of_int a b :
  Z.abs a < 2 ^ 24 -> Z.abs b < 2 ^ 24 ->
  F32.ltb (F32.of_int a) (F32.of_int b) = (a <? b).
Proof.
  intros Ha Hb.
  destruct (of_int_exact a Ha) as [Fa Sa]. destruct (of_int_exact b Hb) as [Fb Sb].
  rewrite ltb_scaled by auto using of_int_valid. rewrite Sa, Sb.
  destruct (Z.ltb_spec a b), (Z.ltb_spec (a * 2 ^ 149) (b * 2 ^ 149)); auto; lia.
Qed.

(** *** Zeros and signs *)

Lemma mul_valid x y :
  F32.valid x = true -> F32.valid y = true ->
  is_finite x = true -> is_finite y = true ->
  F32.valid (F32.mul x y) = true.
Proof.
  intros Vx Vy Fx Fy.
  apply (SFmul_spec F32.prec F32.emax F32_prec_pos F32_prec_emax x y Vx Vy Fx Fy).
Qed.

Lemma round_exact_sign prec emax s m e :
  match round_exact prec emax s m e with
  | S754_zero s' | S754_infinity s' | S754_finite s' _ _ => s' = s
  | S754_nan => False
  end.
Proof.
  unfold round_exact, finite_or_inf.
  repeat match goal with
         | |- context [if ?c then _ else _] => destruct c
         end; reflexivity.
Qed.

(** A product that is not zero has the sign of the exact product. *)
Lemma mul_sign x y :
  F32.valid x = true -> F32.valid y = true ->
  (0 < F32.scaled (F32.mul x y) -> 0 < F32.scaled x * F32.scaled y) /\
  (F32.scaled (F32.mul x y) < 0 -> F32.scaled x * F32.scaled y < 0).
Proof.
  intros Vx Vy.
  destruct x as [sx | sx | | sx mx ex]; try (cbn; lia);
  destruct y as [sy | sy | | sy my ey]; try (cbn; lia).
  pose proof (valid_finite_emin F32.prec F32.emax sx mx ex Vx) as Ex.
  pose proof (valid_finite_emin F32.prec F32.emax sy my ey Vy) as Ey.
  assert (0 < 2 ^ (ex - emin F32.prec F32.emax)) as Px by (apply pow2_pos; lia).
  assert (0 < 2 ^ (ey - emin F32.prec F32.emax)) as Py by (apply pow2_pos; lia).
  unfold F32.mul. cbn [SFmul].
  rewrite (binary_round_aux_exact F32.prec F32.emax F32_prec_pos).
  pose proof (round_exact_sign F32.prec F32.emax (xorb sx sy) (mx * my) (ex + ey)) as Hs.
  unfold F32.scaled.
  destruct (round_exact F32.prec F32.emax (xorb sx sy) (mx * my) (ex + ey))
    as [s | s | | s m e]; try (cbn [scaled_value]; lia).
  cbn [scaled_value].
  assert (0 <= Zpos m * 2 ^ (e - emin F32.prec F32.emax)) as Hm
    by (apply Z.mul_nonneg_nonneg; [lia | apply Z.pow_nonneg; lia]).
  set (A := Zpos mx * 2 ^ (ex - emin F32.prec F32.emax)).
  set (B := Zpos my * 2 ^ (ey - emin F32.prec F32.emax)).
  assert (0 < A * B) as HAB by (unfold A, B; nia).
  set (R := Zpos m * 2 ^ (e - emin F32.prec F32.emax)) in *.
  clearbody A B R. subst s.
  destruct sx, sy; cbn [xorb cond_Zopp]; split; intros; nia.
Qed.

Lemma quot_sign a b :
  0 < b -> (0 < Z.quot a b -> 0 < a) /\ (Z.quot a b < 0 -> a < 0).
Proof.
  intros Hb. split; intros H.
  - destruct (Z_le_gt_dec a 0) as [Ha | Ha]; [| lia].
    replace a with (- - a) in H by lia. rewrite Z.quot_opp_l in H by lia.
    pose proof (Z.quot_pos (- a) b ltac:(lia) Hb). lia.
  - destruct (Z_le_gt_dec 0 a) as [Ha | Ha]; [| lia].
    pose proof (Z.quot_pos a b Ha Hb). lia.
Qed.

(** A term whose gain is zero adds nothing. *)
Lemma mul_zero_l s y :
  is_finite y = true -> exists s', F32.mul (S754_zero s) y = S754_zero s'.
Proof. destruct y; try discriminate; intros _; cbn; eauto. Qed.

Lemma mul_zero_r x s :
  is_finite x = true -> exists s', F32.mul x (S754_zero s) = S754_zero s'.
Proof. destruct x; try discriminate; intros _; cbn; eauto. Qed.

Lemma add_zero_r x s :
  is_finite x = true -> F32.scaled (F32.add x (S754_zero s)) = F32.scaled x /\
  F32.valid (F32.add x (S754_zero s)) = F32.valid x /\
  is_finite (F32.add x (S754_zero s)) = true.
Proof.
  destruct x as [sx | sx | | sx mx ex]; try discriminate; intros _.
  - destruct sx, s; repeat split.
  - repeat split.
Qed.

(** * The program *)

(** ** Shape of a defined pass *)

Lemma bind_Some {A B} (a : option A) (f : A -> option B) (b : B) :
  bind a f = Some b -> exists x, a = Some x /\ f x = Some b.
Proof.
  destruct a as [x|]; simpl; intros H; [exists x; auto | discriminate].
Qed.

Lemma cycle_Some st inp st' fx :
  cycle st inp = Some (st', fx) ->
  exists inc,
    i st' = cycleIncrement (pressed inp 7 JOY_RIGHT) (i st) /\
    increment_at (i st') = Some inc /\
    kp st' = adjustGain (pressed inp 7 JOY_UP) (pressed inp 7 JOY_DOWN)
                        (pressed inp 8 JOY_LEFT) inc (kp st) /\
    ki st' = adjustGain (pressed inp 5 JOY_UP) (pressed inp 5 JOY_DOWN)
                        (pressed inp 8 JOY_UP) inc (ki st) /\
    kd st' = adjustGain (pressed inp 6 JOY_UP) (pressed inp 6 JOY_DOWN)
                        (pressed inp 8 JOY_RIGHT) inc (kd st) /\
    setpoint st' =
      clampSetpoint (F32.add (setpoint st) (F32.of_int (joystick inp))) /\
    input st' = F32.of_int (sensor inp) /\
    isEnabled st' = enabledNow st inp /\
    diag fx = mkDiag (isEnabled st) (input st') (setpoint st') inc
                     (kp st') (ki st') (kd st') /\
    if enabledNow st inp then controlled st st' fx else idle st st' fx.
Proof.
  unfold cycle. intros H.
  apply bind_Some in H. destruct H as [inc [Hinc H]].
  exists inc.
  destruct (enabledNow st inp) eqn:En.
  - apply bind_Some in H. destruct H as [small [Hs H]].
    apply bind_Some in H. destruct H as [speed [Hsp H]].
    injection H as <- <-. simpl.
    repeat split; auto. exists small. auto.
  - simpl in H. injection H as <- <-. simpl.
    repeat split; auto.
Qed.

(** A pass whose flag is off is defined as soon as [increments[i]] is. *)
Lemma cycle_idle_defined st inp :
  enabledNow st inp = false ->
  0 <= i st < 3 ->
  exists st' fx, cycle st inp = Some (st', fx).
Proof.
  intros En Hi. unfold cycle. rewrite En.
  assert (exists inc,
    increment_at (cycleIncrement (pressed inp 7 JOY_RIGHT) (i st)) = Some inc)
    as [inc ->].
  { unfold cycleIncrement.
    assert (i st = 0 \/ i st = 1 \/ i st = 2) as [-> | [-> | ->]] by lia;
      destruct (pressed inp 7 JOY_RIGHT); vm_compute; eauto. }
  simpl. eauto.
Qed.

Lemma cycle_gains st inp st' fx :
  cycle st inp = Some (st', fx) ->
  exists inc,
    increment_at (i st') = Some inc /\
    forall g,
      gain g st' =
        adjustGain (upPressed g inp) (downPressed g inp) (zeroPressed g inp)
                   inc (gain g st).
Proof.
  intros H. apply cycle_Some in H.
  destruct H as [inc [_ [Hinc [Hp [Hi [Hd _]]]]]].
  exists inc. split; [exact Hinc |]. intros [| |]; assumption.
Qed.

Lemma run_cons st inp rest st' fxs :
  run st (inp :: rest) = Some (st', fxs) ->
  exists st1 fx1 fxs1,
    cycle st inp = Some (st1, fx1) /\ run st1 rest = Some (st', fxs1) /\
    fxs = fx1 :: fxs1.
Proof.
  cbn [run]. intros H.
  apply bind_Some in H. destruct H as [[st1 fx1] [Hc H]].
  apply bind_Some in H. destruct H as [[st2 fxs1] [Hr H]].
  cbn [fst snd] in *. injection H as <- <-. eauto 6.
Qed.

(** ** The increment index and the steps *)

Lemma cycleIncrement_small press k :
  0 <= k < 3 ->
  cycleIncrement press k = (if press then (k + 1) mod 3 else k) /\
  0 <= cycleIncrement press k < 3.
Proof.
  intros Hk. unfold cycleIncrement, SIZE_MODULUS.
  destruct press; [| lia].
  assert (k = 0 \/ k = 1 \/ k = 2) as [-> | [-> | ->]] by lia;
    vm_compute; intuition congruence.
Qed.

Lemma increment_at_Some k x : increment_at k = Some x -> 0 <= k < 3.
Proof.
  unfold increment_at. destruct (k <? 0) eqn:E; [discriminate |].
  apply Z.ltb_ge in E. intros H.
  assert (Z.to_nat k < length increments)%nat as Hlen.
  { apply nth_error_Some. rewrite H. discriminate. }
  simpl in Hlen. lia.
Qed.

Lemma reachable_index st : reachable st -> 0 <= i st < 3.
Proof.
  induction 1 as [| st inp st' fx _ IH _ Hc].
  - simpl. lia.
  - apply cycle_Some in Hc. destruct Hc as [inc [Hi _]].
    rewrite Hi. apply cycleIncrement_small. exact IH.
Qed.

Lemma increment_at_cases k inc :
  increment_at k = Some inc ->
  inc = S754_finite false 8589935 (-33) \/
  inc = S754_finite false 10737418 (-30) \/
  inc = S754_finite false 13421773 (-27).
Proof.
  intros H. pose proof (increment_at_Some _ _ H) as Hk.
  assert (k = 0 \/ k = 1 \/ k = 2) as [-> | [-> | ->]] by lia;
    vm_compute in H; injection H as <-; auto.
Qed.

Lemma increment_small k inc :
  increment_at k = Some inc ->
  F32.valid inc = true /\ is_finite inc = true /\
  0 <= F32.scaled inc <= 2 ^ 149 /\
  (2 ^ 24 + 1) * Z.abs (F32.scaled inc) < 2 ^ 170.
Proof.
  intros H.
  destruct (increment_at_cases _ _ H) as [-> | [-> | ->]];
    repeat split; try reflexivity; vm_compute; discriminate.
Qed.

Lemma adjustGain_bounded up down zero inc g k :
  increment_at k = Some inc ->
  bounded_by 170 g -> bounded_by 170 (adjustGain up down zero inc g).
Proof.
  intros Hinc Hg. destruct (increment_small _ _ Hinc) as [Vi [Fi [_ Hs]]].
  unfold adjustGain. destruct up; [| destruct down; [| destruct zero]].
  - apply add_absorbs; auto; lia.
  - apply sub_absorbs; auto; lia.
  - apply bounded_by_zero. lia.
  - exact Hg.
Qed.

(** ** Conversions to [int] *)

Lemma int_of_float_Some x z :
  int_of_float x = Some z -> is_finite x = true /\ z = trunc x /\ int_range z.
Proof.
  unfold int_of_float. destruct x as [s | s | | s m e]; try discriminate.
  - intros H. injection H as <-. unfold int_range, INT_MIN, INT_MAX. simpl. lia.
  - destruct (in_int _) eqn:E; [| discriminate]. intros H. injection H as <-.
    unfold in_int in E. apply andb_prop in E. destruct E as [E1 E2].
    apply Z.leb_le in E1, E2. unfold int_range. auto.
Qed.

(** What conversion to [int] says about the size of a float. *)
Lemma int_of_float_scaled x z :
  F32.valid x = true -> int_of_float x = Some z ->
  Z.abs z * 2 ^ 149 <= Z.abs (F32.scaled x) < (Z.abs z + 1) * 2 ^ 149.
Proof.
  intros Vx H. apply int_of_float_Some in H. destruct H as [Fx [Hz _]].
  rewrite Hz, (trunc_scaled F32.prec F32.emax F32_prec_pos F32_prec_emax x Vx).
  change (2 ^ (- emin F32.prec F32.emax)) with (2 ^ 149). fold (F32.scaled x).
  assert (0 < 2 ^ 149) as HU by reflexivity. set (U := 2 ^ 149) in *.
  rewrite <- Z.quot_abs by lia. rewrite (Z.abs_eq U) by lia.
  set (W := Z.abs (F32.scaled x)). assert (0 <= W) by apply Z.abs_nonneg.
  rewrite Z.quot_div_nonneg by lia.
  pose proof (Z.div_mod W U ltac:(lia)). pose proof (Z.mod_pos_bound W U HU).
  clearbody U. nia.
Qed.

Lemma int_of_float_defined x :
  F32.valid x = true -> is_finite x = true ->
  Z.abs (F32.scaled x) < (2 ^ 31 - 1) * 2 ^ 149 ->
  exists z, int_of_float x = Some z /\ Z.abs z < 2 ^ 31 - 1.
Proof.
  intros Vx Fx Hb.
  assert (Z.abs (trunc x) < 2 ^ 31 - 1) as Ht.
  { rewrite (trunc_scaled F32.prec F32.emax F32_prec_pos F32_prec_emax x Vx).
    change (2 ^ (- emin F32.prec F32.emax)) with (2 ^ 149). fold (F32.scaled x).
    assert (0 < 2 ^ 149) as HU by reflexivity. set (U := 2 ^ 149) in *.
    rewrite <- Z.quot_abs by lia. rewrite (Z.abs_eq U) by lia.
    rewrite Z.quot_div_nonneg by (try apply Z.abs_nonneg; lia).
    apply Z.div_lt_upper_bound; lia. }
  exists (trunc x). split; [| exact Ht].
  destruct x as [s | s | | s m e]; try discriminate Fx.
  - reflexivity.
  - unfold int_of_float.
    assert (in_int (trunc (S754_finite s m e)) = true) as ->; [| reflexivity].
    unfold in_int, INT_MIN, INT_MAX. apply andb_true_intro.
    split; apply Z.leb_le; lia.
Qed.

(** Line 162 decides [|error| < 100]: going through [int] and back does
    not change the outcome of the comparison. *)
Lemma withinIntegralLimit_spec err b :
  F32.valid err = true ->
  withinIntegralLimit err = Some b ->
  is_finite err = true /\ b = F32.ltb (F32.abs err) (F32.of_int 100).
Proof.
  intros Verr H. unfold withinIntegralLimit in H.
  apply bind_Some in H. destruct H as [e [He H]].
  apply bind_Some in H. destruct H as [a [Ha H]].
  injection H as <-.
  apply int_of_float_Some in He. destruct He as [Ferr [He Hr]].
  split; [exact Ferr |].
  unfold abs in Ha. destruct (e =? INT_MIN) eqn:Emin; [discriminate |].
  injection Ha as <-. apply Z.eqb_neq in Emin.
  unfold int_range, INT_MIN, INT_MAX in *.
  set (U := 2 ^ 149) in *. assert (0 < U) as HU by reflexivity.
  assert (F32.scaled (F32.of_int 100) = 100 * U) as H100 by reflexivity.
  assert (Z.abs e = Z.abs (F32.scaled err) / U) as Habs.
  { rewrite He, (trunc_scaled F32.prec F32.emax F32_prec_pos F32_prec_emax err Verr).
    change (2 ^ (- emin F32.prec F32.emax)) with U. fold (F32.scaled err).
    rewrite <- Z.quot_abs by lia. rewrite (Z.abs_eq U) by lia.
    apply Z.quot_div_nonneg; [apply Z.abs_nonneg | lia]. }
  unfold integralLimit.
  rewrite (ltb_scaled (F32.abs err)), SFabs_scaled, H100;
    [| apply SFabs_valid; assumption | apply of_int_valid
     | destruct err; try discriminate; reflexivity | reflexivity].
  set (W := Z.abs (F32.scaled err)) in *. assert (0 <= W) by apply Z.abs_nonneg.
  set (a := Z.abs e) in *. assert (0 <= a) by apply Z.abs_nonneg.
  assert (a * U <= W < (a + 1) * U) as Hdiv.
  { rewrite Habs. pose proof (Z.div_mod W U ltac:(lia)).
    pose proof (Z.mod_pos_bound W U HU). nia. }
  assert (a <= INT_MAX) as Hmax by (unfold INT_MAX, a; lia).
  assert (is_finite (F32.of_int a) = true) as Fa
    by (apply of_int_finite; unfold int_range, INT_MIN, INT_MAX in *; lia).
  rewrite (ltb_scaled (F32.of_int a)), H100;
    [| apply of_int_valid | apply of_int_valid | exact Fa | reflexivity].
  destruct (Z_lt_ge_dec a (2 ^ 24)) as [Hsmall | Hbig].
  - destruct (of_int_exact a ltac:(lia)) as [_ ->].
    destruct (Z.ltb_spec (a * U) (100 * U)), (Z.ltb_spec W (100 * U)); try reflexivity; nia.
  - destruct (of_int_rounds a) as [_ [_ [Herr _]]]. specialize (Herr Fa).
    fold U in Herr. fold (F32.scaled (F32.of_int a)) in Herr.
    change (2 ^ F32.prec) with (2 ^ 24) in Herr.
    assert (100 * U <= F32.scaled (F32.of_int a)).
    { assert (2 ^ 24 * U <= a * U) by nia. lia. }
    destruct (Z.ltb_spec (F32.scaled (F32.of_int a)) (100 * U)),
             (Z.ltb_spec W (100 * U)); try reflexivity; nia.
Qed.

Lemma withinIntegralLimit_defined err :
  F32.valid err = true -> is_finite err = true ->
  Z.abs (F32.scaled err) < (2 ^ 31 - 1) * 2 ^ 149 ->
  exists small, withinIntegralLimit err = Some small.
Proof.
  intros V F B. destruct (int_of_float_defined err V F B) as [z [Hz Hb]].
  unfold withinIntegralLimit. rewrite Hz. cbn [bind]. unfold abs.
  assert ((z =? INT_MIN) = false) as ->
    by (apply Z.eqb_neq; unfold INT_MIN; lia).
  cbn [bind]. eauto.
Qed.

Lemma withinIntegralLimit_bounds err small :
  F32.valid err = true -> withinIntegralLimit err = Some small ->
  bounded_by 181 err /\
  (small = true -> Z.abs (F32.scaled err) < 100 * 2 ^ 149).
Proof.
  intros V H.
  destruct (withinIntegralLimit_spec _ _ V H) as [F Hb].
  split.
  - split; [exact V | split; [exact F |]].
    unfold withinIntegralLimit in H.
    apply bind_Some in H. destruct H as [z [Hz _]].
    pose proof (int_of_float_scaled _ _ V Hz) as [_ Hs].
    apply int_of_float_Some in Hz. destruct Hz as [_ [_ [Hlo Hhi]]].
    unfold INT_MIN, INT_MAX in *.
    change (2 ^ 181) with (2 ^ 32 * 2 ^ 149).
    assert (0 < 2 ^ 149) by reflexivity.
    assert (Z.abs z + 1 <= 2 ^ 32) by lia.
    assert ((Z.abs z + 1) * 2 ^ 149 <= 2 ^ 32 * 2 ^ 149)
      by (apply Z.mul_le_mono_nonneg_r; lia).
    lia.
  - intros ->.
    rewrite ltb_scaled, SFabs_scaled in Hb;
      [| apply SFabs_valid; exact V | apply of_int_valid
       | destruct err; try discriminate F; reflexivity | reflexivity].
    symmetry in Hb. apply Z.ltb_lt in Hb. exact Hb.
Qed.

Lemma integral_step_bounded integ err small :
  bounded_by 180 integ -> F32.valid err = true ->
  withinIntegralLimit err = Some small ->
  bounded_by 180 (if small then F32.add integ err else F32.of_int 0).
Proof.
  intros Hi V H.
  destruct (withinIntegralLimit_bounds _ _ V H) as [[_ [F _]] Hs].
  destruct small; [| apply bounded_by_zero; lia].
  specialize (Hs eq_refl).
  apply add_absorbs; auto; [lia |].
  change (2 ^ 180) with (2 ^ 31 * 2 ^ 149). change (2 ^ 24 + 1) with 16777217.
  assert (0 < 2 ^ 149) by reflexivity. lia.
Qed.

(** ** The clamps *)

(** Lines 139-143 leave a number inside [[7, 4095]]. *)
Lemma clampSetpoint_range sp :
  is_nan sp = false ->
  F32.leb (F32.of_int inputMin) (clampSetpoint sp) = true /\
  F32.leb (clampSetpoint sp) (F32.of_int inputMax) = true.
Proof.
  intros Hn. unfold clampSetpoint.
  destruct (F32.gtb sp (F32.of_int inputMax)) eqn:Hgt; [split; reflexivity |].
  destruct (F32.ltb sp (F32.of_int inputMin)) eqn:Hlt; [split; reflexivity |].
  split; apply SFleb_of_not_ltb; auto.
Qed.

Lemma clampSetpoint_nan sp : is_nan (clampSetpoint sp) = is_nan sp.
Proof.
  unfold clampSetpoint.
  destruct sp as [s | [|] | | s m e]; try reflexivity;
    repeat match goal with |- context [if ?b then _ else _] => destruct b end;
    reflexivity.
Qed.

Lemma clampSetpoint_valid sp :
  F32.valid sp = true -> F32.valid (clampSetpoint sp) = true.
Proof.
  intros H. unfold clampSetpoint.
  repeat match goal with |- context [if ?b then _ else _] => destruct b end;
    auto.
Qed.

(** Lines 175-179 leave a number inside [[-60, 60]]. *)
Lemma clampOutput_range out :
  is_nan out = false ->
  F32.leb (F32.of_int outputMin) (clampOutput out) = true /\
  F32.leb (clampOutput out) (F32.of_int outputMax) = true.
Proof.
  intros Hn. unfold clampOutput.
  destruct (F32.ltb out (F32.of_int outputMin)) eqn:Hlt; [split; reflexivity |].
  destruct (F32.gtb out (F32.of_int outputMax)) eqn:Hgt; [split; reflexivity |].
  split; apply SFleb_of_not_ltb; auto.
Qed.

Lemma clampOutput_nan out : is_nan (clampOutput out) = is_nan out.
Proof.
  unfold clampOutput.
  destruct out as [s | [|] | | s m e]; try reflexivity;
    repeat match goal with |- context [if ?b then _ else _] => destruct b end;
    reflexivity.
Qed.

(** The integer handed to the motor: a float with a fitting mantissa that
    lies in [[-60, 60]] truncates into [[-60, 60]]. *)
Lemma trunc_in_range x :
  mantissa_fits F32.prec x ->
  F32.leb (F32.of_int outputMin) x = true ->
  F32.leb x (F32.of_int outputMax) = true ->
  outputMin <= trunc x <= outputMax.
Proof.
  unfold outputMin, outputMax.
  change (F32.of_int (-60)) with (S754_finite true 15728640 (-18)).
  change (F32.of_int 60) with (S754_finite false 15728640 (-18)).
  unfold F32.leb, SFleb.
  destruct x as [s | s | | s m e]; cbn [trunc]; try lia.
  cbn [mantissa_fits]. change (2 ^ F32.prec) with (2 ^ 24). intros Hm.
  assert (0 <= Z.shiftl (Zpos m) e) as Hnn by (apply Z.shiftl_nonneg; lia).
  assert (forall k, Zpos m <= 15728640 -> k = -18 -> Z.shiftl (Zpos m) k <= 60) as Heq.
  { intros k Hle ->. rewrite Z.shiftl_div_pow2 by lia. change (- (-18)) with 18.
    apply Z.div_le_upper_bound; [reflexivity | ]. change (2 ^ 18 * 60) with 15728640. lia. }
  assert (forall k, k < -18 -> Z.shiftl (Zpos m) k <= 60) as Hlt.
  { intros k Hk. pose proof (shiftl_small m (- k) Hm ltac:(lia)) as Hs.
    replace (- - k) with k in Hs by lia. lia. }
  destruct s; cbn [SFcompare cond_Zopp]; intros Hlo Hhi.
  - (* negative: only the lower bound matters *)
    split; [| lia].
    rewrite compare_cont_Z in Hlo.
    destruct (Z.compare_spec (-18) e) as [E | E | E]; try discriminate Hlo.
    + destruct (Z.compare_spec 15728640 (Zpos m)) as [E' | E' | E'];
        try discriminate Hlo; specialize (Heq e ltac:(lia) ltac:(lia)); lia.
    + specialize (Hlt e ltac:(lia)). lia.
  - split; [lia |].
    rewrite compare_cont_Z in Hhi.
    destruct (Z.compare_spec e (-18)) as [E | E | E]; try discriminate Hhi.
    + destruct (Z.compare_spec (Zpos m) 15728640) as [E' | E' | E'];
        try discriminate Hhi; specialize (Heq e ltac:(lia) ltac:(lia)); lia.
    + specialize (Hlt e ltac:(lia)). lia.
Qed.

Lemma pidSum_fits a b c x y z : mantissa_fits F32.prec (pidSum a b c x y z).
Proof.
  unfold pidSum, F32.add, F32.mul.
  repeat apply (SFadd_fits F32.prec F32.emax F32_prec_pos);
    apply (SFmul_fits F32.prec F32.emax F32_prec_pos).
Qed.

Lemma clampOutput_fits out :
  mantissa_fits F32.prec out -> mantissa_fits F32.prec (clampOutput out).
Proof.
  intros H. unfold clampOutput.
  repeat match goal with |- context [if ?b then _ else _] => destruct b end;
    auto; vm_compute; reflexivity.
Qed.

(** ** The setpoint and the error *)

Lemma setpoint_step_valid sp joy :
  F32.valid sp = true ->
  F32.valid (clampSetpoint (F32.add sp (F32.of_int joy))) = true.
Proof.
  intros H. apply clampSetpoint_valid, SFadd_valid; [exact H | apply of_int_valid].
Qed.

Lemma setpoint_step_finite sp joy :
  is_nan sp = false -> int_range joy ->
  is_finite (clampSetpoint (F32.add sp (F32.of_int joy))) = true.
Proof.
  intros Hn Hj.
  assert (is_nan (F32.add sp (F32.of_int joy)) = false) as Hs
    by (apply (SFadd_not_nan F32.prec F32.emax F32_prec_pos);
        [exact Hn | apply of_int_finite; exact Hj]).
  destruct (clampSetpoint_range _ Hs) as [Hlo Hhi].
  eapply between_finite; [| | exact Hlo | exact Hhi]; reflexivity.
Qed.

Lemma setpoint_step_bounded sp joy :
  F32.valid sp = true -> is_nan sp = false -> int_range joy ->
  bounded_by 161 (clampSetpoint (F32.add sp (F32.of_int joy))).
Proof.
  intros Vsp Nsp Hj.
  pose proof (setpoint_step_valid sp joy Vsp) as V.
  pose proof (setpoint_step_finite sp joy Nsp Hj) as F.
  assert (is_nan (F32.add sp (F32.of_int joy)) = false) as Hs
    by (apply (SFadd_not_nan F32.prec F32.emax F32_prec_pos);
        [exact Nsp | apply of_int_finite; exact Hj]).
  destruct (clampSetpoint_range _ Hs) as [Hlo Hhi].
  set (r := clampSetpoint _) in *.
  rewrite leb_scaled in Hlo, Hhi by (auto; reflexivity).
  apply Z.leb_le in Hlo, Hhi.
  change (F32.scaled (F32.of_int inputMin)) with (7 * 2 ^ 149) in Hlo.
  change (F32.scaled (F32.of_int inputMax)) with (4095 * 2 ^ 149) in Hhi.
  repeat split; auto.
  change (2 ^ 161) with (4096 * 2 ^ 149). assert (0 < 2 ^ 149) by reflexivity. lia.
Qed.

Lemma reachable_setpoint st :
  reachable st ->
  F32.valid (setpoint st) = true /\ is_finite (setpoint st) = true.
Proof.
  induction 1 as [| st inp st' fx _ [IHv IHf] [Hj _] Hc].
  - split; reflexivity.
  - apply cycle_Some in Hc. destruct Hc as [inc [_ [_ [_ [_ [_ [Hsp _]]]]]]].
    rewrite Hsp. split.
    + apply setpoint_step_valid. exact IHv.
    + apply setpoint_step_finite; [apply finite_not_nan; exact IHf | exact Hj].
Qed.

(** The error of a sensor reading of moderate size converts to [int]. *)
Lemma error_bounded sens sp :
  bounded_by 161 sp -> Z.abs sens <= 2 ^ 30 ->
  let e := F32.sub (F32.of_int sens) sp in
  F32.valid e = true /\ is_finite e = true /\
  Z.abs (F32.scaled e) < (2 ^ 31 - 1) * 2 ^ 149.
Proof.
  intros [Vs [Fs Bs]] Hsens e.
  pose proof (of_int_valid sens) as Vi.
  assert (is_finite (F32.of_int sens) = true) as Fi
    by (apply of_int_finite; unfold int_range, INT_MIN, INT_MAX; lia).
  destruct (of_int_rounds sens) as [_ [_ [Ei _]]]. specialize (Ei Fi).
  fold (F32.scaled (F32.of_int sens)) in Ei. change (2 ^ F32.prec) with (2 ^ 24) in Ei.
  destruct (SFsub_spec F32.prec F32.emax F32_prec_pos F32_prec_emax
              (F32.of_int sens) sp Vi Vs Fi Fs) as [Vr [_ [Er Fr]]].
  fold (F32.sub (F32.of_int sens) sp) in *. fold e in Vr, Er, Fr.
  fold (F32.scaled e) in Er. fold (F32.scaled (F32.of_int sens)) in Er, Fr.
  fold (F32.scaled sp) in Er, Fr.
  change (overflow_threshold F32.prec F32.emax) with (2 ^ 277 - 2 ^ 252) in Fr.
  change (2 ^ F32.prec) with (2 ^ 24) in Er.
  assert (Z.abs (sens * 2 ^ 149) <= 2 ^ 30 * 2 ^ 149) as Hs.
  { rewrite Z.abs_mul. apply Z.mul_le_mono_nonneg; try apply Z.abs_nonneg; [lia |].
    simpl. lia. }
  change (2 ^ 161) with (4096 * 2 ^ 149) in Bs.
  assert (0 < 2 ^ 149) as HU by reflexivity.
  set (U := 2 ^ 149) in *.
  assert (is_finite e = true) as Fin.
  { apply Fr. change (2 ^ 277 - 2 ^ 252) with ((2 ^ 128 - 2 ^ 103) * U).
    change (2 ^ 24) with 16777216 in *. change (2 ^ 30) with 1073741824 in *.
    assert (1073741824 + 4096 + 1073741824 < 2 ^ 128 - 2 ^ 103) by reflexivity.
    clearbody U. nia. }
  specialize (Er Fin). split; [exact Vr | split; [exact Fin |]].
  change (2 ^ 24) with 16777216 in *. change (2 ^ 30) with 1073741824 in *.
  change (2 ^ 31 - 1) with 2147483647.
  clearbody U. lia.
Qed.

(** ** Runs *)

Lemma run_idle inps :
  forall st st' fxs,
    run st inps = Some (st', fxs) ->
    Forall (eq false) (flags (isEnabled st) inps) ->
    lastError st' = lastError st /\ error st' = error st.
Proof.
  induction inps as [| inp rest IH]; intros st st' fxs Hrun Hoff.
  - cbn [run] in Hrun. injection Hrun as <- _. auto.
  - apply run_cons in Hrun. destruct Hrun as [st1 [fx1 [fxs1 [Hc [Hr _]]]]].
    cbn [flags] in Hoff.
    change (if pressed inp 8 JOY_DOWN then negb (isEnabled st) else isEnabled st)
      with (enabledNow st inp) in Hoff.
    inversion Hoff as [| b l Hb Hrest]; subst.
    apply cycle_Some in Hc.
    destruct Hc as [inc [_ [_ [_ [_ [_ [_ [_ [Hen [_ Hbr]]]]]]]]]].
    rewrite <- Hb in Hbr.
    destruct Hbr as [He [_ [_ [_ [_ [Hl _]]]]]].
    rewrite <- Hen in Hrest.
    destruct (IH st1 st' fxs1 Hr Hrest) as [IHl IHe].
    split; congruence.
Qed.

(** ** No pass is undefined

    The loop keeps its state [tame], and from a tame state every
    operation of the body is defined. *)

(** The sum of line 173 over bounded operands is a number, and its
    clamped value converts to [int]. *)
Lemma output_defined p_gain i_gain d_gain err integ last :
  bounded_by 170 p_gain -> bounded_by 170 i_gain -> bounded_by 170 d_gain ->
  bounded_by 181 err -> bounded_by 180 integ -> bounded_by 181 last ->
  exists speed,
    int_of_float
      (clampOutput (pidSum p_gain i_gain d_gain err integ (F32.sub err last)))
    = Some speed.
Proof.
  intros Hp Hi Hd He Hint Hl.
  pose proof (sub_bounded err last 181 He Hl ltac:(lia)) as Hder.
  pose proof (mul_bounded _ _ 170 181 Hp He ltac:(lia) ltac:(lia) ltac:(lia)) as P1.
  pose proof (mul_bounded _ _ 170 180 Hi Hint ltac:(lia) ltac:(lia) ltac:(lia)) as P2.
  pose proof (mul_bounded _ _ 170 183 Hd Hder ltac:(lia) ltac:(lia) ltac:(lia)) as P3.
  apply (bounded_by_weaken _ 206) in P1; [| lia | lia].
  apply (bounded_by_weaken _ 206) in P2; [| lia | lia].
  apply (bounded_by_weaken _ 208) in P3; [| lia | lia].
  pose proof (add_bounded _ _ 206 P1 P2 ltac:(lia)) as S1.
  pose proof (add_bounded _ _ 208 S1 P3 ltac:(lia)) as [_ [Fs _]].
  fold (pidSum p_gain i_gain d_gain err integ (F32.sub err last)) in Fs.
  set (raw := pidSum _ _ _ _ _ _) in *.
  assert (is_nan raw = false) as Hn by (apply finite_not_nan; exact Fs).
  destruct (clampOutput_range raw Hn) as [Hlo Hhi].
  assert (mantissa_fits F32.prec (clampOutput raw)) as Hfit
    by (apply clampOutput_fits, (pidSum_fits p_gain i_gain d_gain)).
  pose proof (trunc_in_range _ Hfit Hlo Hhi) as Hr.
  assert (is_finite (clampOutput raw) = true) as Fc
    by (eapply between_finite; [| | exact Hlo | exact Hhi]; reflexivity).
  exists (trunc (clampOutput raw)).
  destruct (clampOutput raw) as [s | s | | s m e]; try discriminate Fc.
  - reflexivity.
  - unfold int_of_float.
    assert (in_int (trunc (S754_finite s m e)) = true) as ->; [| reflexivity].
    unfold in_int, INT_MIN, INT_MAX, outputMin, outputMax in *.
    apply andb_true_intro. split; apply Z.leb_le; lia.
Qed.

Lemma tame_init : tame init.
Proof.
  unfold tame. split; [simpl; lia |].
  split; [intros [| |]; repeat split; vm_compute; discriminate |].
  repeat split; vm_compute; discriminate.
Qed.

(** A defined pass keeps the magnitudes. *)
Lemma cycle_tame st inp st' fx :
  tame st -> int_range (joystick inp) ->
  cycle st inp = Some (st', fx) -> tame st'.
Proof.
  intros [Hi [Hg [Hsp [Hint Hlast]]]] Hj Hc.
  destruct (cycle_gains _ _ _ _ Hc) as [inc [Hinc Hgains]].
  apply cycle_Some in Hc.
  destruct Hc as [inc' [Hi' [_ [_ [_ [_ [Hsp' [Hin [_ [_ Hbr]]]]]]]]]].
  assert (bounded_by 161 (setpoint st')) as Bsp.
  { rewrite Hsp'. apply setpoint_step_bounded; [apply Hsp | | exact Hj].
    eapply bounded_not_nan; exact Hsp. }
  unfold tame. split; [rewrite Hi'; apply cycleIncrement_small; exact Hi |].
  split; [intros g; rewrite Hgains; eapply adjustGain_bounded; eauto |].
  split; [exact Bsp |].
  destruct (enabledNow st inp).
  - destruct Hbr as [Herr [_ [[small [Hsmall Hint']] [_ [_ [Hl _]]]]]].
    assert (F32.valid (error st') = true) as Verr.
    { rewrite Herr, Hin. apply SFsub_valid; [apply of_int_valid | apply Bsp]. }
    split.
    + rewrite Hint'. apply integral_step_bounded; assumption.
    + rewrite Hl. eapply withinIntegralLimit_bounds; eassumption.
  - destruct Hbr as [_ [_ [Hint' [_ [_ [Hl _]]]]]].
    split; [rewrite Hint'; apply bounded_by_zero; lia | rewrite Hl; exact Hlast].
Qed.

Lemma reachable_tame st : reachable st -> tame st.
Proof.
  induction 1 as [| st inp st' fx _ IH [Hj _] Hc].
  - exact tame_init.
  - eapply cycle_tame; eassumption.
Qed.

(** From such a state every pass is defined, provided the sensor reading
    is of moderate size: nothing in the body is undefined. *)
Lemma cycle_defined st inp :
  tame st -> int_range (joystick inp) -> Z.abs (sensor inp) <= 2 ^ 30 ->
  exists st' fx, cycle st inp = Some (st', fx).
Proof.
  intros [Hi [Hg [Hsp [Hint Hlast]]]] Hj Hs.
  destruct (enabledNow st inp) eqn:En;
    [| apply cycle_idle_defined; assumption].
  unfold cycle. rewrite En.
  destruct (cycleIncrement_small (pressed inp 7 JOY_RIGHT) (i st) Hi) as [_ Hi1].
  set (i1 := cycleIncrement (pressed inp 7 JOY_RIGHT) (i st)) in *.
  assert (exists inc, increment_at i1 = Some inc) as [inc Hinc].
  { assert (i1 = 0 \/ i1 = 1 \/ i1 = 2) as [-> | [-> | ->]] by lia;
      vm_compute; eauto. }
  rewrite Hinc. cbn [bind].
  set (sp1 := clampSetpoint (F32.add (setpoint st) (F32.of_int (joystick inp)))).
  assert (bounded_by 161 sp1) as Bsp.
  { apply setpoint_step_bounded; [apply Hsp | | exact Hj].
    eapply bounded_not_nan; exact Hsp. }
  destruct (error_bounded (sensor inp) sp1 Bsp Hs) as [Ve [Fe Be]].
  set (error1 := F32.sub (F32.of_int (sensor inp)) sp1) in *.
  destruct (withinIntegralLimit_defined error1 Ve Fe Be) as [small Hsmall].
  rewrite Hsmall. cbn [bind].
  pose proof (integral_step_bounded _ _ _ Hint Ve Hsmall) as Bint.
  destruct (withinIntegralLimit_bounds _ _ Ve Hsmall) as [Berr _].
  destruct (output_defined
              (adjustGain (pressed inp 7 JOY_UP) (pressed inp 7 JOY_DOWN)
                          (pressed inp 8 JOY_LEFT) inc (kp st))
              (adjustGain (pressed inp 5 JOY_UP) (pressed inp 5 JOY_DOWN)
                          (pressed inp 8 JOY_UP) inc (ki st))
              (adjustGain (pressed inp 6 JOY_UP) (pressed inp 6 JOY_DOWN)
                          (pressed inp 8 JOY_RIGHT) inc (kd st))
              error1 _ (lastError st)
              (adjustGain_bounded _ _ _ _ _ _ Hinc (Hg KP))
              (adjustGain_bounded _ _ _ _ _ _ Hinc (Hg KI))
              (adjustGain_bounded _ _ _ _ _ _ Hinc (Hg KD))
              Berr Bint Hlast) as [speed Hspeed].
  rewrite Hspeed. cbn [bind]. eauto.
Qed.

(** The loop is never undefined: whatever the buttons and the joystick
    do, every pass it reaches goes through. *)
Lemma loop_defined st inp :
  reachable st -> wf_inputs inp -> Z.abs (sensor inp) <= 2 ^ 30 ->
  exists st' fx, cycle st inp = Some (st', fx).
Proof.
  intros Hr [Hj _] Hs. apply cycle_defined; [apply reachable_tame | |]; assumption.
Qed.

Lemma reachable_gain st g :
  reachable st ->
  F32.valid (gain g st) = true /\ is_finite (gain g st) = true.
Proof.
  intros Hr. destruct (reachable_tame st Hr) as [_ [Hg _]].
  destruct (Hg g) as [V [F _]]. auto.
Qed.

(** ** The loop on whole numbers *)

Lemma int_of_float_of_int z :
  Z.abs z < 2 ^ 24 -> int_of_float (F32.of_int z) = Some z.
Proof.
  intros Hz. destruct (of_int_exact z Hz) as [Hf Hs].
  pose proof (of_int_valid z) as Hv.
  pose proof (trunc_scaled F32.prec F32.emax F32_prec_pos F32_prec_emax _ Hv) as Ht.
  fold F32.scaled in Ht. rewrite Hs in Ht.
  change (- emin F32.prec F32.emax) with 149 in Ht.
  rewrite Z.quot_mul in Ht by lia.
  unfold int_of_float.
  destruct (F32.of_int z) as [s | s | | s m e] eqn:E; try discriminate Hf.
  - unfold F32.scaled in Hs. cbn [scaled_value] in Hs. f_equal. lia.
  - rewrite Ht. unfold in_int, INT_MIN, INT_MAX.
    destruct (Z.leb_spec (- 2 ^ 31) z), (Z.leb_spec z (2 ^ 31 - 1)); try reflexivity; lia.
Qed.

(** The speed is the output with its fraction dropped. *)
Lemma int_of_float_quot x z :
  F32.valid x = true -> int_of_float x = Some z ->
  z = Z.quot (F32.scaled x) (2 ^ 149).
Proof.
  intros Hv Hz. destruct (int_of_float_Some _ _ Hz) as [_ [-> _]].
  apply (trunc_scaled F32.prec F32.emax F32_prec_pos F32_prec_emax _ Hv).
Qed.

Lemma withinIntegralLimit_of_int e :
  Z.abs e < 2 ^ 24 ->
  withinIntegralLimit (F32.of_int e) = Some (Z.abs e <? 100).
Proof.
  intros He. unfold withinIntegralLimit.
  rewrite int_of_float_of_int by exact He. cbn [bind]. unfold abs.
  destruct (Z.eqb_spec e INT_MIN) as [E | _];
    [unfold INT_MIN in E; simpl in He; lia |].
  cbn [bind]. unfold integralLimit.
  rewrite ltb_of_int by (simpl; lia). reflexivity.
Qed.

Lemma clampSetpoint_of_int z :
  Z.abs z < 2 ^ 24 ->
  clampSetpoint (F32.of_int z) = F32.of_int (clampZ inputMin inputMax z).
Proof.
  intros Hz. unfold clampSetpoint, clampZ, F32.gtb.
  fold (F32.ltb (F32.of_int inputMax) (F32.of_int z)).
  rewrite !ltb_of_int by (unfold inputMin, inputMax; simpl; lia).
  destruct (inputMax <? z); [reflexivity |].
  destruct (z <? inputMin); reflexivity.
Qed.

(** A joystick value too large for the sum to be exact still drives the
    setpoint into the clamp. *)
Lemma setpoint_step_far s joy :
  inputMin <= s <= inputMax -> int_range joy -> 2 ^ 23 <= Z.abs joy ->
  clampSetpoint (F32.add (F32.of_int s) (F32.of_int joy)) =
  F32.of_int (if 0 <? joy then inputMax else inputMin).
Proof.
  unfold inputMin, inputMax, int_range, INT_MIN, INT_MAX. intros Hs Hj Hbig.
  destruct (of_int_exact s ltac:(simpl; lia)) as [Fs Ss].
  pose proof (of_int_valid s) as Vs. pose proof (of_int_valid joy) as Vj.
  pose proof (of_int_finite joy Hj) as Fj.
  destruct (of_int_rounds joy) as [_ [_ [Ej _]]]. specialize (Ej Fj).
  destruct (SFadd_spec F32.prec F32.emax F32_prec_pos F32_prec_emax _ _ Vs Vj Fs Fj)
    as [Vx [Nx [Ex Fx]]].
  fold (F32.add (F32.of_int s) (F32.of_int joy)) in Vx, Nx, Ex, Fx.
  set (X := F32.add (F32.of_int s) (F32.of_int joy)) in *.
  fold (F32.scaled X) in Ex. fold (F32.scaled (F32.of_int s)) in Ex, Fx.
  fold (F32.scaled (F32.of_int joy)) in Ex, Fx, Ej.
  rewrite Ss in Ex, Fx.
  change (overflow_threshold F32.prec F32.emax) with (2 ^ 277 - 2 ^ 252) in Fx.
  change (2 ^ F32.prec) with 16777216 in Ex, Ej.
  set (J := F32.scaled (F32.of_int joy)) in *.
  assert (0 < 2 ^ 149) as HU by reflexivity.
  assert (Z.abs (joy * 2 ^ 149) = Z.abs joy * 2 ^ 149) as Hab
    by (rewrite Z.abs_mul; reflexivity).
  rewrite Hab in Ej.
  assert (8388608 * 2 ^ 149 <= Z.abs joy * 2 ^ 149) as Hlo
    by (apply Z.mul_le_mono_nonneg_r; [lia | exact Hbig]).
  assert (Z.abs joy * 2 ^ 149 <= 2147483648 * 2 ^ 149) as Hhi
    by (apply Z.mul_le_mono_nonneg_r; lia).
  assert (0 <= s * 2 ^ 149 <= 4095 * 2 ^ 149) as Hsu by nia.
  assert (is_finite X = true) as FX.
  { apply Fx. change (2 ^ 277 - 2 ^ 252) with ((2 ^ 128 - 2 ^ 103) * 2 ^ 149).
    assert (4095 + 2147483648 + 2147483648 < 2 ^ 128 - 2 ^ 103) by reflexivity.
    set (U := 2 ^ 149) in *. clearbody U. nia. }
  specialize (Ex FX).
  unfold clampSetpoint, F32.gtb, inputMin, inputMax.
  fold (F32.ltb (F32.of_int 4095) X).
  rewrite !ltb_scaled by (auto; reflexivity).
  change (F32.scaled (F32.of_int 4095)) with (4095 * 2 ^ 149).
  change (F32.scaled (F32.of_int 7)) with (7 * 2 ^ 149).
  set (U := 2 ^ 149) in *. clearbody U.
  destruct (Z.ltb_spec 0 joy) as [Hp | Hn].
  - assert (joy * U = Z.abs joy * U) as Hjp by (rewrite Z.abs_eq by lia; reflexivity).
    destruct (Z.ltb_spec (4095 * U) (F32.scaled X)); [reflexivity | lia].
  - assert (joy * U = - (Z.abs joy * U)) as Hjp
      by (rewrite (Z.abs_neq joy) by lia; ring).
    destruct (Z.ltb_spec (4095 * U) (F32.scaled X)); [lia |].
    destruct (Z.ltb_spec (F32.scaled X) (7 * U)); [reflexivity | lia].
Qed.

Lemma setpoint_step_exact s joy :
  inputMin <= s <= inputMax -> int_range joy ->
  clampSetpoint (F32.add (F32.of_int s) (F32.of_int joy)) = F32.of_int (setpointZ s joy).
Proof.
  intros Hs Hj. unfold setpointZ.
  destruct (Z_lt_le_dec (Z.abs joy) (2 ^ 23)) as [Hsmall | Hbig].
  - unfold inputMin, inputMax in Hs.
    rewrite add_of_int by (simpl in *; lia).
    apply clampSetpoint_of_int. simpl in *. lia.
  - rewrite setpoint_step_far by assumption.
    unfold clampZ, inputMin, inputMax in *. f_equal.
    change (2 ^ 23) with 8388608 in Hbig.
    destruct (Z.ltb_spec 0 joy), (Z.ltb_spec 4095 (s + joy)),
      (Z.ltb_spec (s + joy) 7); lia.
Qed.

Lemma setpointZ_range s joy : inputMin <= setpointZ s joy <= inputMax.
Proof.
  unfold setpointZ, clampZ, inputMin, inputMax.
  destruct (Z.ltb_spec 4095 (s + joy)), (Z.ltb_spec (s + joy) 7); lia.
Qed.

(** The setpoint the loop reaches is a whole number inside the clamp. *)
Lemma reachable_setpoint_int st :
  reachable st ->
  exists s, inputMin <= s <= inputMax /\ setpoint st = F32.of_int s.
Proof.
  induction 1 as [| st inp st' fx _ [s [Hs Es]] [Hj _] Hc].
  - exists 2000. split; [unfold inputMin, inputMax; lia | reflexivity].
  - apply cycle_Some in Hc.
    destruct Hc as [inc [_ [_ [_ [_ [_ [Hsp _]]]]]]].
    exists (setpointZ s (joystick inp)). split; [apply setpointZ_range |].
    rewrite Hsp, Es. apply setpoint_step_exact; assumption.
Qed.

(** The error of an enabled pass, for a setpoint that is a whole number
    and a sensor reading of moderate size. *)
Lemma enabled_error_exact st inp st' fx s :
  setpoint st = F32.of_int s -> inputMin <= s <= inputMax ->
  int_range (joystick inp) -> Z.abs (sensor inp) <= 2 ^ 22 ->
  enabledNow st inp = true ->
  cycle st inp = Some (st', fx) ->
  error st' = F32.of_int (sensor inp - setpointZ s (joystick inp)) /\
  Z.abs (sensor inp - setpointZ s (joystick inp)) < 2 ^ 23.
Proof.
  intros Es Hs Hj Hsens En Hc.
  apply cycle_Some in Hc.
  destruct Hc as [inc [_ [_ [_ [_ [_ [Hsp [Hin [_ [_ Hbr]]]]]]]]]].
  rewrite En in Hbr. destruct Hbr as [Herr _].
  pose proof (setpointZ_range s (joystick inp)) as Hs'.
  unfold inputMin, inputMax in Hs'.
  change (2 ^ 22) with 4194304 in Hsens. change (2 ^ 23) with 8388608.
  split; [| lia].
  rewrite Herr, Hin, Hsp, Es, setpoint_step_exact by assumption.
  apply sub_of_int; simpl; lia.
Qed.

(** ** What a pass hands on *)

Lemma cycle_motor st inp st' fx :
  cycle st inp = Some (st', fx) -> int_of_float (output st') = Some (motor fx).
Proof.
  intros Hc. apply cycle_Some in Hc.
  destruct Hc as [inc [_ [_ [_ [_ [_ [_ [_ [_ [_ Hbr]]]]]]]]]].
  destruct (enabledNow st inp).
  - apply Hbr.
  - destruct Hbr as [_ [_ [_ [_ [-> [_ ->]]]]]]. reflexivity.
Qed.

(** Whatever state a pass starts from, the speed it hands to the motor
    lies within the output limits. *)
Lemma motor_range st inp st' fx :
  cycle st inp = Some (st', fx) -> outputMin <= motor fx <= outputMax.
Proof.
  intros Hc. apply cycle_Some in Hc.
  destruct Hc as [inc [_ [_ [_ [_ [_ [_ [_ [_ [_ Hbr]]]]]]]]]].
  destruct (enabledNow st inp).
  - destruct Hbr as [_ [_ [_ [_ [Hout [_ Hmot]]]]]].
    destruct (int_of_float_Some _ _ Hmot) as [Hfin [Htr _]].
    assert (is_nan (output st') = false) as Hnn by (apply finite_not_nan; exact Hfin).
    pose proof Hnn as Hraw. rewrite Hout, clampOutput_nan in Hraw.
    destruct (clampOutput_range _ Hraw) as [Hlo Hhi]. rewrite <- Hout in Hlo, Hhi.
    assert (mantissa_fits F32.prec (output st')) as Hfit
      by (rewrite Hout; apply clampOutput_fits, (pidSum_fits (kp st') (ki st') (kd st'))).
    rewrite Htr. apply trunc_in_range; assumption.
  - destruct Hbr as [_ [_ [_ [_ [_ [_ Hmot]]]]]]. rewrite Hmot.
    unfold outputMin, outputMax. lia.
Qed.

Lemma clampOutput_valid out :
  F32.valid out = true -> F32.valid (clampOutput out) = true.
Proof.
  intros Hv. unfold clampOutput.
  destruct (F32.ltb out _); [apply of_int_valid |].
  destruct (F32.gtb out _); [apply of_int_valid | exact Hv].
Qed.

Lemma clampOutput_zero s : clampOutput (S754_zero s) = S754_zero s.
Proof. destruct s; reflexivity. Qed.

(** Clamping changes no sign. *)
Lemma clampOutput_sign out :
  F32.valid out = true -> is_finite out = true ->
  (0 < F32.scaled (clampOutput out) -> 0 < F32.scaled out) /\
  (F32.scaled (clampOutput out) < 0 -> F32.scaled out < 0).
Proof.
  intros Hv Hf. unfold clampOutput, F32.gtb.
  fold (F32.ltb (F32.of_int outputMax) out).
  rewrite !ltb_scaled by (auto; reflexivity).
  change (F32.scaled (F32.of_int outputMin)) with (- 60 * 2 ^ 149).
  change (F32.scaled (F32.of_int outputMax)) with (60 * 2 ^ 149).
  assert (0 < 2 ^ 149) as HU by reflexivity.
  destruct (Z.ltb_spec (F32.scaled out) (- 60 * 2 ^ 149)).
  - change (F32.scaled (F32.of_int outputMin)) with (- 60 * 2 ^ 149). lia.
  - destruct (Z.ltb_spec (60 * 2 ^ 149) (F32.scaled out)); [| lia].
    change (F32.scaled (F32.of_int outputMax)) with (60 * 2 ^ 149). lia.
Qed.

(** What an enabled pass computes from a tame state is well formed and
    finite. *)
Lemma controlled_finite st st' fx :
  tame st -> tame st' -> controlled st st' fx ->
  bounded_by 181 (error st') /\
  bounded_by 183 (derivative st') /\
  F32.valid (output st') = true /\ is_finite (output st') = true.
Proof.
  intros [_ [_ [_ [_ Hl]]]] [_ [Hg [_ [Hint Hl']]]]
         [_ [Hp [_ [Hder [Hout [Hlast Hmot]]]]]].
  rewrite Hlast in Hl'.
  assert (bounded_by 183 (derivative st')) as Bd
    by (rewrite Hder; apply (sub_bounded _ _ 181); [assumption | assumption | lia]).
  split; [exact Hl' | split; [exact Bd |]].
  split; [| eapply int_of_float_Some; exact Hmot].
  rewrite Hout, Hp. apply clampOutput_valid. unfold pidSum.
  destruct (Hg KP) as [V1 [F1 _]]. destruct (Hg KI) as [V2 [F2 _]].
  destruct (Hg KD) as [V3 [F3 _]]. cbn [gain] in *.
  destruct Hl' as [Ve [Fe _]]. destruct Hint as [Vi [Fi _]]. destruct Bd as [Vd [Fd _]].
  repeat apply SFadd_valid; apply mul_valid; assumption.
Qed.

Lemma output_valid st inp st' fx :
  reachable st -> wf_inputs inp -> cycle st inp = Some (st', fx) ->
  F32.valid (output st') = true.
Proof.
  intros Hr [Hj _] Hc.
  pose proof (reachable_tame st Hr) as Ht.
  pose proof (cycle_tame st inp st' fx Ht Hj Hc) as Ht'.
  apply cycle_Some in Hc.
  destruct Hc as [inc [_ [_ [_ [_ [_ [_ [_ [_ [_ Hbr]]]]]]]]]].
  destruct (enabledNow st inp).
  - apply (controlled_finite st st' fx Ht Ht' Hbr).
  - destruct Hbr as [_ [_ [_ [_ [-> _]]]]]. reflexivity.
Qed.

Lemma pidSum_zero_gains a b c x y z :
  is_finite x = true -> is_finite y = true -> is_finite z = true ->
  exists s, pidSum (S754_zero a) (S754_zero b) (S754_zero c) x y z = S754_zero s.
Proof.
  intros Fx Fy Fz. unfold pidSum.
  destruct (mul_zero_l a x Fx) as [s1 ->].
  destruct (mul_zero_l b y Fy) as [s2 ->].
  destruct (mul_zero_l c z Fz) as [s3 ->].
  destruct s1, s2, s3; cbn; eauto.
Qed.

Lemma pidSum_zero_terms p q r a b c :
  is_finite p = true -> is_finite q = true -> is_finite r = true ->
  exists s, pidSum p q r (S754_zero a) (S754_zero b) (S754_zero c) = S754_zero s.
Proof.
  intros Fp Fq Fr. unfold pidSum.
  destruct (mul_zero_r p a Fp) as [s1 ->].
  destruct (mul_zero_r q b Fq) as [s2 ->].
  destruct (mul_zero_r r c Fr) as [s3 ->].
  destruct s1, s2, s3; cbn; eauto.
Qed.

(** With the integral and derivative gains at zero the sum of line 173 is
    the proportional term. *)
Lemma pidSum_proportional p b c x y z :
  F32.valid p = true -> F32.valid x = true ->
  is_finite p = true -> is_finite x = true ->
  is_finite (F32.mul p x) = true ->
  is_finite y = true -> is_finite z = true ->
  let raw := pidSum p (S754_zero b) (S754_zero c) x y z in
  F32.scaled raw = F32.scaled (F32.mul p x) /\
  F32.valid raw = true /\ is_finite raw = true.
Proof.
  intros Vp Vx Fp Fx Fm Fy Fz raw. unfold raw, pidSum.
  destruct (mul_zero_l b y Fy) as [s2 ->].
  destruct (mul_zero_l c z Fz) as [s3 ->].
  destruct (add_zero_r (F32.mul p x) s2 Fm) as [S1 [V1 F1]].
  destruct (add_zero_r (F32.add (F32.mul p x) (S754_zero s2)) s3 F1) as [S2 [V2 F2]].
  rewrite S2, S1, V2, V1. split; [reflexivity | split; [| exact F2]].
  apply mul_valid; assumption.
Qed.

(** * The claims *)



(** C2.  In every pass whose flag is off at line 155 the pass ends with
    [integral = 0] and [output = 0], and 0 is handed to the motor, whatever
    the gains, the setpoint and the sensor reading; such a pass is defined
    whenever the increment index is inside the array. *)
Theorem disabled_cycle_zeroes st inp :
  enabledNow st inp = false ->
  (forall st' fx,
     cycle st inp = Some (st', fx) ->
     isEnabled st' = false /\
     integral st' = F32.zero /\ output st' = F32.zero /\ motor fx = 0) /\
  (0 <= i st < 3 -> exists st' fx, cycle st inp = Some (st', fx)).
Proof.
  intros En. split.
  - intros st' fx Hc. apply cycle_Some in Hc.
    destruct Hc as [inc [_ [_ [_ [_ [_ [_ [_ [Hen [_ Hbr]]]]]]]]]].
    rewrite En in Hbr, Hen.
    destruct Hbr as [_ [_ [Hint [_ [Hout [_ Hmot]]]]]].
    repeat split; assumption.
  - intros Hi. apply cycle_idle_defined; assumption.
Qed.

Lemma disabled_cycle_zeroes_witness :
  enabledNow init (quiet 0 1800) = false /\
  exists st' fx,
    cycle init (quiet 0 1800) = Some (st', fx) /\
    integral st' = F32.zero /\ output st' = F32.zero /\ motor fx = 0.
Proof.
  split; [reflexivity |].
  destruct (disabled_cycle_zeroes init (quiet 0 1800) eq_refl) as [Hz Hd].
  destruct (Hd ltac:(simpl; lia)) as [st' [fx Hc]].
  exists st', fx. split; [exact Hc |]. apply (Hz st' fx Hc).
Defined.

(** C3.  In every pass whose flag is on, starting from a well-formed
    setpoint: when [|error| < 100] the integral grows by [error], and when
    [|error| >= 100], 100 itself included, it is reset to 0.  The worked
    example: gains 0.01, 0, 0, reading 2100, setpoint 2000, nothing
    accumulated, gives [error = 100], [integral = 0], [derivative = 100]
    and the output 1.0. *)
Theorem integral_anti_windup :
  (forall st inp st' fx,
     F32.valid (setpoint st) = true ->
     cycle st inp = Some (st', fx) ->
     enabledNow st inp = true ->
     (F32.ltb (F32.abs (error st')) (F32.of_int 100) = true /\
      integral st' = F32.add (integral st) (error st')) \/
     (F32.leb (F32.of_int 100) (F32.abs (error st')) = true /\
      integral st' = F32.of_int 0)) /\
  (forall st inp st' fx,
     cycle st inp = Some (st', fx) ->
     enabledNow st inp = true ->
     kp st' = F32.of_double (F64.literal 1 100) ->
     ki st' = F32.of_int 0 -> kd st' = F32.of_int 0 ->
     sensor inp = 2100 -> setpoint st' = F32.of_int 2000 ->
     integral st = F32.of_int 0 -> lastError st = F32.of_int 0 ->
     error st' = F32.of_int 100 /\ integral st' = F32.of_int 0 /\
     derivative st' = F32.of_int 100 /\ output st' = F32.of_int 1).
Proof.
  split.
  - intros st inp st' fx Vsp Hc En. apply cycle_Some in Hc.
    destruct Hc as [inc [_ [_ [_ [_ [_ [Hsp [Hin [_ [_ Hbr]]]]]]]]]].
    rewrite En in Hbr.
    destruct Hbr as [Herr [_ [[small [Hsmall Hint]] _]]].
    assert (F32.valid (error st') = true) as Verr.
    { rewrite Herr, Hin, Hsp.
      apply SFsub_valid; [apply of_int_valid | apply setpoint_step_valid; exact Vsp]. }
    destruct (withinIntegralLimit_spec _ _ Verr Hsmall) as [Ferr Hb].
    destruct small.
    + left. split; [symmetry; exact Hb | exact Hint].
    + right. split; [| exact Hint].
      apply SFleb_of_not_ltb; [reflexivity | | symmetry; exact Hb].
      destruct (error st'); try discriminate Ferr; reflexivity.
  - intros st inp st' fx Hc En Hkp Hki Hkd Hsens Hsp Hint0 Hlast.
    apply cycle_Some in Hc.
    destruct Hc as [inc [_ [_ [_ [_ [_ [_ [Hin [_ [_ Hbr]]]]]]]]]].
    rewrite En in Hbr.
    destruct Hbr as [Herr [Hprop [[small [Hsmall Hint]] [Hder [Hout _]]]]].
    rewrite Hin, Hsens, Hsp in Herr.
    assert (error st' = F32.of_int 100) as He by (rewrite Herr; reflexivity).
    rewrite He in Hsmall, Hint, Hder, Hprop.
    assert (small = false) as -> by (vm_compute in Hsmall; congruence).
    rewrite Hlast in Hder.
    assert (derivative st' = F32.of_int 100) as Hd by (rewrite Hder; reflexivity).
    rewrite Hkp, Hki, Hkd, Hprop, Hint, Hd in Hout.
    split; [exact He |]. split; [exact Hint |]. split; [exact Hd |].
    rewrite Hout. reflexivity.
Qed.

Lemma integral_anti_windup_witness :
  exists st' fx,
    F32.valid (setpoint scenario) = true /\
    cycle scenario (quiet 0 2100) = Some (st', fx) /\
    enabledNow scenario (quiet 0 2100) = true /\
    F32.leb (F32.of_int 100) (F32.abs (error st')) = true /\
    error st' = F32.of_int 100 /\ integral st' = F32.of_int 0 /\
    derivative st' = F32.of_int 100 /\ output st' = F32.of_int 1.
Proof.
  destruct (cycle scenario (quiet 0 2100)) as [[st' fx] |] eqn:E;
    [| vm_compute in E; discriminate].
  exists st', fx.
  destruct integral_anti_windup as [Hgen Hex].
  pose proof (Hgen scenario (quiet 0 2100) st' fx eq_refl E eq_refl) as H1.
  assert (Some (st', fx) = cycle scenario (quiet 0 2100)) as E' by (symmetry; exact E).
  vm_compute in E'. injection E' as Hs Hf.
  pose proof (Hex scenario (quiet 0 2100) st' fx E eq_refl
                ltac:(rewrite Hs; reflexivity) ltac:(rewrite Hs; reflexivity)
                ltac:(rewrite Hs; reflexivity) eq_refl
                ltac:(rewrite Hs; reflexivity) eq_refl eq_refl) as H2.
  destruct H2 as [He [Hi [Hd Ho]]].
  repeat split; try assumption; try reflexivity.
  rewrite He. reflexivity.
Defined.

(** C4, as stated, fails: the zero control of a gain is the last branch of
    its if / else if chain.  With 7 up and 8 left pressed together, [kp]
    is stepped up from 0.01 to 0.011 and not zeroed. *)
Lemma zero_control_counterexample :
  exists st' fx,
    cycle init (press [(7, JOY_UP); (8, JOY_LEFT)]) = Some (st', fx) /\
    zeroPressed KP (press [(7, JOY_UP); (8, JOY_LEFT)]) = true /\
    gain KP st' = S754_finite false 11811160 (-30) /\
    gain KP st' <> F32.of_int 0.
Proof.
  destruct (cycle init (press [(7, JOY_UP); (8, JOY_LEFT)])) as [[st' fx] |] eqn:E;
    [| vm_compute in E; discriminate].
  exists st', fx.
  assert (Some (st', fx) = cycle init (press [(7, JOY_UP); (8, JOY_LEFT)])) as E'
    by (symmetry; exact E).
  vm_compute in E'. injection E' as -> ->.
  repeat split; try reflexivity. discriminate.
Qed.

(** C4, amended.  In every pass and for every gain, a pressed edge of the
    gain's zero control sets the gain to exactly 0 when neither the
    increase nor the decrease control of that gain is pressed in the same
    pass; no other control matters. *)
Theorem zero_control_zeroes st inp st' fx g :
  cycle st inp = Some (st', fx) ->
  zeroPressed g inp = true ->
  upPressed g inp = false ->
  downPressed g inp = false ->
  gain g st' = F32.of_int 0.
Proof.
  intros Hc Hz Hu Hd. destruct (cycle_gains _ _ _ _ Hc) as [inc [_ Hg]].
  rewrite Hg. unfold adjustGain. rewrite Hu, Hd, Hz. reflexivity.
Qed.

Lemma zero_control_zeroes_witness :
  exists st' fx,
    cycle init (press [(8, JOY_LEFT); (8, JOY_DOWN); (5, JOY_UP)]) = Some (st', fx) /\
    zeroPressed KP (press [(8, JOY_LEFT); (8, JOY_DOWN); (5, JOY_UP)]) = true /\
    upPressed KP (press [(8, JOY_LEFT); (8, JOY_DOWN); (5, JOY_UP)]) = false /\
    downPressed KP (press [(8, JOY_LEFT); (8, JOY_DOWN); (5, JOY_UP)]) = false /\
    gain KP st' = F32.of_int 0.
Proof.
  destruct (cycle init (press [(8, JOY_LEFT); (8, JOY_DOWN); (5, JOY_UP)]))
    as [[st' fx] |] eqn:E; [| vm_compute in E; discriminate].
  exists st', fx. repeat split; try reflexivity.
  exact (zero_control_zeroes init _ st' fx KP E eq_refl eq_refl eq_refl).
Defined.

(** C5.  In every pass and for every gain, at most one of the three
    actions takes effect, chosen in the order increase, decrease, zero:
    the first pressed control wins and nothing is added on top of it. *)
Theorem gain_actions_exclusive st inp st' fx g :
  cycle st inp = Some (st', fx) ->
  exists inc,
    increment_at (i st') = Some inc /\
    gain g st' =
      if upPressed g inp then F32.add (gain g st) inc
      else if downPressed g inp then F32.sub (gain g st) inc
      else if zeroPressed g inp then F32.of_int 0
      else gain g st.
Proof.
  intros Hc. destruct (cycle_gains _ _ _ _ Hc) as [inc [Hinc Hg]].
  exists inc. split; [exact Hinc | apply Hg].
Qed.

Lemma gain_actions_exclusive_witness :
  exists st' fx,
    cycle init (press [(7, JOY_UP); (7, JOY_DOWN); (8, JOY_LEFT)]) = Some (st', fx) /\
    gain KP st' = F32.add (gain KP init) (F32.of_double (F64.literal 1 1000)).
Proof.
  destruct (cycle init (press [(7, JOY_UP); (7, JOY_DOWN); (8, JOY_LEFT)]))
    as [[st' fx] |] eqn:E; [| vm_compute in E; discriminate].
  exists st', fx. split; [reflexivity |].
  destruct (gain_actions_exclusive init _ st' fx KP E) as [inc [Hinc Hg]].
  rewrite Hg.
  assert (i st' = 0) as Hi.
  { apply cycle_Some in E. destruct E as [inc' [Hi' _]]. rewrite Hi'. reflexivity. }
  rewrite Hi in Hinc. injection Hinc as <-. reflexivity.
Defined.



(** C7.  At the top of every pass the loop can reach the increment index
    is 0, 1 or 2.  From there lines 105-109 compute the index advanced by
    one modulo 3 on a pressed edge of the cycling control (0 to 1, 1 to 2,
    2 back to 0) and the same index otherwise; every defined pass ends with
    that index, never with 3 or more; and the pass is defined, the wrap
    from 2 to 0 included, for every [int] input with a sensor reading of
    at most [2^30]. *)
Theorem increment_index_cycles st :
  reachable st ->
  (i st = 0 \/ i st = 1 \/ i st = 2) /\
  (forall inp,
     cycleIncrement (pressed inp 7 JOY_RIGHT) (i st) =
       (if pressed inp 7 JOY_RIGHT then (i st + 1) mod 3 else i st)) /\
  (forall inp st' fx,
     cycle st inp = Some (st', fx) ->
     i st' = (if pressed inp 7 JOY_RIGHT then (i st + 1) mod 3 else i st) /\
     0 <= i st' < 3) /\
  (forall inp,
     wf_inputs inp -> Z.abs (sensor inp) <= 2 ^ 30 ->
     exists st' fx,
       cycle st inp = Some (st', fx) /\
       i st' = (if pressed inp 7 JOY_RIGHT then (i st + 1) mod 3 else i st)).
Proof.
  intros Hr. pose proof (reachable_index st Hr) as Hi.
  assert (forall inp st' fx,
            cycle st inp = Some (st', fx) ->
            i st' = (if pressed inp 7 JOY_RIGHT then (i st + 1) mod 3 else i st) /\
            0 <= i st' < 3) as Hstep.
  { intros inp st' fx Hc. apply cycle_Some in Hc. destruct Hc as [inc [Hi' _]].
    rewrite Hi'. apply cycleIncrement_small. exact Hi. }
  split; [lia |].
  split; [intros inp; apply cycleIncrement_small; exact Hi |].
  split; [exact Hstep |].
  intros inp Hwf Hs.
  destruct (loop_defined st inp Hr Hwf Hs) as [st' [fx Hc]].
  exists st', fx. split; [exact Hc | apply (Hstep inp st' fx Hc)].
Qed.

Lemma increment_index_cycles_witness :
  exists st1 fx1 st2 fx2 st3 fx3,
    cycle init (press [(7, JOY_RIGHT)]) = Some (st1, fx1) /\
    cycle st1 (press [(7, JOY_RIGHT)]) = Some (st2, fx2) /\
    cycle st2 (press [(7, JOY_RIGHT)]) = Some (st3, fx3) /\
    reachable st2 /\
    i st1 = 1 /\ i st2 = 2 /\ i st3 = 0.
Proof.
  set (p := press [(7, JOY_RIGHT)]).
  assert (wf_inputs p) as Hwf
    by (unfold wf_inputs, int_range, INT_MIN, INT_MAX; simpl; lia).
  assert (Z.abs (sensor p) <= 2 ^ 30) as Hs by (simpl; lia).
  destruct (increment_index_cycles init reach_init) as [_ [_ [_ D0]]].
  destruct (D0 p Hwf Hs) as [st1 [fx1 [C1 I1]]].
  assert (reachable st1) as R1
    by (eapply reach_cycle; [exact reach_init | exact Hwf | exact C1]).
  destruct (increment_index_cycles st1 R1) as [_ [_ [_ D1]]].
  destruct (D1 p Hwf Hs) as [st2 [fx2 [C2 I2]]].
  assert (reachable st2) as R2
    by (eapply reach_cycle; [exact R1 | exact Hwf | exact C2]).
  destruct (increment_index_cycles st2 R2) as [_ [_ [_ D2]]].
  destruct (D2 p Hwf Hs) as [st3 [fx3 [C3 I3]]].
  assert (i st1 = 1) as E1 by exact I1.
  assert (i st2 = 2) as E2 by (rewrite E1 in I2; exact I2).
  assert (i st3 = 0) as E3 by (rewrite E2 in I3; exact I3).
  exists st1, fx1, st2, fx2, st3, fx3.
  split; [exact C1 | split; [exact C2 | split; [exact C3 |]]].
  split; [exact R2 | split; [exact E1 | split; [exact E2 | exact E3]]].
Defined.

(** C8.  [lastError] is written only in the enabled branch: a pass whose
    flag is off leaves it as it was; so does any run of such passes; and
    after an enabled pass followed by any run of passes with the flag off
    it still holds the error of that enabled pass. *)
Theorem lastError_only_written_when_enabled :
  (forall st inp st' fx,
     cycle st inp = Some (st', fx) -> enabledNow st inp = false ->
     lastError st' = lastError st) /\
  (forall inps st st' fxs,
     run st inps = Some (st', fxs) ->
     Forall (eq false) (flags (isEnabled st) inps) ->
     lastError st' = lastError st) /\
  (forall st inp st1 fx1 inps st' fxs,
     cycle st inp = Some (st1, fx1) -> enabledNow st inp = true ->
     run st1 inps = Some (st', fxs) ->
     Forall (eq false) (flags (isEnabled st1) inps) ->
     lastError st' = error st1 /\
     error st1 = F32.sub (F32.of_int (sensor inp)) (setpoint st1)).
Proof.
  split; [| split].
  - intros st inp st' fx Hc En. apply cycle_Some in Hc.
    destruct Hc as [inc [_ [_ [_ [_ [_ [_ [_ [_ [_ Hbr]]]]]]]]]].
    rewrite En in Hbr. apply Hbr.
  - intros inps st st' fxs Hr Hoff. eapply run_idle; eassumption.
  - intros st inp st1 fx1 inps st' fxs Hc En Hr Hoff.
    destruct (run_idle inps st1 st' fxs Hr Hoff) as [Hl _].
    apply cycle_Some in Hc.
    destruct Hc as [inc [_ [_ [_ [_ [_ [_ [Hin [_ [_ Hbr]]]]]]]]]].
    rewrite En in Hbr. destruct Hbr as [Herr [_ [_ [_ [_ [Hlast _]]]]]].
    split; [congruence |]. rewrite Herr, Hin. reflexivity.
Qed.

Lemma lastError_only_written_when_enabled_witness :
  exists st1 fx1 st' fxs,
    cycle init (toggle 2050) = Some (st1, fx1) /\
    enabledNow init (toggle 2050) = true /\
    run st1 [toggle 1000; quiet 0 3000]
      = Some (st', fxs) /\
    Forall (eq false)
      (flags (isEnabled st1)
             [toggle 1000; quiet 0 3000]) /\
    lastError st1 = F32.of_int 50 /\ lastError st' = F32.of_int 50.
Proof.
  destruct (cycle init (toggle 2050))
    as [[st1 fx1] |] eqn:E; [| vm_compute in E; discriminate].
  assert (Some (st1, fx1) = cycle init (toggle 2050))
    as E' by (symmetry; exact E).
  vm_compute in E'. injection E' as Hs Hf.
  destruct (run st1 [toggle 1000; quiet 0 3000])
    as [[st' fxs] |] eqn:R; [| rewrite Hs in R; vm_compute in R; discriminate].
  exists st1, fx1, st', fxs.
  assert (Forall (eq false)
            (flags (isEnabled st1)
               [toggle 1000; quiet 0 3000])) as Hoff
    by (rewrite Hs; repeat constructor).
  destruct lastError_only_written_when_enabled as [_ [_ H3]].
  destruct (H3 init (toggle 2050) st1 fx1 [toggle 1000; quiet 0 3000] st' fxs
              E eq_refl R Hoff) as [Hl He].
  split; [reflexivity |]. split; [reflexivity |]. split; [exact R |].
  split; [exact Hoff |].
  assert (lastError st1 = F32.of_int 50) as H50 by (rewrite Hs; reflexivity).
  split; [exact H50 |]. rewrite Hl, <- H50, Hs. reflexivity.
Defined.

(** Exact return is not to be had: from 0.01, a step of 0.1 up and down
    again ends two units in the last place below. *)
Example round_trip_inexact :
  F32.sub (F32.add (kp init) (F32.of_double (F64.literal 1 10)))
          (F32.of_double (F64.literal 1 10))
  = S754_finite false 10737416 (-30) /\
  kp init = S754_finite false 10737418 (-30).
Proof. split; reflexivity. Qed.

(** C9.  For every gain of finite value and every step the increment
    index selects: a pass with the gain's increase control pressed followed
    by a pass with its decrease control pressed (the index left alone, the
    increase control released) yields [(g + inc) - inc] in float
    arithmetic, which is finite and differs from [g] by at most
    [2^-22 * (|g| + inc)], the rounding of the two operations. *)
Theorem gain_round_trip st inp1 st1 fx1 inp2 st2 fx2 g :
  F32.valid (gain g st) = true ->
  is_finite (gain g st) = true ->
  cycle st inp1 = Some (st1, fx1) ->
  cycle st1 inp2 = Some (st2, fx2) ->
  upPressed g inp1 = true ->
  pressed inp2 7 JOY_RIGHT = false ->
  upPressed g inp2 = false ->
  downPressed g inp2 = true ->
  exists inc,
    increment_at (i st1) = Some inc /\
    gain g st2 = F32.sub (F32.add (gain g st) inc) inc /\
    is_finite (gain g st2) = true /\
    2 ^ 22 * Z.abs (F32.scaled (gain g st2) - F32.scaled (gain g st))
      <= Z.abs (F32.scaled (gain g st)) + F32.scaled inc.
Proof.
  intros Vg Fg Hc1 Hc2 Hup1 Hcyc Hup2 Hdown2.
  destruct (cycle_gains _ _ _ _ Hc1) as [inc [Hinc Hg1]].
  destruct (cycle_gains _ _ _ _ Hc2) as [inc2 [Hinc2 Hg2]].
  apply cycle_Some in Hc2. destruct Hc2 as [inc' [Hi2 _]].
  rewrite Hcyc in Hi2. cbn [cycleIncrement] in Hi2.
  rewrite Hi2, Hinc in Hinc2. injection Hinc2 as <-.
  exists inc. split; [exact Hinc |].
  assert (gain g st2 = F32.sub (F32.add (gain g st) inc) inc) as Hg.
  { rewrite Hg2, Hg1. unfold adjustGain. rewrite Hup1, Hup2, Hdown2. reflexivity. }
  assert (F32.valid inc = true /\ is_finite inc = true /\
          0 <= F32.scaled inc <= 2 ^ 149) as [Vi [Fi Hi]].
  { destruct (increment_at_cases _ _ Hinc) as [-> | [-> | ->]];
      repeat split; try reflexivity; vm_compute; discriminate. }
  destruct (round_trip_error (gain g st) inc Vg Fg Vi Fi Hi) as [Fr [_ Hr]].
  rewrite Hg. auto.
Qed.

Lemma gain_round_trip_witness :
  exists st1 fx1 st2 fx2,
    F32.valid (gain KD init) = true /\
    is_finite (gain KD init) = true /\
    cycle init (press [(6, JOY_UP)]) = Some (st1, fx1) /\
    cycle st1 (press [(6, JOY_DOWN)]) = Some (st2, fx2) /\
    upPressed KD (press [(6, JOY_UP)]) = true /\
    pressed (press [(6, JOY_DOWN)]) 7 JOY_RIGHT = false /\
    upPressed KD (press [(6, JOY_DOWN)]) = false /\
    downPressed KD (press [(6, JOY_DOWN)]) = true /\
    2 ^ 22 * Z.abs (F32.scaled (gain KD st2) - F32.scaled (gain KD init))
      <= Z.abs (F32.scaled (gain KD init))
         + F32.scaled (F32.of_double (F64.literal 1 1000)).
Proof.
  destruct (cycle init (press [(6, JOY_UP)])) as [[st1 fx1] |] eqn:E1;
    [| vm_compute in E1; discriminate].
  assert (Some (st1, fx1) = cycle init (press [(6, JOY_UP)])) as E1'
    by (symmetry; exact E1).
  vm_compute in E1'. injection E1' as Hs Hf.
  destruct (cycle st1 (press [(6, JOY_DOWN)])) as [[st2 fx2] |] eqn:E2;
    [| rewrite Hs in E2; vm_compute in E2; discriminate].
  exists st1, fx1, st2, fx2.
  destruct (gain_round_trip init _ st1 fx1 _ st2 fx2 KD
              eq_refl eq_refl E1 E2 eq_refl eq_refl eq_refl eq_refl)
    as [inc [Hinc [_ [_ Hb]]]].
  rewrite Hs in Hinc. vm_compute in Hinc. injection Hinc as <-.
  split; [reflexivity |]. split; [reflexivity |]. split; [reflexivity |].
  split; [exact E2 |]. repeat (split; [reflexivity |]). exact Hb.
Defined.

(** C10.  Before the first pass: the controller is disabled, the
    increment index is 0 and selects 0.001, the three gains are 0.01 (not
    zero), the setpoint is 2000, and [error], [lastError], [integral] and
    [output] are 0.  The decimal literals denote the nearest floats. *)
Theorem initial_state :
  isEnabled init = false /\
  i init = 0 /\
  increment_at (i init) = Some (S754_finite false 8589935 (-33)) /\
  2 * Z.abs (1000 * F32.scaled (S754_finite false 8589935 (-33)) - 2 ^ 149)
    <= 1000 * 2 ^ (-33 + 149) /\
  kp init = S754_finite false 10737418 (-30) /\
  ki init = kp init /\ kd init = kp init /\
  2 * Z.abs (100 * F32.scaled (kp init) - 2 ^ 149) <= 100 * 2 ^ (-30 + 149) /\
  F32.ltb F32.zero (kp init) = true /\
  setpoint init = F32.of_int 2000 /\
  error init = F32.zero /\ lastError init = F32.zero /\
  integral init = F32.zero /\ output init = F32.zero /\
  run init [] = Some (init, []).
Proof.
  repeat split; try reflexivity; vm_compute; discriminate.
Qed.

(** * Further properties of the loop *)

(** X1.  The loop never runs into undefined behaviour and never drives the
    motor outside its limits: from every state it can reach, any sequence
    of passes with [int] inputs and sensor readings of at most [2^30] goes
    through, one motor command per pass, each within [[-60, 60]]. *)
Theorem run_never_undefined inps :
  forall st,
    reachable st ->
    Forall (fun inp => wf_inputs inp /\ Z.abs (sensor inp) <= 2 ^ 30) inps ->
    exists st' fxs,
      run st inps = Some (st', fxs) /\ reachable st' /\
      length fxs = length inps /\
      Forall (fun fx => outputMin <= motor fx <= outputMax) fxs.
Proof.
  induction inps as [| inp rest IH]; intros st Hr Hin.
  - exists st, []. cbn [run]. repeat split; auto.
  - inversion Hin as [| a l [Hwf Hs] Hrest]; subst.
    destruct (loop_defined st inp Hr Hwf Hs) as [st1 [fx1 Hc]].
    assert (reachable st1) as Hr1 by (eapply reach_cycle; eassumption).
    destruct (IH st1 Hr1 Hrest) as [st' [fxs [Hrun [Hr' [Hlen Hall]]]]].
    exists st', (fx1 :: fxs). cbn [run]. rewrite Hc. cbn [bind fst snd].
    rewrite Hrun. cbn [bind fst snd length].
    split; [reflexivity | split; [exact Hr' | split; [congruence |]]].
    constructor; [eapply motor_range; exact Hc | exact Hall].
Qed.

Lemma run_never_undefined_witness :
  exists st' fxs,
    run init [toggle 2500; quiet 127 (-300); press [(7, JOY_UP)]] = Some (st', fxs) /\
    length fxs = 3%nat /\
    Forall (fun fx => outputMin <= motor fx <= outputMax) fxs.
Proof.
  destruct (run_never_undefined
              [toggle 2500; quiet 127 (-300); press [(7, JOY_UP)]] init reach_init)
    as [st' [fxs [Hrun [_ [Hlen Hall]]]]].
  - repeat constructor; unfold int_range, INT_MIN, INT_MAX; simpl; lia.
  - exists st', fxs. auto.
Defined.

(** X2.  No [float] variable of the loop ever holds a NaN or an infinity:
    in every state the loop can reach, all eleven are well-formed finite
    numbers. *)
Theorem state_stays_finite st :
  reachable st ->
  Forall (fun x => F32.valid x = true /\ is_finite x = true) (floats st).
Proof.
  induction 1 as [| st inp st' fx Hr IH [Hj Hs] Hc].
  - unfold floats. repeat (apply Forall_cons; [split; reflexivity |]). apply Forall_nil.
  - pose proof (reachable_tame st Hr) as Ht.
    pose proof (cycle_tame st inp st' fx Ht Hj Hc) as Ht'.
    pose proof Ht' as [_ [Hg [[Vs [Fs _]] [[Vi [Fi _]] [Vl [Fl _]]]]]].
    pose proof (Hg KP) as [V1 [F1 _]]. pose proof (Hg KI) as [V2 [F2 _]].
    pose proof (Hg KD) as [V3 [F3 _]]. cbn [gain] in *.
    apply cycle_Some in Hc.
    destruct Hc as [inc [_ [_ [_ [_ [_ [_ [Hin [_ [_ Hbr]]]]]]]]]].
    assert (F32.valid (input st') = true /\ is_finite (input st') = true) as Hinp
      by (rewrite Hin; split; [apply of_int_valid | apply of_int_finite; exact Hs]).
    assert ((F32.valid (error st') = true /\ is_finite (error st') = true) /\
            (F32.valid (proportional st') = true /\ is_finite (proportional st') = true) /\
            (F32.valid (derivative st') = true /\ is_finite (derivative st') = true) /\
            (F32.valid (output st') = true /\ is_finite (output st') = true))
      as [He [Hp [Hd Ho]]].
    { destruct (enabledNow st inp).
      - destruct (controlled_finite st st' fx Ht Ht' Hbr)
          as [[Ve [Fe _]] [[Vd [Fd _]] [Vo Fo]]].
        destruct Hbr as [_ [-> _]]. auto.
      - destruct Hbr as [-> [-> [_ [-> [-> _]]]]].
        unfold floats in IH.
        repeat match goal with
               | H : Forall _ (_ :: _) |- _ => apply Forall_cons_iff in H; destruct H
               end.
        repeat split; try reflexivity; tauto. }
    unfold floats. repeat (apply Forall_cons; [auto; fail |]). apply Forall_nil.
Qed.

Lemma state_stays_finite_witness :
  exists st' fx,
    cycle init (toggle 2500) = Some (st', fx) /\ reachable st' /\
    Forall (fun x => F32.valid x = true /\ is_finite x = true) (floats st').
Proof.
  destruct (cycle init (toggle 2500)) as [[st' fx] |] eqn:E;
    [| vm_compute in E; discriminate].
  assert (reachable st') as Hr.
  { eapply reach_cycle; [exact reach_init | | exact E].
    unfold wf_inputs, int_range, INT_MIN, INT_MAX; simpl; lia. }
  exists st', fx.
  split; [reflexivity | split; [exact Hr | exact (state_stays_finite st' Hr)]].
Defined.

(** X3.  Magnitudes the loop cannot leave, whatever the operator does: each
    gain stays within [2^21] and the integral within [2^31] (from there on
    the float swallows a further step), and the setpoint is always a whole
    number from 7 to 4095. *)
Theorem reachable_magnitudes st :
  reachable st ->
  (forall g, Z.abs (F32.scaled (gain g st)) <= 2 ^ 21 * 2 ^ 149) /\
  Z.abs (F32.scaled (integral st)) <= 2 ^ 31 * 2 ^ 149 /\
  exists s, inputMin <= s <= inputMax /\ setpoint st = F32.of_int s.
Proof.
  intros Hr. destruct (reachable_tame st Hr) as [_ [Hg [_ [[_ [_ Hi]] _]]]].
  split; [intros g; apply (Hg g) | split; [exact Hi |]].
  apply reachable_setpoint_int. exact Hr.
Qed.

Lemma reachable_magnitudes_witness :
  exists st' fx,
    cycle init (mkInputs (buttons [(7, JOY_UP)]) INT_MAX 0) = Some (st', fx) /\
    Z.abs (F32.scaled (kp st')) <= 2 ^ 21 * 2 ^ 149 /\
    setpoint st' = F32.of_int 4095.
Proof.
  destruct (cycle init (mkInputs (buttons [(7, JOY_UP)]) INT_MAX 0))
    as [[st' fx] |] eqn:E; [| vm_compute in E; discriminate].
  assert (reachable st') as Hr.
  { eapply reach_cycle; [exact reach_init | | exact E].
    unfold wf_inputs, int_range, INT_MIN, INT_MAX; simpl; lia. }
  destruct (reachable_magnitudes st' Hr) as [Hg _].
  exists st', fx. split; [reflexivity | split; [exact (Hg KP) |]].
  assert (Some (st', fx) = cycle init (mkInputs (buttons [(7, JOY_UP)]) INT_MAX 0))
    as E' by (symmetry; exact E).
  vm_compute in E'. injection E' as Hs _. rewrite Hs. reflexivity.
Defined.

(** X4.  The setpoint is computed without rounding.  Over any run, from a
    setpoint that is a whole number inside the clamp, the float [setpoint]
    equals the joystick values accumulated and clamped in exact integer
    arithmetic, for every [int] the joystick call can return. *)
Theorem setpoint_tracks_integer inps :
  forall st st' fxs s,
    setpoint st = F32.of_int s -> inputMin <= s <= inputMax ->
    Forall (fun inp => int_range (joystick inp)) inps ->
    run st inps = Some (st', fxs) ->
    setpoint st' = F32.of_int (setpointsZ s inps) /\
    inputMin <= setpointsZ s inps <= inputMax.
Proof.
  induction inps as [| inp rest IH]; intros st st' fxs s Es Hs Hj Hrun.
  - cbn [run] in Hrun. injection Hrun as <- _. cbn [setpointsZ]. auto.
  - apply run_cons in Hrun. destruct Hrun as [st1 [fx1 [fxs1 [Hc [Hr _]]]]].
    inversion Hj as [| a l Hj1 Hrest]; subst.
    apply cycle_Some in Hc.
    destruct Hc as [inc [_ [_ [_ [_ [_ [Hsp _]]]]]]].
    cbn [setpointsZ]. apply (IH st1 st' fxs1); try assumption.
    + rewrite Hsp, Es. apply setpoint_step_exact; assumption.
    + apply setpointZ_range.
Qed.

Lemma setpoint_tracks_integer_witness :
  exists st' fxs,
    run init [quiet 127 0; quiet 127 0; quiet (-2000) 0; quiet (-2000) 0]
      = Some (st', fxs) /\
    setpoint st' = F32.of_int 7.
Proof.
  destruct (run init [quiet 127 0; quiet 127 0; quiet (-2000) 0; quiet (-2000) 0])
    as [[st' fxs] |] eqn:R; [| vm_compute in R; discriminate].
  exists st', fxs. split; [reflexivity |].
  destruct (setpoint_tracks_integer
              [quiet 127 0; quiet 127 0; quiet (-2000) 0; quiet (-2000) 0]
              init st' fxs 2000 eq_refl) as [H _].
  - unfold inputMin, inputMax. lia.
  - repeat constructor; unfold int_range, INT_MIN, INT_MAX; simpl; lia.
  - exact R.
  - exact H.
Defined.

(** X5.  With a sensor reading of at most [2^22] in magnitude (the analog
    input delivers 12 bits), an enabled pass computes the error and the
    derivative without rounding: [error] and [proportional] are the whole
    number [sensor - setpoint], [derivative] is that minus the previous
    [lastError], and the new [lastError] is again a whole number below
    [2^23]. *)
Theorem error_and_derivative_exact st inp st' fx s l :
  setpoint st = F32.of_int s -> inputMin <= s <= inputMax ->
  lastError st = F32.of_int l -> Z.abs l < 2 ^ 23 ->
  int_range (joystick inp) -> Z.abs (sensor inp) <= 2 ^ 22 ->
  enabledNow st inp = true ->
  cycle st inp = Some (st', fx) ->
  let e := sensor inp - setpointZ s (joystick inp) in
  error st' = F32.of_int e /\
  proportional st' = F32.of_int e /\
  derivative st' = F32.of_int (e - l) /\
  lastError st' = F32.of_int e /\
  Z.abs e < 2 ^ 23.
Proof.
  intros Es Hs El Hl Hj Hsens En Hc e.
  destruct (enabled_error_exact st inp st' fx s Es Hs Hj Hsens En Hc) as [Ee He].
  fold e in Ee, He.
  apply cycle_Some in Hc.
  destruct Hc as [inc [_ [_ [_ [_ [_ [_ [_ [_ [_ Hbr]]]]]]]]]].
  rewrite En in Hbr. destruct Hbr as [_ [Hp [_ [Hder [_ [Hlast _]]]]]].
  change (2 ^ 23) with 8388608 in *.
  rewrite Hp, Hlast, Hder, Ee, El.
  repeat split; try exact He.
  apply sub_of_int; simpl; lia.
Qed.

Lemma error_and_derivative_exact_witness :
  exists st' fx,
    cycle init (toggle 2050) = Some (st', fx) /\
    error st' = F32.of_int 50 /\ derivative st' = F32.of_int 50.
Proof.
  destruct (cycle init (toggle 2050)) as [[st' fx] |] eqn:E;
    [| vm_compute in E; discriminate].
  exists st', fx. split; [reflexivity |].
  assert (inputMin <= 2000 <= inputMax) as Hs by (unfold inputMin, inputMax; lia).
  assert (int_range (joystick (toggle 2050))) as Hj
    by (unfold int_range, INT_MIN, INT_MAX; simpl; lia).
  pose proof (error_and_derivative_exact init (toggle 2050) st' fx 2000 0
                eq_refl Hs eq_refl ltac:(simpl; lia) Hj ltac:(simpl; lia) eq_refl E)
    as [He [_ [Hd _]]].
  split; [exact He | exact Hd].
Defined.

(** X6.  Under the same conditions the integral is accumulated without
    rounding while it stays below [2^24 - 100]: it becomes the whole number
    [integral + error] when [|error| < 100], and 0 otherwise. *)
Theorem integral_accumulates_exactly st inp st' fx s a :
  setpoint st = F32.of_int s -> inputMin <= s <= inputMax ->
  integral st = F32.of_int a -> Z.abs a <= 2 ^ 24 - 100 ->
  int_range (joystick inp) -> Z.abs (sensor inp) <= 2 ^ 22 ->
  enabledNow st inp = true ->
  cycle st inp = Some (st', fx) ->
  integral st' =
    F32.of_int (integralZ a (sensor inp - setpointZ s (joystick inp))).
Proof.
  intros Es Hs Ea Ha Hj Hsens En Hc.
  destruct (enabled_error_exact st inp st' fx s Es Hs Hj Hsens En Hc) as [Ee He].
  set (e := sensor inp - setpointZ s (joystick inp)) in *.
  apply cycle_Some in Hc.
  destruct Hc as [inc [_ [_ [_ [_ [_ [_ [_ [_ [_ Hbr]]]]]]]]]].
  rewrite En in Hbr. destruct Hbr as [_ [_ [[small [Hsmall Hint]] _]]].
  change (2 ^ 23) with 8388608 in He. change (2 ^ 24 - 100) with 16777116 in Ha.
  rewrite Ee, withinIntegralLimit_of_int in Hsmall by (simpl; lia).
  injection Hsmall as <-. rewrite Hint, Ee, Ea. unfold integralZ.
  destruct (Z.ltb_spec (Z.abs e) 100); [| reflexivity].
  clearbody e. apply add_of_int; simpl; lia.
Qed.

Lemma integral_accumulates_exactly_witness :
  exists st1 fx1 st2 fx2,
    cycle init (toggle 2050) = Some (st1, fx1) /\
    cycle st1 (quiet 0 1970) = Some (st2, fx2) /\
    integral st1 = F32.of_int 50 /\ integral st2 = F32.of_int 20.
Proof.
  destruct (cycle init (toggle 2050)) as [[st1 fx1] |] eqn:E1;
    [| vm_compute in E1; discriminate].
  assert (Some (st1, fx1) = cycle init (toggle 2050)) as E1'
    by (symmetry; exact E1).
  vm_compute in E1'. injection E1' as Hs1 _.
  destruct (cycle st1 (quiet 0 1970)) as [[st2 fx2] |] eqn:E2;
    [| rewrite Hs1 in E2; vm_compute in E2; discriminate].
  exists st1, fx1, st2, fx2.
  assert (inputMin <= 2000 <= inputMax) as Hs by (unfold inputMin, inputMax; lia).
  assert (int_range 0) as Hj by (unfold int_range, INT_MIN, INT_MAX; lia).
  pose proof (integral_accumulates_exactly init (toggle 2050) st1 fx1 2000 0
                eq_refl Hs eq_refl ltac:(simpl; lia) Hj ltac:(simpl; lia) eq_refl E1)
    as H1.
  assert (setpoint st1 = F32.of_int 2000) as Es1 by (rewrite Hs1; reflexivity).
  assert (enabledNow st1 (quiet 0 1970) = true) as En2 by (rewrite Hs1; reflexivity).
  pose proof (integral_accumulates_exactly st1 (quiet 0 1970) st2 fx2 2000 50
                Es1 Hs H1 ltac:(simpl; lia) Hj ltac:(simpl; lia) En2 E2)
    as H2.
  split; [reflexivity | split; [exact E2 | split; [exact H1 | exact H2]]].
Defined.

(** X7.  The motor receives the output with its fraction dropped, toward
    zero; an output of magnitude below 1 therefore stops the motor.  Holds
    in every pass the loop can reach, enabled or not. *)
Theorem motor_truncates_output st inp st' fx :
  reachable st -> wf_inputs inp ->
  cycle st inp = Some (st', fx) ->
  motor fx = Z.quot (F32.scaled (output st')) (2 ^ 149) /\
  (Z.abs (F32.scaled (output st')) < 2 ^ 149 -> motor fx = 0).
Proof.
  intros Hr Hwf Hc.
  pose proof (output_valid st inp st' fx Hr Hwf Hc) as Hv.
  pose proof (int_of_float_quot _ _ Hv (cycle_motor st inp st' fx Hc)) as Hq.
  split; [exact Hq |].
  intros Hsmall. rewrite Hq.
  set (a := F32.scaled (output st')) in *.
  destruct (Z_le_gt_dec 0 a) as [Hpos | Hneg].
  - apply Z.quot_small. lia.
  - replace a with (- - a) by lia. rewrite Z.quot_opp_l by (simpl; lia).
    rewrite Z.quot_small by lia. reflexivity.
Qed.

Lemma motor_truncates_output_witness :
  exists st' fx,
    cycle init (toggle 2050) = Some (st', fx) /\
    output st' = S754_finite false 12582912 (-23) /\ motor fx = 1.
Proof.
  destruct (cycle init (toggle 2050)) as [[st' fx] |] eqn:E;
    [| vm_compute in E; discriminate].
  exists st', fx. split; [reflexivity |].
  assert (wf_inputs (toggle 2050)) as Hwf
    by (unfold wf_inputs, int_range, INT_MIN, INT_MAX; simpl; lia).
  destruct (motor_truncates_output init (toggle 2050) st' fx reach_init Hwf E)
    as [Hq _].
  assert (Some (st', fx) = cycle init (toggle 2050)) as E' by (symmetry; exact E).
  vm_compute in E'. injection E' as Hs _.
  assert (output st' = S754_finite false 12582912 (-23)) as Ho
    by (rewrite Hs; reflexivity).
  split; [exact Ho |]. rewrite Hq, Ho. reflexivity.
Defined.

(** X8.  With all three gains at zero the motor stands still: in every
    pass the loop can reach, whatever the sensor reads and whatever has
    accumulated, the output is a zero and 0 is handed to the motor. *)
Theorem zeroed_gains_stop_motor st inp st' fx :
  reachable st -> wf_inputs inp ->
  cycle st inp = Some (st', fx) ->
  (forall g, exists s, gain g st' = S754_zero s) ->
  motor fx = 0 /\ exists s, output st' = S754_zero s.
Proof.
  intros Hr [Hj Hs] Hc Hz.
  pose proof (reachable_tame st Hr) as Ht.
  pose proof (cycle_tame st inp st' fx Ht Hj Hc) as Ht'.
  pose proof (cycle_motor st inp st' fx Hc) as Hm.
  assert (exists s, output st' = S754_zero s) as [s Ho].
  { apply cycle_Some in Hc.
    destruct Hc as [inc [_ [_ [_ [_ [_ [_ [_ [_ [_ Hbr]]]]]]]]]].
    destruct (enabledNow st inp).
    - destruct (controlled_finite st st' fx Ht Ht' Hbr) as [[_ [Fe _]] [[_ [Fd _]] _]].
      destruct Ht' as [_ [_ [_ [[_ [Fi _]] _]]]].
      destruct Hbr as [_ [Hp [_ [_ [Hout _]]]]].
      destruct (Hz KP) as [a Ea]. destruct (Hz KI) as [b Eb]. destruct (Hz KD) as [c Ec].
      cbn [gain] in Ea, Eb, Ec. rewrite Hp, Ea, Eb, Ec in Hout.
      destruct (pidSum_zero_gains a b c _ _ _ Fe Fi Fd) as [s Es].
      rewrite Es, clampOutput_zero in Hout. eauto.
    - destruct Hbr as [_ [_ [_ [_ [-> _]]]]]. exists false. reflexivity. }
  rewrite Ho in Hm. cbn [int_of_float] in Hm. injection Hm as <-. eauto.
Qed.

Lemma zeroed_gains_stop_motor_witness :
  exists st' fx,
    cycle init
      (mkInputs (buttons [(8, JOY_DOWN); (8, JOY_LEFT); (8, JOY_UP); (8, JOY_RIGHT)])
                0 3000)
      = Some (st', fx) /\
    isEnabled st' = true /\ error st' = F32.of_int 1000 /\ motor fx = 0.
Proof.
  set (inp := mkInputs
                (buttons [(8, JOY_DOWN); (8, JOY_LEFT); (8, JOY_UP); (8, JOY_RIGHT)])
                0 3000).
  destruct (cycle init inp) as [[st' fx] |] eqn:E; [| vm_compute in E; discriminate].
  exists st', fx. split; [reflexivity |].
  assert (wf_inputs inp) as Hwf
    by (unfold wf_inputs, int_range, INT_MIN, INT_MAX; simpl; lia).
  assert (Some (st', fx) = cycle init inp) as E' by (symmetry; exact E).
  vm_compute in E'. injection E' as Hs _.
  assert (forall g, exists s, gain g st' = S754_zero s) as Hz
    by (rewrite Hs; intros [| |]; exists false; reflexivity).
  destruct (zeroed_gains_stop_motor init inp st' fx reach_init Hwf E Hz) as [Hm _].
  split; [rewrite Hs; reflexivity |]. split; [rewrite Hs; reflexivity | exact Hm].
Defined.

(** X9.  With the integral and derivative gains at zero and a proportional
    gain that is not negative, the motor is never driven against the
    error: a positive speed needs a reading above the setpoint, a negative
    one a reading below it. *)
Theorem proportional_only_direction st inp st' fx :
  reachable st -> wf_inputs inp ->
  cycle st inp = Some (st', fx) ->
  0 <= F32.scaled (kp st') ->
  (exists s, ki st' = S754_zero s) -> (exists s, kd st' = S754_zero s) ->
  (0 < motor fx -> 0 < F32.scaled (error st')) /\
  (motor fx < 0 -> F32.scaled (error st') < 0).
Proof.
  intros Hr [Hj Hs] Hc Hkp [b Eb] [c Ec].
  pose proof (reachable_tame st Hr) as Ht.
  pose proof (cycle_tame st inp st' fx Ht Hj Hc) as Ht'.
  pose proof (output_valid st inp st' fx Hr (conj Hj Hs) Hc) as Vo.
  pose proof (int_of_float_quot _ _ Vo (cycle_motor st inp st' fx Hc)) as Hq.
  apply cycle_Some in Hc.
  destruct Hc as [inc [_ [_ [_ [_ [_ [_ [_ [En [_ Hbr]]]]]]]]]].
  destruct (enabledNow st inp).
  - destruct (controlled_finite st st' fx Ht Ht' Hbr) as [Be [[_ [Fd _]] _]].
    pose proof Ht' as [_ [Hg [_ [[_ [Fi _]] _]]]].
    pose proof (Hg KP) as Bp. cbn [gain] in Bp.
    destruct Hbr as [_ [Hp [_ [_ [Hout _]]]]].
    rewrite Hp, Eb, Ec in Hout.
    pose proof (mul_bounded _ _ 170 181 Bp Be ltac:(lia) ltac:(lia) ltac:(lia))
      as [_ [Fm _]].
    destruct Bp as [Vp [Fp _]]. destruct Be as [Ve [Fe _]].
    destruct (pidSum_proportional (kp st') b c (error st') (integral st')
                (derivative st') Vp Ve Fp Fe Fm Fi Fd) as [Sr [Vr Fr]].
    set (raw := pidSum _ _ _ _ _ _) in *.
    destruct (clampOutput_sign raw Vr Fr) as [Cp Cn]. rewrite <- Hout in Cp, Cn.
    destruct (mul_sign (kp st') (error st') Vp Ve) as [Mp Mn].
    destruct (quot_sign (F32.scaled (output st')) (2 ^ 149) ltac:(reflexivity))
      as [Qp Qn].
    rewrite <- Hq in Qp, Qn. rewrite Sr in Cp, Cn.
    split; intros Hm.
    + specialize (Mp (Cp (Qp Hm))). nia.
    + specialize (Mn (Cn (Qn Hm))). nia.
  - destruct Hbr as [_ [_ [_ [_ [_ [_ ->]]]]]]. lia.
Qed.

Lemma proportional_only_direction_witness :
  exists st' fx,
    cycle init
      (mkInputs (buttons [(8, JOY_DOWN); (8, JOY_UP); (8, JOY_RIGHT)]) 0 1500)
      = Some (st', fx) /\
    motor fx = -5 /\ F32.scaled (error st') < 0.
Proof.
  set (inp := mkInputs (buttons [(8, JOY_DOWN); (8, JOY_UP); (8, JOY_RIGHT)]) 0 1500).
  destruct (cycle init inp) as [[st' fx] |] eqn:E; [| vm_compute in E; discriminate].
  exists st', fx. split; [reflexivity |].
  assert (wf_inputs inp) as Hwf
    by (unfold wf_inputs, int_range, INT_MIN, INT_MAX; simpl; lia).
  assert (Some (st', fx) = cycle init inp) as E' by (symmetry; exact E).
  vm_compute in E'. injection E' as Hs Hf.
  assert (0 <= F32.scaled (kp st')) as Hkp by (rewrite Hs; vm_compute; discriminate).
  assert (exists s, ki st' = S754_zero s) as Hki by (rewrite Hs; exists false; reflexivity).
  assert (exists s, kd st' = S754_zero s) as Hkd by (rewrite Hs; exists false; reflexivity).
  destruct (proportional_only_direction init inp st' fx reach_init Hwf E Hkp Hki Hkd)
    as [_ Hn].
  assert (motor fx = -5) as Hm by (rewrite Hf; reflexivity).
  split; [exact Hm |]. apply Hn. rewrite Hm. reflexivity.
Defined.

(** X10.  The enable flag after a run is the flag before it, switched once
    for every pressed edge of 8 down: an even number of presses leaves the
    controller as it was. *)
Theorem enable_flag_parity inps :
  forall st st' fxs,
    run st inps = Some (st', fxs) ->
    isEnabled st' = xorb (isEnabled st) (Nat.odd (toggles inps)).
Proof.
  induction inps as [| inp rest IH]; intros st st' fxs Hrun.
  - cbn [run] in Hrun. injection Hrun as <- _.
    destruct (isEnabled st); reflexivity.
  - apply run_cons in Hrun. destruct Hrun as [st1 [fx1 [fxs1 [Hc [Hr _]]]]].
    rewrite (IH st1 st' fxs1 Hr).
    apply cycle_Some in Hc.
    destruct Hc as [inc [_ [_ [_ [_ [_ [_ [_ [-> _]]]]]]]]].
    assert (toggles (inp :: rest) =
            if pressed inp 8 JOY_DOWN then S (toggles rest) else toggles rest) as ->
      by (unfold toggles; cbn [filter]; destruct (pressed inp 8 JOY_DOWN); reflexivity).
    unfold enabledNow.
    destruct (pressed inp 8 JOY_DOWN); [| reflexivity].
    rewrite Nat.odd_succ, <- Nat.negb_odd.
    destruct (isEnabled st), (Nat.odd (toggles rest)); reflexivity.
Qed.

Lemma enable_flag_parity_witness :
  exists st' fxs,
    run init [toggle 2000; quiet 0 2000; toggle 2000] = Some (st', fxs) /\
    isEnabled st' = false.
Proof.
  destruct (run init [toggle 2000; quiet 0 2000; toggle 2000])
    as [[st' fxs] |] eqn:R; [| vm_compute in R; discriminate].
  exists st', fxs. split; [reflexivity |].
  exact (enable_flag_parity _ init st' fxs R).
Defined.

(** X11.  The status line is printed before the enable button is read:
    each pass prints the gains, the increment, the setpoint and the sensor
    reading as that pass leaves them, but the enable flag as the pass
    before left it.  Over a run the printed flags are the tested flags
    shifted by one pass. *)
Theorem status_line_lags_flag :
  (forall st inp st' fx,
     cycle st inp = Some (st', fx) ->
     d_enabled (diag fx) = isEnabled st /\
     d_input (diag fx) = input st' /\ d_setpoint (diag fx) = setpoint st' /\
     increment_at (i st') = Some (d_increment (diag fx)) /\
     d_kp (diag fx) = kp st' /\ d_ki (diag fx) = ki st' /\ d_kd (diag fx) = kd st') /\
  (forall inps st st' fxs,
     run st inps = Some (st', fxs) ->
     printedFlags fxs = removelast (isEnabled st :: flags (isEnabled st) inps)).
Proof.
  split.
  - intros st inp st' fx Hc. apply cycle_Some in Hc.
    destruct Hc as [inc [_ [Hinc [_ [_ [_ [_ [_ [_ [-> _]]]]]]]]]].
    cbn. repeat split; auto.
  - induction inps as [| inp rest IH]; intros st st' fxs Hrun.
    + cbn [run] in Hrun. injection Hrun as _ <-. reflexivity.
    + apply run_cons in Hrun. destruct Hrun as [st1 [fx1 [fxs1 [Hc [Hr ->]]]]].
      specialize (IH st1 st' fxs1 Hr).
      apply cycle_Some in Hc.
      destruct Hc as [inc [_ [_ [_ [_ [_ [_ [_ [En [Hd _]]]]]]]]]].
      unfold printedFlags in *. cbn [map flags]. rewrite Hd. cbn [diag d_enabled].
      change (if pressed inp 8 JOY_DOWN then negb (isEnabled st) else isEnabled st)
        with (enabledNow st inp).
      rewrite <- En, IH. reflexivity.
Qed.

Lemma status_line_lags_flag_witness :
  exists st' fxs,
    run init [toggle 2000; quiet 0 2000] = Some (st', fxs) /\
    printedFlags fxs = [false; true].
Proof.
  destruct (run init [toggle 2000; quiet 0 2000])
    as [[st' fxs] |] eqn:R; [| vm_compute in R; discriminate].
  exists st', fxs. split; [reflexivity |].
  destruct status_line_lags_flag as [_ H].
  exact (H _ init st' fxs R).
Defined.

(** X12.  Tuning is independent of control: the increment index, the three
    gains and the setpoint after a run depend only on the buttons other
    than the enable button and on the joystick.  Two runs that agree on
    those end with the same tuning, whatever their sensor readings, enable
    presses and controller variables. *)
Theorem tuning_ignores_controller inps1 :
  forall inps2 st1 st2 st1' st2' fxs1 fxs2,
    tuning st1 = tuning st2 ->
    Forall2 (fun a b =>
               (forall g d, (g, d) <> (8, JOY_DOWN) -> pressed a g d = pressed b g d) /\
               joystick a = joystick b) inps1 inps2 ->
    run st1 inps1 = Some (st1', fxs1) ->
    run st2 inps2 = Some (st2', fxs2) ->
    tuning st1' = tuning st2'.
Proof.
  induction inps1 as [| a rest1 IH]; intros inps2 st1 st2 st1' st2' fxs1 fxs2 Ht Hin R1 R2.
  - inversion Hin; subst. cbn [run] in R1, R2.
    injection R1 as <- _. injection R2 as <- _. exact Ht.
  - inversion Hin as [| a' b l1 rest2 [Hb Hj] Hrest]; subst.
    apply run_cons in R1. destruct R1 as [s1 [f1 [fs1 [C1 [R1 _]]]]].
    apply run_cons in R2. destruct R2 as [s2 [f2 [fs2 [C2 [R2 _]]]]].
    apply (IH rest2 s1 s2 st1' st2' fs1 fs2); try assumption.
    apply cycle_Some in C1.
    destruct C1 as [inc1 [Hi1 [Hinc1 [Hp1 [Hq1 [Hd1 [Hs1 _]]]]]]].
    apply cycle_Some in C2.
    destruct C2 as [inc2 [Hi2 [Hinc2 [Hp2 [Hq2 [Hd2 [Hs2 _]]]]]]].
    unfold tuning in Ht. injection Ht as Ei Ep Eq Ed Es.
    assert (i s1 = i s2) as Ei'
      by (rewrite Hi1, Hi2, Ei, (Hb 7 JOY_RIGHT) by discriminate; reflexivity).
    assert (inc1 = inc2) as -> by (rewrite Ei' in Hinc1; congruence).
    unfold tuning.
    rewrite Ei', Hp1, Hp2, Hq1, Hq2, Hd1, Hd2, Hs1, Hs2, Ep, Eq, Ed, Es, Hj.
    rewrite !(Hb 7), !(Hb 5), !(Hb 6), (Hb 8 JOY_LEFT), (Hb 8 JOY_UP),
      (Hb 8 JOY_RIGHT) by discriminate.
    reflexivity.
Qed.

Lemma tuning_ignores_controller_witness :
  exists s1 f1 s2 f2,
    run init [mkInputs (buttons [(8, JOY_DOWN); (7, JOY_UP)]) 50 3000] = Some (s1, f1) /\
    run init [mkInputs (buttons [(7, JOY_UP)]) 50 100] = Some (s2, f2) /\
    isEnabled s1 = true /\ isEnabled s2 = false /\
    tuning s1 = tuning s2.
Proof.
  set (a := mkInputs (buttons [(8, JOY_DOWN); (7, JOY_UP)]) 50 3000).
  set (b := mkInputs (buttons [(7, JOY_UP)]) 50 100).
  destruct (run init [a]) as [[s1 f1] |] eqn:R1; [| vm_compute in R1; discriminate].
  destruct (run init [b]) as [[s2 f2] |] eqn:R2; [| vm_compute in R2; discriminate].
  exists s1, f1, s2, f2.
  assert (Forall2 (fun a b =>
             (forall g d, (g, d) <> (8, JOY_DOWN) -> pressed a g d = pressed b g d) /\
             joystick a = joystick b) [a] [b]) as Hin.
  { constructor; [| constructor]. split; [| reflexivity].
    intros g d Hne. unfold a, b, buttons. cbn [pressed existsb fst snd].
    destruct (Z.eqb_spec 8 g) as [<- | _]; [| reflexivity].
    destruct d; try reflexivity. exfalso. apply Hne. reflexivity. }
  pose proof (tuning_ignores_controller [a] [b] init init s1 s2 f1 f2 eq_refl Hin R1 R2)
    as Ht.
  assert (Some (s1, f1) = run init [a]) as R1' by (symmetry; exact R1).
  assert (Some (s2, f2) = run init [b]) as R2' by (symmetry; exact R2).
  vm_compute in R1', R2'. injection R1' as H1 _. injection R2' as H2 _.
  split; [reflexivity | split; [reflexivity |]].
  split; [rewrite H1; reflexivity | split; [rewrite H2; reflexivity | exact Ht]].
Defined.

(** X13.  At the top of every pass [lastError] and [proportional] both hold
    the error of the last enabled pass, so that line 169 subtracts the
    previous error; and whenever the controller is disabled, [integral] and
    [output] are zero. *)
Theorem state_invariants st :
  reachable st ->
  lastError st = error st /\ proportional st = error st /\
  (isEnabled st = false ->
   integral st = F32.of_int 0 /\ output st = F32.of_int 0).
Proof.
  induction 1 as [| st inp st' fx _ [IHl [IHp _]] _ Hc].
  - repeat split.
  - apply cycle_Some in Hc.
    destruct Hc as [inc [_ [_ [_ [_ [_ [_ [_ [En [_ Hbr]]]]]]]]]].
    rewrite En. destruct (enabledNow st inp).
    + destruct Hbr as [_ [Hp [_ [_ [_ [Hl _]]]]]].
      split; [exact Hl | split; [exact Hp | discriminate]].
    + destruct Hbr as [He [Hp [Hi [_ [Ho [Hl _]]]]]].
      split; [congruence | split; [congruence | auto]].
Qed.

Lemma state_invariants_witness :
  exists st' fxs,
    run init [toggle 2050; quiet 0 1990; toggle 3000] = Some (st', fxs) /\
    lastError st' = F32.of_int (-10) /\ error st' = F32.of_int (-10) /\
    integral st' = F32.of_int 0.
Proof.
  set (inps := [toggle 2050; quiet 0 1990; toggle 3000]).
  assert (Forall (fun inp => wf_inputs inp /\ Z.abs (sensor inp) <= 2 ^ 30) inps) as Hin
    by (repeat constructor; unfold int_range, INT_MIN, INT_MAX; simpl; lia).
  destruct (run init inps) as [[st' fxs] |] eqn:R; [| vm_compute in R; discriminate].
  exists st', fxs. split; [reflexivity |].
  assert (Some (st', fxs) = run init inps) as R' by (symmetry; exact R).
  vm_compute in R'. injection R' as Hs _.
  assert (reachable st') as Hr.
  { unfold inps in R. cbn [run] in R.
    destruct (cycle init (toggle 2050)) as [[s1 f1] |] eqn:C1; [| discriminate R].
    cbn [bind fst snd] in R.
    destruct (cycle s1 (quiet 0 1990)) as [[s2 f2] |] eqn:C2; [| discriminate R].
    cbn [bind fst snd] in R.
    destruct (cycle s2 (toggle 3000)) as [[s3 f3] |] eqn:C3; [| discriminate R].
    cbn [bind fst snd] in R. injection R as <- _.
    inversion Hin as [| ? ? [W1 _] Hin1]; subst.
    inversion Hin1 as [| ? ? [W2 _] Hin2]; subst.
    inversion Hin2 as [| ? ? [W3 _] _]; subst.
    eapply reach_cycle; [| exact W3 | exact C3].
    eapply reach_cycle; [| exact W2 | exact C2].
    eapply reach_cycle; [exact reach_init | exact W1 | exact C1]. }
  destruct (state_invariants st' Hr) as [Hl [_ Hoff]].
  assert (error st' = F32.of_int (-10)) as He by (rewrite Hs; reflexivity).
  split; [rewrite Hl; exact He | split; [exact He |]].
  apply Hoff. rewrite Hs. reflexivity.
Defined.

(** X14.  Rest is a fixed point.  An enabled pass that finds the sensor on
    the setpoint, the joystick centred, and nothing left in [lastError] and
    [integral] leaves all of that as it is and stops the motor, whatever
    the gains. *)
Theorem rest_is_fixed_point st inp st' fx s :
  reachable st ->
  setpoint st = F32.of_int s -> inputMin <= s <= inputMax ->
  sensor inp = s -> joystick inp = 0 ->
  lastError st = F32.of_int 0 -> integral st = F32.of_int 0 ->
  enabledNow st inp = true ->
  cycle st inp = Some (st', fx) ->
  motor fx = 0 /\
  setpoint st' = setpoint st /\
  error st' = F32.of_int 0 /\ lastError st' = F32.of_int 0 /\
  integral st' = F32.of_int 0 /\ derivative st' = F32.of_int 0.
Proof.
  intros Hr Es Hs Hsens Hjoy El Ei En Hc.
  assert (int_range (joystick inp)) as Hj
    by (rewrite Hjoy; unfold int_range, INT_MIN, INT_MAX; lia).
  pose proof (reachable_tame st Hr) as Ht.
  pose proof (cycle_tame st inp st' fx Ht Hj Hc) as [_ [Hg _]].
  pose proof (cycle_motor st inp st' fx Hc) as Hm.
  assert (setpointZ s 0 = s) as Hz.
  { unfold setpointZ, clampZ. rewrite Z.add_0_r.
    destruct (Z.ltb_spec inputMax s), (Z.ltb_spec s inputMin); lia. }
  apply cycle_Some in Hc.
  destruct Hc as [inc [_ [_ [_ [_ [_ [Hsp [Hin [_ [_ Hbr]]]]]]]]]].
  rewrite En in Hbr.
  destruct Hbr as [Herr [Hp [[small [Hsmall Hint]] [Hder [Hout [Hlast _]]]]]].
  assert (setpoint st' = setpoint st) as Esp.
  { rewrite Hsp, Es, Hjoy, setpoint_step_exact, Hz; [reflexivity | exact Hs |].
    unfold int_range, INT_MIN, INT_MAX. lia. }
  assert (error st' = F32.of_int 0) as Ee.
  { unfold inputMin, inputMax in Hs.
    rewrite Herr, Hin, Esp, Es, Hsens, sub_of_int, Z.sub_diag by (simpl; lia).
    reflexivity. }
  rewrite Ee in Hsmall. injection Hsmall as <-.
  assert (integral st' = F32.of_int 0) as Ei' by (rewrite Hint, Ei, Ee; reflexivity).
  assert (derivative st' = F32.of_int 0) as Ed by (rewrite Hder, Ee, El; reflexivity).
  rewrite Hp, Ee, Ei', Ed in Hout.
  destruct (Hg KP) as [_ [F1 _]]. destruct (Hg KI) as [_ [F2 _]].
  destruct (Hg KD) as [_ [F3 _]]. cbn [gain] in F1, F2, F3.
  destruct (pidSum_zero_terms (kp st') (ki st') (kd st') false false false F1 F2 F3)
    as [so Eo].
  change (F32.of_int 0) with (S754_zero false) in Hout.
  rewrite Eo, clampOutput_zero in Hout. rewrite Hout in Hm.
  cbn [int_of_float] in Hm. injection Hm as <-.
  rewrite Hlast, Ee. repeat split; assumption.
Qed.

Lemma rest_is_fixed_point_witness :
  exists st' fx,
    cycle init (toggle 2000) = Some (st', fx) /\
    motor fx = 0 /\ integral st' = F32.of_int 0 /\ lastError st' = F32.of_int 0.
Proof.
  destruct (cycle init (toggle 2000)) as [[st' fx] |] eqn:E;
    [| vm_compute in E; discriminate].
  exists st', fx. split; [reflexivity |].
  assert (inputMin <= 2000 <= inputMax) as Hs by (unfold inputMin, inputMax; lia).
  destruct (rest_is_fixed_point init (toggle 2000) st' fx 2000 reach_init
              eq_refl Hs eq_refl eq_refl eq_refl eq_refl eq_refl E)
    as [Hm [_ [_ [Hl [Hi _]]]]].
  auto.
Defined.
